(** * abortable-promise: AbortablePromise, AbortSignalPlus, AbortControllerPlus

    A shallow embedding of [src/abortable-promise.ts], [src/abort-signal-plus.ts],
    [src/abort-controller-plus.ts] and the two error classes, over an explicit
    store of JavaScript objects.  Objects are addressed by allocation number;
    closures handed to the host (abort listeners, timer callbacks) are kept as
    data and run by the embedded host functions. *)

From Stdlib Require Import List Arith Lia Bool ZArith String.
Import ListNotations.

Set Implicit Arguments.

(** ** Values *)

(** The JavaScript values that travel as abort reasons and settlement values.
    Objects carry their identity. *)
Inductive value : Type :=
| VUndefined
| VNull
| VString (s : string)
| VNumber (z : Z)
| VDOMException (id : nat) (name message : string)
| VObject (id : nat)
| VThenable (id : nat).

Definition value_eq_dec : forall a b : value, {a = b} + {a <> b}.
Proof.
  decide equality; (apply string_dec || apply Z.eq_dec || apply Nat.eq_dec).
Defined.

(** [SameValue] of ECMAScript, on the values above. *)
Definition SameValue (a b : value) : bool :=
  if value_eq_dec a b then true else false.

(** [reason ?? ...] tests for [undefined] and [null]. *)
Definition nullish (v : value) : bool :=
  match v with
  | VUndefined | VNull => true
  | _ => false
  end.

Definition TimeoutError_message : string :=
  "The operation was aborted due to timeout"%string.

Definition AbortError_message : string :=
  "This operation was aborted"%string.

(** [error instanceof DOMException && error.name === "TimeoutError"] *)
Definition isTimeoutError (error : value) : bool :=
  match error with
  | VDOMException _ name _ => String.eqb name "TimeoutError"
  | _ => false
  end.

(** [error instanceof DOMException && error.name === "AbortError"] *)
Definition isAbortError (error : value) : bool :=
  match error with
  | VDOMException _ name _ => String.eqb name "AbortError"
  | _ => false
  end.

(** ** Objects *)

(** A signal as user code holds it: the library's own [AbortSignalPlus], or a
    native [AbortSignal]. *)
Inductive SignalRef : Type :=
| SPlus (s : nat)
| SNative (x : nat).

(** A native [AbortSignal].  [ns_aborted] and [ns_reason] are its internal
    slots, read by the prototype getters; [own_aborted] and [own_reason] are
    own data properties put on the instance by [Object.defineProperty] with a
    descriptor that has only [value] (so: not writable, not configurable). *)
Record NativeSignal : Type := mkNative {
  ns_aborted : bool;
  ns_reason : value;
  own_aborted : option bool;
  own_reason : option value
}.

(** An [AbortSignalPlus] with the [AbortControllerPlus] that owns it:
    [sp_signal] is [this._signal], the native signal of the wrapped native
    controller. *)
Record SignalPlus : Type := mkPlus {
  sp_signal : nat;
  _timer : option nat;
  _timeout : option Z
}.

Inductive Outcome : Type :=
| Pending
| Fulfilled (v : value)
| Rejected (r : value).

(** An [AbortablePromise].  [alreadyResolved] and [outcome] belong to the
    underlying [Promise]: the flag shared by its two resolving functions, and
    its state. *)
Record Node : Type := mkNode {
  _parent : nat;
  _reject : nat;
  _isSettled : bool;
  _signal : option SignalRef;
  alreadyResolved : bool;
  outcome : Outcome
}.

(** The three arrow functions the library registers as abort listeners. *)
Inductive Closure : Type :=
| CDoAbort (p : nat) (signal : SignalRef)
    (* AbortablePromise.listen: () => { this._doAbort(signal.reason) } *)
| CForward (s : nat) (signal : SignalRef)
    (* AbortSignalPlus._listen: () => { this._controller.abort(...) } *)
| CClearTimer (s : nat).
    (* AbortSignalPlus.timeout: () => { clearTimeout(this._timer); ... } *)

(** A registered listener for "abort" on the native signal [target]; every
    listener of the library is registered with [{ once: true }]. *)
Record Listener : Type := mkListener {
  lid : nat;
  target : nat;
  body : Closure
}.

(** An armed timer: the callback of [AbortSignalPlus.timeout] on [owner]. *)
Record Timer : Type := mkTimer {
  tid : nat;
  owner : nat;
  delay : Z
}.

(** Calls worth observing, in the order they happen. *)
Inductive Call : Type :=
| CallReject (p : nat) (reason : value)
| CallControllerAbort (s : nat) (reason : value)
| CallListener (l : nat)
| CallExecutor (p : nat).

Record State : Type := mkState {
  nodes : nat -> Node;
  natives : nat -> NativeSignal;
  pluses : nat -> SignalPlus;
  listeners : list Listener;
  timers : list Timer;
  next_id : nat;
  calls : list Call
}.

(** ** Store updates *)

Definition upd {A : Type} (f : nat -> A) (k : nat) (v : A) : nat -> A :=
  fun i => if i =? k then v else f i.

Definition set_nodes (st : State) (f : nat -> Node) : State :=
  mkState f (natives st) (pluses st) (listeners st) (timers st)
          (next_id st) (calls st).

Definition set_natives (st : State) (f : nat -> NativeSignal) : State :=
  mkState (nodes st) f (pluses st) (listeners st) (timers st)
          (next_id st) (calls st).

Definition set_pluses (st : State) (f : nat -> SignalPlus) : State :=
  mkState (nodes st) (natives st) f (listeners st) (timers st)
          (next_id st) (calls st).

Definition set_listeners (st : State) (l : list Listener) : State :=
  mkState (nodes st) (natives st) (pluses st) l (timers st)
          (next_id st) (calls st).

Definition set_timers (st : State) (l : list Timer) : State :=
  mkState (nodes st) (natives st) (pluses st) (listeners st) l
          (next_id st) (calls st).

(** Allocation takes the next number. *)
Definition bump (st : State) : State :=
  mkState (nodes st) (natives st) (pluses st) (listeners st) (timers st)
          (S (next_id st)) (calls st).

Definition log (st : State) (c : Call) : State :=
  mkState (nodes st) (natives st) (pluses st) (listeners st) (timers st)
          (next_id st) (calls st ++ [c]).

Definition upd_node (st : State) (p : nat) (n : Node) : State :=
  set_nodes st (upd (nodes st) p n).

Definition upd_native (st : State) (x : nat) (n : NativeSignal) : State :=
  set_natives st (upd (natives st) x n).

Definition upd_plus (st : State) (s : nat) (p : SignalPlus) : State :=
  set_pluses st (upd (pluses st) s p).

(** The empty program state: no listener, no timer, nothing called; every
    promise slot is a root that nothing has settled, every signal slot is a
    signal that has not fired. *)
Definition init : State :=
  mkState (fun n => mkNode n n false None false Pending)
          (fun _ => mkNative false VUndefined None None)
          (fun s => mkPlus s None None)
          [] [] 0 [].

(** ** Error classes *)

(** [new TimeoutError()] *)
Definition new_TimeoutError (st : State) : State * value :=
  (bump st, VDOMException (next_id st) "TimeoutError" TimeoutError_message).

(** [new AbortError()] *)
Definition new_AbortError (st : State) : State * value :=
  (bump st, VDOMException (next_id st) "AbortError" AbortError_message).

(** ** The underlying Promise *)

(** The [reject] function of promise [p]. *)
Definition promise_reject (st : State) (p : nat) (r : value) : State :=
  let n := nodes st p in
  if alreadyResolved n then st
  else upd_node st p
         (mkNode (_parent n) (_reject n) (_isSettled n) (_signal n)
                 true (Rejected r)).

(** The [resolve] function of promise [p]; a thenable is adopted later by the
    engine, the promise stays pending and locked in. *)
Definition promise_resolve (st : State) (p : nat) (v : value) : State :=
  let n := nodes st p in
  if alreadyResolved n then st
  else upd_node st p
         (mkNode (_parent n) (_reject n) (_isSettled n) (_signal n)
                 true (match v with
                       | VThenable _ => Pending
                       | _ => Fulfilled v
                       end)).

Definition set_isSettled (st : State) (p : nat) : State :=
  let n := nodes st p in
  upd_node st p
    (mkNode (_parent n) (_reject n) true (_signal n)
            (alreadyResolved n) (outcome n)).

(** ** Signals: getters *)

Definition native_aborted (n : NativeSignal) : bool :=
  match own_aborted n with
  | Some b => b
  | None => ns_aborted n
  end.

Definition native_reason (n : NativeSignal) : value :=
  match own_reason n with
  | Some v => v
  | None => ns_reason n
  end.

Definition native_of (st : State) (signal : SignalRef) : nat :=
  match signal with
  | SPlus s => sp_signal (pluses st s)
  | SNative x => x
  end.

(** [signal.aborted] *)
Definition aborted (st : State) (signal : SignalRef) : bool :=
  native_aborted (natives st (native_of st signal)).

(** [signal.reason] *)
Definition reason (st : State) (signal : SignalRef) : value :=
  native_reason (natives st (native_of st signal)).

(** ** AbortablePromise._doAbort *)

(** The loop of [_doAbort]; [fuel] bounds its iterations. *)
Fixpoint walk (fuel : nat) (st : State) (source : nat) : option nat :=
  match fuel with
  | 0 => None
  | S fuel' =>
      let parent := _parent (nodes st source) in
      if source =? parent then Some source
      else if _isSettled (nodes st parent) then Some source
      else walk fuel' st parent
  end.

(** A call of [thisReject], the reject capability promise [p] was built
    with. *)
Definition thisReject (st : State) (p : nat) (r : value) : State :=
  promise_reject (log st (CallReject p r)) p r.

(** [source._reject(reason)] *)
Definition invoke_reject (st : State) (source : nat) (r : value) : State :=
  thisReject st (_reject (nodes st source)) r.

Definition _doAbort (fuel : nat) (st : State) (this : nat) (r : value)
  : option State :=
  match walk fuel st this with
  | None => None
  | Some source => Some (invoke_reject st source r)
  end.

(** ** The host: listeners and timers *)

(** [signal.addEventListener("abort", c, { once: true })] *)
Definition addEventListener (st : State) (signal : SignalRef) (c : Closure)
  : State :=
  bump (set_listeners st
          (listeners st ++ [mkListener (next_id st) (native_of st signal) c])).

Definition registered (st : State) (l : nat) : bool :=
  existsb (fun e => lid e =? l) (listeners st).

Definition remove_listener (st : State) (l : nat) : State :=
  set_listeners st (filter (fun e => negb (lid e =? l)) (listeners st)).

(** The listeners of native signal [x], in registration order. *)
Definition listeners_of (st : State) (x : nat) : list Listener :=
  filter (fun e => target e =? x) (listeners st).

(** [clearTimeout(t)]; [clearTimeout(undefined)] does nothing. *)
Definition clearTimeout (st : State) (t : option nat) : State :=
  match t with
  | None => st
  | Some id => set_timers st (filter (fun e => negb (tid e =? id)) (timers st))
  end.

(** [setTimeout(callback of s, ms)] *)
Definition setTimeout (st : State) (s : nat) (ms : Z) : State * nat :=
  (bump (set_timers st (timers st ++ [mkTimer (next_id st) s ms])),
   next_id st).

(** ** AbortControllerPlus.abort, the abort listeners, and event dispatch *)

(** [reason ?? new AbortError()] *)
Definition default_reason (st : State) (r : value) : State * value :=
  if nullish r then new_AbortError st else (st, r).

(** The reason a native controller stores: the one given, or a DOMException
    named AbortError when it is [undefined]. *)
Definition native_default_reason (st : State) (r : value) : State * value :=
  match r with
  | VUndefined => new_AbortError st
  | _ => (st, r)
  end.

(** [AbortControllerPlus.abort(reason)] on the controller of signal [s]:
    [this._controller.abort(reason ?? new AbortError())].  The native
    [AbortController.abort] is the argument [native], so that the listeners
    below can call back into it. *)
Definition AbortControllerPlus_abort_via
    (native : State -> nat -> value -> option State)
    (st : State) (s : nat) (r : value) : option State :=
  let st0 := log st (CallControllerAbort s r) in
  let (st1, r1) := default_reason st0 r in
  native st1 (sp_signal (pluses st1 s)) r1.

(** [isTimeoutError(signal.reason) ? new TimeoutError() : signal.reason] *)
Definition translate (st : State) (r : value) : State * value :=
  if isTimeoutError r then new_TimeoutError st else (st, r).

(** The body of a listener, run when its signal fires. *)
Definition run_closure (fuel : nat)
    (native : State -> nat -> value -> option State)
    (st : State) (c : Closure) : option State :=
  match c with
  | CDoAbort p signal => _doAbort fuel st p (reason st signal)
  | CForward s signal =>
      let (st1, r) := translate st (reason st signal) in
      AbortControllerPlus_abort_via native st1 s r
  | CClearTimer s =>
      let st1 := clearTimeout st (_timer (pluses st s)) in
      Some (upd_plus st1 s (mkPlus (sp_signal (pluses st1 s)) None None))
  end.

(** Firing "abort": the listeners are taken from a copy of the list made when
    the dispatch starts; one that has been removed meanwhile is skipped, and a
    once-listener is removed just before it runs. *)
Fixpoint fire (run : State -> Closure -> option State)
    (snapshot : list Listener) (st : State) : option State :=
  match snapshot with
  | [] => Some st
  | l :: rest =>
      if registered st (lid l) then
        match run (log (remove_listener st (lid l)) (CallListener (lid l)))
                  (body l) with
        | Some st' => fire run rest st'
        | None => None
        end
      else fire run rest st
  end.

(** The native [AbortController.abort(reason)] for signal [x]: nothing if the
    signal is aborted already; else the reason is stored (a DOMException named
    AbortError if none is given) and "abort" fires. *)
Fixpoint native_abort (fuel : nat) (st : State) (x : nat) (r : value)
  : option State :=
  match fuel with
  | 0 => None
  | S fuel' =>
      if ns_aborted (natives st x) then Some st
      else
        let (st1, r1) := native_default_reason st r in
        let n := natives st1 x in
        let st2 := upd_native st1 x
                     (mkNative true r1 (own_aborted n) (own_reason n)) in
        fire (run_closure fuel' (native_abort fuel')) (listeners_of st2 x) st2
  end.

(** [x.dispatchEvent(new Event("abort"))] *)
Definition dispatchEvent (fuel : nat) (st : State) (x : nat) : option State :=
  match fuel with
  | 0 => None
  | S fuel' =>
      fire (run_closure fuel' (native_abort fuel')) (listeners_of st x) st
  end.

Definition AbortControllerPlus_abort (fuel : nat) (st : State) (s : nat)
    (r : value) : option State :=
  AbortControllerPlus_abort_via (native_abort fuel) st s r.

(** [new AbortController()]: a native controller; the result is its
    signal. *)
Definition new_AbortController (st : State) : State * nat :=
  (bump (upd_native st (next_id st) (mkNative false VUndefined None None)),
   next_id st).

(** [new AbortControllerPlus(controller)]: [controller ?? new
    AbortController()] is wrapped, and [new AbortSignalPlus(this)] is made for
    it; the result is that signal. *)
Definition AbortControllerPlus_constructor (st : State)
    (controller : option nat) : State * nat :=
  let (st1, x) := match controller with
                  | Some x => (st, x)
                  | None => new_AbortController st
                  end in
  (bump (upd_plus st1 (next_id st1) (mkPlus x None None)), next_id st1).

(** [new AbortControllerPlus()] *)
Definition new_AbortControllerPlus (st : State) : State * nat :=
  AbortControllerPlus_constructor st None.

(** ** AbortSignalPlus *)

Definition timeout (st : State) (this : nat) (milliseconds : Z)
  : State * nat :=
  let st1 := clearTimeout st (_timer (pluses st this)) in
  let st2 := upd_plus st1 this
               (mkPlus (sp_signal (pluses st1 this))
                       (_timer (pluses st1 this)) (Some milliseconds)) in
  let (st3, t) := setTimeout st2 this milliseconds in
  let st4 := upd_plus st3 this
               (mkPlus (sp_signal (pluses st3 this)) (Some t)
                       (_timeout (pluses st3 this))) in
  (addEventListener st4 (SPlus this) (CClearTimer this), this).

Definition hasTimeout (st : State) (this : nat) : bool :=
  match _timer (pluses st this) with
  | Some _ => true
  | None => false
  end.

(** The callback given to [setTimeout] by [timeout], run by the host when
    timer [t] elapses; a timer that is not armed never fires. *)
Definition fire_timer (fuel : nat) (st : State) (t : nat) : option State :=
  match find (fun e => tid e =? t) (timers st) with
  | None => Some st
  | Some e =>
      let st1 := set_timers st
                   (filter (fun e' => negb (tid e' =? t)) (timers st)) in
      let (st2, err) := new_TimeoutError st1 in
      match AbortControllerPlus_abort fuel st2 (owner e) err with
      | None => None
      | Some st3 =>
          Some (upd_plus st3 (owner e)
                  (mkPlus (sp_signal (pluses st3 (owner e))) None None))
      end
  end.

Definition _listen (fuel : nat) (st : State) (this : nat) (signal : SignalRef)
  : option (State * bool) :=
  if aborted st signal then
    let (st1, r) := translate st (reason st signal) in
    match AbortControllerPlus_abort fuel st1 this r with
    | Some st2 => Some (st2, true)
    | None => None
    end
  else Some (addEventListener st signal (CForward this signal), false).

Definition one (fuel : nat) (st : State) (this : nat) (signal : SignalRef)
  : option (State * nat) :=
  match _listen fuel st this signal with
  | Some (st', _) => Some (st', this)
  | None => None
  end.

Fixpoint any (fuel : nat) (st : State) (this : nat)
    (signals : list SignalRef) : option (State * nat) :=
  match signals with
  | [] => Some (st, this)
  | signal :: rest =>
      match _listen fuel st this signal with
      | None => None
      | Some (st', true) => Some (st', this)
      | Some (st', false) => any fuel st' this rest
      end
  end.

(** [AbortSignalPlus.from(signal)]; the static [one] makes its own
    controller. *)
Definition AbortSignalPlus_from (fuel : nat) (st : State) (signal : SignalRef)
  : option (State * nat) :=
  match signal with
  | SPlus s => Some (st, s)
  | SNative _ =>
      let (st1, s) := new_AbortControllerPlus st in
      one fuel st1 s signal
  end.

(** ** AbortablePromise *)

Definition listen (fuel : nat) (st : State) (this : nat) (signal : SignalRef)
  : option State :=
  let n := nodes st this in
  let st1 := upd_node st this
               (mkNode (_parent n) (_reject n) (_isSettled n) (Some signal)
                       (alreadyResolved n) (outcome n)) in
  if aborted st1 signal then _doAbort fuel st1 this (reason st1 signal)
  else Some (addEventListener st1 signal (CDoAbort this signal)).

(** What an executor does with its two capabilities while it runs. *)
Inductive ExecutorCall : Type :=
| ExecResolve (v : value)
| ExecReject (r : value).

(** [(value) => { thisResolve(value); this._isSettled = true; }] *)
Definition executor_resolve (st : State) (this : nat) (v : value) : State :=
  set_isSettled (promise_resolve st this v) this.

(** [(reason) => { thisReject(reason); this._isSettled = true; }] *)
Definition executor_reject (st : State) (this : nat) (r : value) : State :=
  set_isSettled (thisReject st this r) this.

Definition run_executor (st : State) (this : nat)
    (executor : list ExecutorCall) : State :=
  fold_left (fun s c =>
               match c with
               | ExecResolve v => executor_resolve s this v
               | ExecReject r => executor_reject s this r
               end)
            executor (log st (CallExecutor this)).

Definition constructor (fuel : nat) (st : State)
    (executor : list ExecutorCall) (signal : option SignalRef)
  : option (State * nat) :=
  let this := next_id st in
  let st1 := bump (upd_node st this
                     (mkNode this this false None false Pending)) in
  match
    match signal with
    | Some sg => listen fuel st1 this sg
    | None => Some st1
    end
  with
  | None => None
  | Some st2 => Some (run_executor st2 this executor, this)
  end.

(** The argument of [from]: an [AbortablePromise], or some other promise. *)
Inductive PromiseArg : Type :=
| IsAbortablePromise (p : nat)
| IsPromise.

(** [AbortablePromise.from(promise, signal)]; the executor
    [promise.then(resolve).catch(reject)] calls neither capability while it
    runs. *)
Definition from (fuel : nat) (st : State) (promise : PromiseArg)
    (signal : option SignalRef) : option (State * nat) :=
  match promise with
  | IsAbortablePromise p => Some (st, p)
  | IsPromise => constructor fuel st [] signal
  end.

(** [then], [catch] and [finally]: [super.then] (and the like) builds the new
    promise with this class's constructor and no signal, and its executor
    only keeps the capabilities. *)
Definition then_ (fuel : nat) (st : State) (this : nat)
  : option (State * nat) :=
  match constructor fuel st [] None with
  | None => None
  | Some (st1, newPromise) =>
      let n := nodes st1 newPromise in
      Some (upd_node st1 newPromise
              (mkNode this (_reject n) (_isSettled n) (_signal n)
                      (alreadyResolved n) (outcome n)),
            newPromise)
  end.

Inductive result : Type :=
| Ok (st : State)
| Throws (st : State) (error : string)
| Diverges.

Definition lift (o : option State) : result :=
  match o with
  | Some st => Ok st
  | None => Diverges
  end.

(** [Object.defineProperty(signal, "aborted", { value: v })] on a native
    signal: creates the own property, or, when it exists (not writable, not
    configurable), accepts only the value it has. *)
Definition defineProperty_aborted (n : NativeSignal) (v : bool)
  : option NativeSignal :=
  match own_aborted n with
  | None => Some (mkNative (ns_aborted n) (ns_reason n) (Some v) (own_reason n))
  | Some b => if Bool.eqb b v then Some n else None
  end.

(** [Object.defineProperty(signal, "reason", { value: v })] *)
Definition defineProperty_reason (n : NativeSignal) (v : value)
  : option NativeSignal :=
  match own_reason n with
  | None => Some (mkNative (ns_aborted n) (ns_reason n) (own_aborted n) (Some v))
  | Some v0 => if SameValue v v0 then Some n else None
  end.

Definition abort (fuel : nat) (st : State) (this : nat) (r : value)
  : result :=
  let (st1, r1) := default_reason st r in
  match _doAbort fuel st1 this r1 with
  | None => Diverges
  | Some st2 =>
      match _signal (nodes st2 this) with
      | Some (SPlus s) => lift (AbortControllerPlus_abort fuel st2 s r1)
      | Some (SNative x) =>
          match defineProperty_aborted (natives st2 x) true with
          | None => Throws st2 "TypeError"
          | Some n1 =>
              match defineProperty_reason n1 r1 with
              | None => Throws (upd_native st2 x n1) "TypeError"
              | Some n2 => lift (dispatchEvent fuel (upd_native st2 x n2) x)
              end
          end
      | None => Ok st2
      end
  end.

(** ** The API as a transition system *)

(** What user code and the host can do to a store. *)
Inductive Op : Type :=
| OpNewAbortController
    (* new AbortController() *)
| OpNewAbortControllerPlus (controller : option nat)
    (* new AbortControllerPlus(controller?) *)
| OpControllerAbort (s : nat) (r : value)
    (* abort(r) on the AbortControllerPlus of signal s *)
| OpNativeAbort (x : nat) (r : value)
    (* abort(r) on the native controller of signal x *)
| OpTimeout (s : nat) (milliseconds : Z)
| OpTimerFires (t : nat)
| OpOne (s : nat) (signal : SignalRef)
| OpAny (s : nat) (signals : list SignalRef)
| OpSignalFrom (signal : SignalRef)
| OpConstructor (executor : list ExecutorCall) (signal : option SignalRef)
| OpFrom (promise : PromiseArg) (signal : option SignalRef)
| OpThen (p : nat)
| OpListen (p : nat) (signal : SignalRef)
| OpAbort (p : nat) (r : value)
| OpResolve (p : nat) (v : value)
    (* the resolve capability given to the executor of p, called later *)
| OpReject (p : nat) (r : value).
    (* the reject capability given to the executor of p, called later *)

Definition result_state (res : result) : option State :=
  match res with
  | Ok st | Throws st _ => Some st
  | Diverges => None
  end.

Definition step (fuel : nat) (st : State) (op : Op) : option State :=
  match op with
  | OpNewAbortController => Some (fst (new_AbortController st))
  | OpNewAbortControllerPlus c => Some (fst (AbortControllerPlus_constructor st c))
  | OpControllerAbort s r => AbortControllerPlus_abort fuel st s r
  | OpNativeAbort x r => native_abort fuel st x r
  | OpTimeout s ms => Some (fst (timeout st s ms))
  | OpTimerFires t => fire_timer fuel st t
  | OpOne s signal => option_map fst (one fuel st s signal)
  | OpAny s signals => option_map fst (any fuel st s signals)
  | OpSignalFrom signal => option_map fst (AbortSignalPlus_from fuel st signal)
  | OpConstructor executor signal =>
      option_map fst (constructor fuel st executor signal)
  | OpFrom promise signal => option_map fst (from fuel st promise signal)
  | OpThen p => option_map fst (then_ fuel st p)
  | OpListen p signal => listen fuel st p signal
  | OpAbort p r => result_state (abort fuel st p r)
  | OpResolve p v => Some (executor_resolve st p v)
  | OpReject p r => Some (executor_reject st p r)
  end.

(** An operation is applied to objects that exist. *)
Definition exists_signal (st : State) (signal : SignalRef) : Prop :=
  match signal with
  | SPlus s => s < next_id st
  | SNative x => x < next_id st
  end.

Definition valid (st : State) (op : Op) : Prop :=
  match op with
  | OpNewAbortController => True
  | OpNewAbortControllerPlus None => True
  | OpNewAbortControllerPlus (Some x) => x < next_id st
  | OpControllerAbort s _ => s < next_id st
  | OpNativeAbort x _ => x < next_id st
  | OpTimeout s _ => s < next_id st
  | OpTimerFires _ => True
  | OpOne s signal => s < next_id st /\ exists_signal st signal
  | OpAny s signals => s < next_id st /\ Forall (exists_signal st) signals
  | OpSignalFrom signal => exists_signal st signal
  | OpConstructor _ None => True
  | OpConstructor _ (Some signal) => exists_signal st signal
  | OpFrom promise signal =>
      match promise with
      | IsAbortablePromise p => p < next_id st
      | IsPromise => True
      end /\
      match signal with
      | Some sg => exists_signal st sg
      | None => True
      end
  | OpThen p => p < next_id st
  | OpListen p signal => p < next_id st /\ exists_signal st signal
  | OpAbort p _ => p < next_id st
  | OpResolve p _ => p < next_id st
  | OpReject p _ => p < next_id st
  end.

(** The stores a program can be in. *)
Inductive reachable : State -> Prop :=
| reach_init : reachable init
| reach_step st fuel op st' :
    reachable st -> valid st op -> step fuel st op = Some st' ->
    reachable st'.

(** The store after a list of operations; one that does not return leaves
    the store as it was. *)
Definition run (fuel : nat) (ops : list Op) (st : State) : State :=
  fold_left (fun s op => match step fuel s op with
                         | Some s' => s'
                         | None => s
                         end) ops st.

Fixpoint valid_all (fuel : nat) (st : State) (ops : list Op) : Prop :=
  match ops with
  | [] => True
  | op :: rest =>
      valid st op /\
      valid_all fuel (match step fuel st op with
                      | Some s' => s'
                      | None => st
                      end) rest
  end.

(** * Properties *)

(** ** Stores *)

Lemma upd_same (A : Type) (f : nat -> A) (k : nat) (v : A) :
  upd f k v k = v.
Proof. unfold upd. now rewrite Nat.eqb_refl. Qed.

Lemma upd_other (A : Type) (f : nat -> A) (k i : nat) (v : A) :
  i <> k -> upd f k v i = f i.
Proof.
  intro H. unfold upd. destruct (Nat.eqb_spec i k); [contradiction | reflexivity].
Qed.

Lemma registered_In (st : State) (i : nat) :
  registered st i = true <-> exists l, In l (listeners st) /\ lid l = i.
Proof.
  unfold registered. rewrite existsb_exists. split.
  - intros [l [Hin Heq]]. exists l. split; [assumption | now apply Nat.eqb_eq].
  - intros [l [Hin Heq]]. exists l. split; [assumption | now apply Nat.eqb_eq].
Qed.

Lemma filter_length_lt (A : Type) (f : A -> bool) (l : list A) (a : A) :
  In a l -> f a = false -> List.length (filter f l) < List.length l.
Proof.
  induction l as [|b l IH]; simpl; [contradiction|].
  intros [Heq | Hin] Hf.
  - subst b. rewrite Hf. pose proof (filter_length_le f l). lia.
  - specialize (IH Hin Hf). destruct (f b); simpl; lia.
Qed.

Lemma remove_listener_length (st : State) (i : nat) :
  registered st i = true ->
  List.length (listeners (remove_listener st i)) < List.length (listeners st).
Proof.
  intro H. apply registered_In in H. destruct H as [l [Hin Heq]].
  simpl. apply filter_length_lt with (a := l); [assumption|].
  rewrite Heq, Nat.eqb_refl. reflexivity.
Qed.

(** ** Timers of a signal *)

(** The armed timers that belong to signal [s]. *)
Definition armed_of (st : State) (s : nat) : list Timer :=
  filter (fun e => owner e =? s) (timers st).

(** At most one timer is armed for a signal, and it is the one the signal
    remembers in [_timer]. *)
Definition tinv (st : State) : Prop :=
  forall s, match armed_of st s with
            | [] => True
            | [e] => _timer (pluses st s) = Some (tid e)
            | _ => False
            end.

Lemma filter_swap (A : Type) (f g : A -> bool) (l : list A) :
  filter f (filter g l) = filter g (filter f l).
Proof.
  induction l as [|a l IH]; simpl; [reflexivity|].
  destruct (f a) eqn:Ef, (g a) eqn:Eg; simpl; rewrite ?Ef, ?Eg, IH; reflexivity.
Qed.

Lemma NoDup_map_filter (A B : Type) (f : A -> B) (g : A -> bool) (l : list A) :
  NoDup (map f l) -> NoDup (map f (filter g l)).
Proof.
  induction l as [|a l IH]; simpl; intro H; [constructor|].
  inversion H as [|? ? Hnot Hrest]; subst.
  destruct (g a); simpl; [|now apply IH].
  constructor; [|now apply IH].
  intro Hin. apply Hnot. apply in_map_iff in Hin.
  destruct Hin as [x [Hx Hin]]. apply filter_In in Hin.
  apply in_map_iff. exists x. tauto.
Qed.

(** ** What a dispatch can and cannot change *)

(** [evolves st st']: [st'] comes from [st] by rejecting promises, firing
    signals, running and removing listeners, clearing timers and allocating.
    The links and flags of the promises, the wiring of the signals and the
    properties forced onto native signals stay; a promise that was resolved
    and a signal that had fired stay as they were; a listener leaves the
    registry only by being called. *)
Record evolves (st st' : State) : Prop := mkEvolves {
  ev_parent : forall n, _parent (nodes st' n) = _parent (nodes st n);
  ev_reject : forall n, _reject (nodes st' n) = _reject (nodes st n);
  ev_isSettled : forall n, _isSettled (nodes st' n) = _isSettled (nodes st n);
  ev_signal : forall n, _signal (nodes st' n) = _signal (nodes st n);
  ev_resolved : forall n,
      alreadyResolved (nodes st n) = true -> nodes st' n = nodes st n;
  ev_listeners : forall l, In l (listeners st') -> In l (listeners st);
  ev_length : List.length (listeners st') <= List.length (listeners st);
  ev_nodup : NoDup (map lid (listeners st)) ->
             NoDup (map lid (listeners st'));
  ev_timers : forall t, In t (timers st') -> In t (timers st);
  ev_tinv : tinv st -> tinv st';
  ev_calls : exists d,
      calls st' = calls st ++ d /\
      forall i, registered st i = true -> registered st' i = false ->
                In (CallListener i) d;
  ev_next : next_id st <= next_id st';
  ev_sp : forall s, sp_signal (pluses st' s) = sp_signal (pluses st s);
  ev_timer_none : forall s,
      _timer (pluses st s) = None -> _timer (pluses st' s) = None;
  ev_own_aborted : forall x,
      own_aborted (natives st' x) = own_aborted (natives st x);
  ev_own_reason : forall x,
      own_reason (natives st' x) = own_reason (natives st x);
  ev_fired : forall x,
      ns_aborted (natives st x) = true -> natives st' x = natives st x
}.

Lemma evolves_refl (st : State) : evolves st st.
Proof.
  constructor; intros; auto. exists []. split; [now rewrite app_nil_r|].
  intros i H1 H2. congruence.
Qed.

Lemma evolves_trans (a b c : State) :
  evolves a b -> evolves b c -> evolves a c.
Proof.
  intros [] []. constructor; intros.
  - now rewrite ev_parent1, ev_parent0.
  - now rewrite ev_reject1, ev_reject0.
  - now rewrite ev_isSettled1, ev_isSettled0.
  - now rewrite ev_signal1, ev_signal0.
  - rewrite ev_resolved1; [now apply ev_resolved0|].
    rewrite ev_resolved0; assumption.
  - auto.
  - lia.
  - auto.
  - auto.
  - auto.
  - destruct ev_calls0 as [d0 [H0 L0]], ev_calls1 as [d1 [H1 L1]].
    exists (d0 ++ d1). split; [now rewrite H1, H0, app_assoc|].
    intros i Ha Hc. apply in_or_app.
    destruct (registered b i) eqn:Eb; [right | left]; auto.
  - lia.
  - now rewrite ev_sp1, ev_sp0.
  - auto.
  - now rewrite ev_own_aborted1, ev_own_aborted0.
  - now rewrite ev_own_reason1, ev_own_reason0.
  - rewrite ev_fired1; [now apply ev_fired0|].
    rewrite ev_fired0; assumption.
Qed.

Ltac ev_calls_same :=
  eexists; split;
  [ try reflexivity; symmetry; apply app_nil_r
  | unfold registered; simpl; intros; congruence ].

Ltac ev_basic :=
  constructor; unfold tinv, armed_of; simpl; intros; auto;
  try ev_calls_same;
  try match goal with
      | H : forall s : nat, match filter _ _ with _ => _ end |- _ => apply H
      end.

Lemma evolves_log (st : State) (c : Call) : evolves st (log st c).
Proof. ev_basic. Qed.

Lemma evolves_bump (st : State) : evolves st (bump st).
Proof. ev_basic. Qed.

Lemma evolves_promise_reject (st : State) (p : nat) (r : value) :
  evolves st (promise_reject st p r).
Proof.
  unfold promise_reject.
  destruct (alreadyResolved (nodes st p)) eqn:E; [apply evolves_refl|].
  ev_basic; unfold upd; destruct (Nat.eqb_spec n p); subst; simpl; auto.
  congruence.
Qed.

Lemma evolves_thisReject (st : State) (p : nat) (r : value) :
  evolves st (thisReject st p r).
Proof.
  unfold thisReject.
  eapply evolves_trans; [apply evolves_log | apply evolves_promise_reject].
Qed.

(** A listener is removed and its call recorded. *)
Lemma evolves_remove_log (st : State) (i : nat) :
  evolves st (log (remove_listener st i) (CallListener i)).
Proof.
  ev_basic.
  - apply filter_In in H. tauto.
  - apply filter_length_le.
  - now apply NoDup_map_filter.
  - exists [CallListener i]. split; [reflexivity|].
    intros j Hj Hj'. simpl. left. f_equal.
    destruct (Nat.eq_dec i j) as [|Hne]; [assumption | exfalso].
    apply registered_In in Hj. destruct Hj as [l [Hin Hl]].
    assert (Hr : registered (remove_listener st i) j = true).
    { apply registered_In. exists l. split; [|assumption].
      simpl. apply filter_In. split; [assumption|].
      apply negb_true_iff, Nat.eqb_neq. congruence. }
    unfold registered in *. simpl in *. congruence.
Qed.

(** The body of the listener that [timeout] registers. *)
Lemma evolves_clear_timer (st : State) (s : nat) :
  let st1 := clearTimeout st (_timer (pluses st s)) in
  evolves st (upd_plus st1 s (mkPlus (sp_signal (pluses st1 s)) None None)).
Proof.
  simpl. destruct (_timer (pluses st s)) as [t|] eqn:Et; simpl;
    constructor; simpl; intros; auto; try ev_calls_same;
    try (unfold upd; destruct (Nat.eqb_spec s0 s); subst; simpl; now auto).
  - apply filter_In in H. tauto.
  - intro s'. specialize (H s'). unfold armed_of in *. simpl.
    rewrite filter_swap. unfold upd.
    destruct (filter (fun e => owner e =? s') (timers st))
      as [|e [|e' l]]; simpl; auto; [|contradiction].
    destruct (Nat.eqb_spec s' s) as [->|Hne]; simpl.
    + rewrite Et in H. injection H as ->. now rewrite Nat.eqb_refl.
    + destruct (negb (tid e =? t)); auto.
  - intro s'. specialize (H s'). unfold armed_of in *. simpl. unfold upd.
    destruct (filter (fun e => owner e =? s') (timers st))
      as [|e [|e' l]]; simpl; auto.
    destruct (Nat.eqb_spec s' s) as [->|Hne]; simpl; [congruence | exact H].
Qed.

Lemma evolves_mark_aborted (st : State) (x : nat) (r : value) :
  ns_aborted (natives st x) = false ->
  evolves st (upd_native st x
                (mkNative true r (own_aborted (natives st x))
                          (own_reason (natives st x)))).
Proof.
  intro H.
  ev_basic; unfold upd; destruct (Nat.eqb_spec x0 x); subst; simpl; auto.
  congruence.
Qed.

(** Allocating an error object changes the allocation counter only. *)
Definition same_but_next (st st1 : State) : Prop :=
  nodes st1 = nodes st /\ natives st1 = natives st /\
  pluses st1 = pluses st /\ listeners st1 = listeners st /\
  timers st1 = timers st /\ calls st1 = calls st /\
  (next_id st1 = next_id st \/ next_id st1 = S (next_id st)).

Lemma same_but_next_evolves (st st1 : State) :
  same_but_next st st1 -> evolves st st1.
Proof.
  intros (Hn & Hx & Hp & Hl & Ht & Hc & Hi).
  constructor; unfold tinv, armed_of, registered; intros;
    rewrite ?Hn, ?Hx, ?Hp, ?Hl, ?Ht, ?Hc in *; auto;
    try (exists []; split; [now rewrite app_nil_r | intros; congruence]);
    try (destruct Hi; lia).
  apply H.
Qed.

Lemma default_reason_same (st : State) (r : value) :
  same_but_next st (fst (default_reason st r)).
Proof.
  unfold default_reason, same_but_next.
  destruct (nullish r); simpl; repeat split; auto.
Qed.

Lemma native_default_reason_same (st : State) (r : value) :
  same_but_next st (fst (native_default_reason st r)).
Proof.
  unfold same_but_next. destruct r; simpl; repeat split; auto.
Qed.

Lemma translate_same (st : State) (r : value) :
  same_but_next st (fst (translate st r)).
Proof.
  unfold translate, same_but_next.
  destruct (isTimeoutError r); simpl; repeat split; auto.
Qed.

Lemma evolves_translate (st : State) (r : value) :
  evolves st (fst (translate st r)).
Proof.
  unfold translate. destruct (isTimeoutError r); simpl;
    [apply evolves_bump | apply evolves_refl].
Qed.

Lemma evolves_doAbort (fuel : nat) (st st' : State) (p : nat) (r : value) :
  _doAbort fuel st p r = Some st' -> evolves st st'.
Proof.
  unfold _doAbort. destruct (walk fuel st p); [|discriminate].
  intro H. injection H as <-. apply evolves_thisReject.
Qed.

Section Dispatch.

Variable native : State -> nat -> value -> option State.
Hypothesis native_evolves :
  forall st x r st', native st x r = Some st' -> evolves st st'.

Lemma evolves_controller_abort_via (st st' : State) (s : nat) (r : value) :
  AbortControllerPlus_abort_via native st s r = Some st' -> evolves st st'.
Proof.
  unfold AbortControllerPlus_abort_via.
  pose proof (default_reason_same (log st (CallControllerAbort s r)) r) as Hd.
  destruct (default_reason (log st (CallControllerAbort s r)) r)
    as [st1 r1]. simpl in Hd.
  intro H. apply native_evolves in H.
  eapply evolves_trans; [apply evolves_log|].
  eapply evolves_trans; [apply same_but_next_evolves; exact Hd | exact H].
Qed.

Lemma evolves_run_closure (fuel : nat) (st st' : State) (c : Closure) :
  run_closure fuel native st c = Some st' -> evolves st st'.
Proof.
  destruct c as [p sg | s sg | s]; simpl.
  - apply evolves_doAbort.
  - pose proof (evolves_translate st (reason st sg)) as Ht.
    destruct (translate st (reason st sg)) as [st1 r1]. simpl in Ht.
    intro H. apply evolves_controller_abort_via in H.
    eapply evolves_trans; eassumption.
  - intro H. injection H as <-. apply evolves_clear_timer.
Qed.

Lemma evolves_fire (fuel : nat) (snapshot : list Listener) :
  forall st st',
    fire (run_closure fuel native) snapshot st = Some st' -> evolves st st'.
Proof.
  induction snapshot as [|l rest IH]; simpl; intros st st' H.
  - injection H as <-. apply evolves_refl.
  - destruct (registered st (lid l)); [|now apply IH].
    destruct (run_closure fuel native
                (log (remove_listener st (lid l)) (CallListener (lid l)))
                (body l)) as [st1|] eqn:E; [|discriminate].
    apply evolves_run_closure in E. apply IH in H.
    eapply evolves_trans; [apply evolves_remove_log|].
    eapply evolves_trans; eassumption.
Qed.

End Dispatch.

Lemma native_abort_evolves (fuel : nat) :
  forall st x r st', native_abort fuel st x r = Some st' -> evolves st st'.
Proof.
  induction fuel as [|fuel IH]; simpl; intros st x r st' H; [discriminate|].
  destruct (ns_aborted (natives st x)) eqn:Ea.
  - injection H as <-. apply evolves_refl.
  - pose proof (native_default_reason_same st r) as Hd.
    destruct (native_default_reason st r) as [st1 r1]. simpl in Hd.
    apply evolves_fire in H; [|exact IH].
    eapply evolves_trans; [apply same_but_next_evolves; exact Hd|].
    eapply evolves_trans; [|exact H].
    apply evolves_mark_aborted.
    destruct Hd as (_ & Hx & _). now rewrite Hx.
Qed.

Lemma dispatchEvent_evolves (fuel : nat) (st st' : State) (x : nat) :
  dispatchEvent fuel st x = Some st' -> evolves st st'.
Proof.
  destruct fuel as [|fuel]; simpl; [discriminate|].
  apply evolves_fire. apply native_abort_evolves.
Qed.

Lemma controller_abort_evolves (fuel : nat) (st st' : State) (s : nat)
    (r : value) :
  AbortControllerPlus_abort fuel st s r = Some st' -> evolves st st'.
Proof.
  apply evolves_controller_abort_via. apply native_abort_evolves.
Qed.

(** ** The chain-walk *)

(** The chain-walk as the specification words it: from a node, move to the
    parent while the node is not its own parent and the parent's settled flag
    is false; stop at the first node that is its own parent, or whose parent
    is settled. *)
Inductive chain_walk (st : State) : nat -> nat -> Prop :=
| cw_root n :
    _parent (nodes st n) = n -> chain_walk st n n
| cw_parent_settled n :
    _parent (nodes st n) <> n ->
    _isSettled (nodes st (_parent (nodes st n))) = true ->
    chain_walk st n n
| cw_up n t :
    _parent (nodes st n) <> n ->
    _isSettled (nodes st (_parent (nodes st n))) = false ->
    chain_walk st (_parent (nodes st n)) t ->
    chain_walk st n t.

(** Parents are older than their children, and the reject capability a
    promise holds is its own: what the constructor and [then] establish. *)
Definition wf_nodes (st : State) : Prop :=
  forall n, _parent (nodes st n) <= n /\ _reject (nodes st n) = n.

Lemma walk_chain_walk (fuel : nat) (st : State) :
  forall n t, walk fuel st n = Some t -> chain_walk st n t.
Proof.
  induction fuel as [|fuel IH]; simpl; intros n t H; [discriminate|].
  destruct (Nat.eqb_spec n (_parent (nodes st n))) as [E|E].
  - injection H as <-. now apply cw_root.
  - destruct (_isSettled (nodes st (_parent (nodes st n)))) eqn:Es.
    + injection H as <-. apply cw_parent_settled; congruence.
    + apply cw_up; [congruence | assumption | now apply IH].
Qed.

Lemma chain_walk_functional (st : State) (n t t' : nat) :
  chain_walk st n t -> chain_walk st n t' -> t = t'.
Proof.
  intro H. revert t'.
  induction H as [n E | n E Es | n t E Es H IH]; intros t' H';
    inversion H'; subst; try congruence.
  now apply IH.
Qed.

Lemma walk_terminates (st : State) :
  wf_nodes st ->
  forall fuel n, n < fuel -> exists t, walk fuel st n = Some t.
Proof.
  intros Hwf fuel. induction fuel as [|fuel IH]; intros n Hn; [lia|].
  simpl. destruct (Nat.eqb_spec n (_parent (nodes st n))) as [E|E];
    [eauto|].
  destruct (_isSettled (nodes st (_parent (nodes st n)))); [eauto|].
  apply IH. destruct (Hwf n) as [Hle _]. lia.
Qed.

Lemma walk_same_links (st st' : State) :
  (forall n, _parent (nodes st' n) = _parent (nodes st n)) ->
  (forall n, _isSettled (nodes st' n) = _isSettled (nodes st n)) ->
  forall fuel n, walk fuel st' n = walk fuel st n.
Proof.
  intros Hp Hs fuel. induction fuel as [|fuel IH]; intro n; simpl;
    [reflexivity|].
  rewrite Hp, Hs, IH. reflexivity.
Qed.

Lemma wf_nodes_evolves (st st' : State) :
  evolves st st' -> wf_nodes st -> wf_nodes st'.
Proof.
  intros Hev Hwf n. rewrite (ev_parent Hev), (ev_reject Hev). apply Hwf.
Qed.

Lemma doAbort_terminates (fuel : nat) (st : State) (p : nat) (r : value) :
  wf_nodes st -> p < fuel -> exists st', _doAbort fuel st p r = Some st'.
Proof.
  intros Hwf Hp. unfold _doAbort.
  destruct (walk_terminates Hwf Hp) as [t Ht]. rewrite Ht. eauto.
Qed.

(** ** Termination of a dispatch *)

(** Every promise a listener will abort has a number below [B]. *)
Definition listeners_bounded (B : nat) (st : State) : Prop :=
  forall l p sg, In l (listeners st) -> body l = CDoAbort p sg -> p < B.

Lemma listeners_bounded_evolves (B : nat) (st st' : State) :
  evolves st st' -> listeners_bounded B st -> listeners_bounded B st'.
Proof.
  intros Hev Hb l p sg Hin. apply Hb. now apply (ev_listeners Hev).
Qed.

Section Termination.

Variable B : nat.
Variable fuel : nat.
Variable native : State -> nat -> value -> option State.
Hypothesis native_evolves :
  forall st x r st', native st x r = Some st' -> evolves st st'.
Hypothesis native_terminates :
  forall st x r,
    wf_nodes st -> listeners_bounded B st ->
    B + List.length (listeners st) < fuel ->
    exists st', native st x r = Some st'.

Lemma controller_abort_via_terminates (st : State) (s : nat) (r : value) :
  wf_nodes st -> listeners_bounded B st ->
  B + List.length (listeners st) < fuel ->
  exists st', AbortControllerPlus_abort_via native st s r = Some st'.
Proof.
  intros Hwf Hb Hf. unfold AbortControllerPlus_abort_via.
  pose proof (default_reason_same (log st (CallControllerAbort s r)) r) as Hd.
  destruct (default_reason (log st (CallControllerAbort s r)) r)
    as [st1 r1]. simpl in Hd.
  assert (Hev : evolves st st1).
  { eapply evolves_trans; [apply evolves_log|].
    apply same_but_next_evolves; exact Hd. }
  apply native_terminates.
  - eapply wf_nodes_evolves; eassumption.
  - eapply listeners_bounded_evolves; eassumption.
  - pose proof (ev_length Hev). lia.
Qed.

Lemma run_closure_terminates (st : State) (l : Listener) :
  wf_nodes st -> listeners_bounded B st ->
  (forall p sg, body l = CDoAbort p sg -> p < B) ->
  B + List.length (listeners (remove_listener st (lid l))) < fuel ->
  exists st',
    run_closure fuel native
      (log (remove_listener st (lid l)) (CallListener (lid l))) (body l)
    = Some st'.
Proof.
  intros Hwf Hb Hl Hf. destruct (body l) as [p sg | s sg | s] eqn:Eb; simpl.
  - apply doAbort_terminates; [exact Hwf|].
    specialize (Hl p sg eq_refl). lia.
  - set (st0 := log (remove_listener st (lid l)) (CallListener (lid l))).
    pose proof (evolves_translate st0 (reason st0 sg)) as Ht.
    destruct (translate st0 (reason st0 sg)) as [st1 r1]. simpl in Ht.
    assert (Hev : evolves st st1).
    { eapply evolves_trans; [apply evolves_remove_log | exact Ht]. }
    apply controller_abort_via_terminates.
    + eapply wf_nodes_evolves; eassumption.
    + eapply listeners_bounded_evolves; eassumption.
    + pose proof (ev_length Ht) as Hlen. simpl in Hlen. simpl in Hf. lia.
  - eauto.
Qed.

Lemma fire_terminates (snapshot : list Listener) :
  forall st,
    wf_nodes st -> listeners_bounded B st ->
    (forall l p sg, In l snapshot -> body l = CDoAbort p sg -> p < B) ->
    B + List.length (listeners st) <= fuel ->
    exists st', fire (run_closure fuel native) snapshot st = Some st'.
Proof.
  induction snapshot as [|l rest IH]; simpl; intros st Hwf Hb Hsn Hf;
    [eauto|].
  destruct (registered st (lid l)) eqn:Er.
  - pose proof (remove_listener_length st (lid l) Er) as Hlt.
    destruct (@run_closure_terminates st l) as [st1 E1]; try assumption;
      [intros p sg; apply Hsn; auto | lia |].
    rewrite E1.
    assert (Hev : evolves st st1).
    { eapply evolves_trans; [apply evolves_remove_log|].
      eapply evolves_run_closure; eassumption. }
    apply IH.
    + eapply wf_nodes_evolves; eassumption.
    + eapply listeners_bounded_evolves; eassumption.
    + intros l' p sg Hl'. apply Hsn. auto.
    + pose proof (ev_length Hev). lia.
  - apply IH; auto. intros l' p sg Hl'. apply Hsn. auto.
Qed.

End Termination.

Lemma listeners_of_In (st : State) (x : nat) (l : Listener) :
  In l (listeners_of st x) <-> In l (listeners st) /\ target l = x.
Proof.
  unfold listeners_of. rewrite filter_In, Nat.eqb_eq. reflexivity.
Qed.

Lemma native_abort_terminates (B fuel : nat) :
  forall st x r,
    wf_nodes st -> listeners_bounded B st ->
    B + List.length (listeners st) < fuel ->
    exists st', native_abort fuel st x r = Some st'.
Proof.
  induction fuel as [|fuel IH]; intros st x r Hwf Hb Hf; [lia|].
  simpl. destruct (ns_aborted (natives st x)) eqn:Ea; [eauto|].
  pose proof (native_default_reason_same st r) as Hd.
  destruct (native_default_reason st r) as [st1 r1]. simpl in Hd.
  set (st2 := upd_native st1 x _).
  assert (Hev2 : evolves st st2).
  { eapply evolves_trans; [apply same_but_next_evolves; exact Hd|].
    apply evolves_mark_aborted.
    destruct Hd as (_ & Hx & _). now rewrite Hx. }
  apply fire_terminates with (B := B).
  - apply native_abort_evolves.
  - exact IH.
  - eapply wf_nodes_evolves; eassumption.
  - eapply listeners_bounded_evolves; eassumption.
  - intros l p sg Hin. apply listeners_of_In in Hin. destruct Hin as [Hin _].
    eapply listeners_bounded_evolves; eassumption.
  - pose proof (ev_length Hev2). lia.
Qed.



(** ** Well-formed stores and enough fuel *)

(** What every store built through the API satisfies: parents are older than
    children, and listeners only abort promises that exist. *)
Definition wf (st : State) : Prop :=
  wf_nodes st /\ listeners_bounded (next_id st) st.

(** Enough fuel for one walk from any existing promise and for running every
    registered listener. *)
Definition enough (st : State) (fuel : nat) : Prop :=
  next_id st + List.length (listeners st) < fuel.

Lemma wf_evolves (st st' : State) : evolves st st' -> wf st -> wf st'.
Proof.
  intros Hev [Hn Hb]. split; [eapply wf_nodes_evolves; eassumption|].
  intros l p sg Hin Hbody. pose proof (ev_next Hev).
  specialize (Hb l p sg (ev_listeners Hev l Hin) Hbody). lia.
Qed.

Lemma enough_evolves (st st' : State) (fuel : nat) :
  evolves st st' ->
  next_id st' + List.length (listeners st) < fuel -> enough st' fuel.
Proof.
  intros Hev H. unfold enough. pose proof (ev_length Hev). lia.
Qed.

Lemma native_abort_total (fuel : nat) (st : State) (x : nat) (r : value) :
  wf st -> enough st fuel -> exists st', native_abort fuel st x r = Some st'.
Proof.
  intros [Hn Hb] He. now apply native_abort_terminates with (B := next_id st).
Qed.

Lemma same_but_next_wf (st st1 : State) :
  same_but_next st st1 -> wf st -> wf st1.
Proof. intro H. apply wf_evolves. now apply same_but_next_evolves. Qed.

Lemma controller_abort_total (fuel : nat) (st : State) (s : nat) (r : value) :
  wf st -> S (next_id st) + List.length (listeners st) < fuel ->
  exists st', AbortControllerPlus_abort fuel st s r = Some st'.
Proof.
  intros Hwf He. unfold AbortControllerPlus_abort, AbortControllerPlus_abort_via.
  pose proof (default_reason_same (log st (CallControllerAbort s r)) r) as Hd.
  destruct (default_reason (log st (CallControllerAbort s r)) r) as [st1 r1].
  simpl in Hd. apply native_abort_total.
  - eapply same_but_next_wf; [exact Hd|].
    eapply wf_evolves; [apply evolves_log | exact Hwf].
  - destruct Hd as (_ & _ & _ & Hl & _ & _ & Hi). unfold enough.
    rewrite Hl. simpl in *. destruct Hi as [Hi | Hi]; rewrite Hi; lia.
Qed.

Lemma dispatchEvent_total (fuel : nat) (st : State) (x : nat) :
  wf st -> enough st fuel -> exists st', dispatchEvent fuel st x = Some st'.
Proof.
  intros [Hn Hb] He. unfold enough in He.
  destruct fuel as [|fuel]; [lia|]. simpl.
  apply fire_terminates with (B := next_id st); auto.
  - apply native_abort_evolves.
  - intros st0 x0 r0. apply native_abort_terminates.
  - intros l p sg Hin. apply listeners_of_In in Hin. destruct Hin as [Hin _].
    now apply Hb.
  - lia.
Qed.

(** ** Observing calls *)

(** The calls made between two states. *)
Definition new_calls (st st' : State) : list Call :=
  skipn (List.length (calls st)) (calls st').

Definition is_reject_call (c : Call) : bool :=
  match c with
  | CallReject _ _ => true
  | _ => false
  end.

(** The calls of reject capabilities made between two states. *)
Definition rejects_made (st st' : State) : list Call :=
  filter is_reject_call (new_calls st st').

Lemma new_calls_app (st st' : State) (d : list Call) :
  calls st' = calls st ++ d -> new_calls st st' = d.
Proof.
  intro H. unfold new_calls. rewrite H.
  rewrite skipn_app, skipn_all, Nat.sub_diag. reflexivity.
Qed.

(** ** The chain-walk of [_doAbort] and [abort] *)

Lemma calls_thisReject (st : State) (p : nat) (r : value) :
  calls (thisReject st p r) = calls st ++ [CallReject p r].
Proof.
  unfold thisReject, promise_reject. simpl.
  destruct (alreadyResolved (nodes st p)); reflexivity.
Qed.

Lemma doAbort_target (fuel : nat) (st : State) (n : nat) (r : value) :
  wf_nodes st -> n < fuel ->
  exists t, walk fuel st n = Some t /\ chain_walk st n t /\
            _doAbort fuel st n r = Some (thisReject st t r).
Proof.
  intros Hwf Hn. destruct (walk_terminates Hwf Hn) as [t Ht].
  exists t. split; [exact Ht|]. split; [now apply walk_chain_walk with fuel|].
  unfold _doAbort, invoke_reject. rewrite Ht.
  destruct (Hwf t) as [_ Hr]. now rewrite Hr.
Qed.

Lemma same_but_next_walk (st st1 : State) (fuel n : nat) :
  same_but_next st st1 -> walk fuel st1 n = walk fuel st n.
Proof.
  intros (Hn & _). apply walk_same_links; intro; now rewrite Hn.
Qed.

Lemma same_but_next_chain_walk (st st1 : State) (n t : nat) :
  same_but_next st st1 -> chain_walk st1 n t -> chain_walk st n t.
Proof.
  intros (Hn & _) H.
  induction H as [m E | m E Es | m t E Es H IH]; rewrite Hn in *.
  - now apply cw_root.
  - now apply cw_parent_settled.
  - now apply cw_up.
Qed.

(** Two promises bound to one [AbortSignalPlus]: signal 1 on native signal 0,
    promises 2 and 4, their abort listeners 3 and 5. *)
Definition two_bound_promises : State :=
  let (st1, s) := new_AbortControllerPlus init in
  match constructor 10 st1 [] (Some (SPlus s)) with
  | Some (st2, _) =>
      match constructor 10 st2 [] (Some (SPlus s)) with
      | Some (st3, _) => st3
      | None => init
      end
  | None => init
  end.

(** C1 as it is stated: [abort(r)] on [n] makes one call of a reject
    capability, that of the chain-walk target, and no other. *)
Definition abort_rejects_once (fuel : nat) (st : State) (n : nat) (r : value)
  : Prop :=
  forall st', abort fuel st n r = Ok st' ->
              exists t, chain_walk st n t /\
                        rejects_made st st' = [CallReject t r].

(** C1, counterexample: with promises 2 and 4 bound to one signal,
    [abort("R")] on promise 4 calls the reject of 4, then, through the signal
    it fires, the reject of 2 and again the reject of 4. *)
Lemma abort_rejects_once_fails :
  ~ abort_rejects_once 20 two_bound_promises 4 (VString "R").
Proof.
  intro H.
  assert (E : exists st',
             abort 20 two_bound_promises 4 (VString "R") = Ok st' /\
             rejects_made two_bound_promises st'
             = [CallReject 4 (VString "R"); CallReject 2 (VString "R");
                CallReject 4 (VString "R")]).
  { vm_compute. eexists. split; reflexivity. }
  destruct E as [st' [E1 E2]].
  destruct (H st' E1) as [t [_ Hr]].
  rewrite E2 in Hr. discriminate Hr.
Qed.

(** C1, amended: [_doAbort(r)] on any node [n] ends, finds its target [t] by
    the chain-walk (the only node the walk of the specification relates to
    [n]) and makes exactly one call, the reject capability of [t] with [r].
    [abort(r)] starts with this [_doAbort] on [r ?? new AbortError()]: the
    reject of [t] is the first call it makes, and the only one when [n] has no
    bound signal; with a bound signal the abort listeners that [abort] then
    fires may call reject capabilities again. *)
Theorem doAbort_rejects_walk_target (fuel : nat) (st : State) (n : nat)
    (r : value) :
  wf_nodes st -> n < fuel ->
  exists t,
    chain_walk st n t /\
    (forall t', chain_walk st n t' -> t' = t) /\
    _doAbort fuel st n r = Some (thisReject st t r) /\
    calls (thisReject st t r) = calls st ++ [CallReject t r] /\
    forall st1 r1,
      default_reason st r = (st1, r1) ->
      (_signal (nodes st n) = None ->
       abort fuel st n r = Ok (thisReject st1 t r1) /\
       rejects_made st (thisReject st1 t r1) = [CallReject t r1]) /\
      (forall res st',
          abort fuel st n r = res -> result_state res = Some st' ->
          exists d, calls st' = calls st ++ CallReject t r1 :: d).
Proof.
  intros Hwf Hn.
  destruct (doAbort_target r Hwf Hn) as [t (Hw & Hc & Hd)].
  exists t. split; [exact Hc|].
  split; [intros t' Ht'; eapply chain_walk_functional; eassumption|].
  split; [exact Hd|]. split; [apply calls_thisReject|].
  intros st1 r1 Hdef.
  pose proof (default_reason_same st r) as Hs. rewrite Hdef in Hs. simpl in Hs.
  assert (Hwf1 : wf_nodes st1).
  { eapply wf_nodes_evolves; [apply same_but_next_evolves|]; eassumption. }
  assert (Hd1 : _doAbort fuel st1 n r1 = Some (thisReject st1 t r1)).
  { unfold _doAbort, invoke_reject. rewrite (same_but_next_walk fuel n Hs), Hw.
    destruct (Hwf1 t) as [_ Hr]. now rewrite Hr. }
  assert (Hcalls : calls (thisReject st1 t r1) = calls st ++ [CallReject t r1]).
  { destruct Hs as (_ & _ & _ & _ & _ & Hcs & _).
    now rewrite calls_thisReject, Hcs. }
  assert (Hsig : _signal (nodes (thisReject st1 t r1) n) = _signal (nodes st n)).
  { rewrite (ev_signal (evolves_thisReject st1 t r1)).
    destruct Hs as (Hnodes & _). now rewrite Hnodes. }
  split.
  - intro Hnone. unfold abort. rewrite Hdef, Hd1, Hsig, Hnone.
    split; [reflexivity|].
    unfold rejects_made. rewrite (@new_calls_app st _ _ Hcalls). reflexivity.
  - intros res st' Hres Hst'. unfold abort in Hres.
    rewrite Hdef, Hd1, Hsig in Hres.
    destruct (_signal (nodes st n)) as [[s | x]|].
    + destruct (AbortControllerPlus_abort fuel (thisReject st1 t r1) s r1)
        as [st2|] eqn:E; subst res; simpl in Hst'; [|discriminate].
      injection Hst' as <-. apply controller_abort_evolves in E.
      destruct (ev_calls E) as [d [Hd' _]]. exists d.
      rewrite Hd', Hcalls, <- app_assoc. reflexivity.
    + destruct (defineProperty_aborted (natives (thisReject st1 t r1) x) true)
        as [n1|]; [|subst res; simpl in Hst'; injection Hst' as <-;
                    exists []; exact Hcalls].
      destruct (defineProperty_reason n1 r1) as [n2|];
        [|subst res; simpl in Hst'; injection Hst' as <-;
          exists []; exact Hcalls].
      destruct (dispatchEvent fuel (upd_native (thisReject st1 t r1) x n2) x)
        as [st2|] eqn:E; subst res; simpl in Hst'; [|discriminate].
      injection Hst' as <-. apply dispatchEvent_evolves in E.
      destruct (ev_calls E) as [d [Hd' _]]. exists d.
      rewrite Hd'. simpl. rewrite Hcalls, <- app_assoc. reflexivity.
    + subst res. simpl in Hst'. injection Hst' as <-. exists []. exact Hcalls.
Qed.

(** A chain [0 <- 1 <- 2] built by [then]; promise 0 has settled. *)
Definition settled_root_chain : State :=
  match constructor 5 init [ExecResolve (VNumber 500)] None with
  | Some (st1, p0) =>
      match then_ 5 st1 p0 with
      | Some (st2, p1) =>
          match then_ 5 st2 p1 with
          | Some (st3, _) => st3
          | None => init
          end
      | None => init
      end
  | None => init
  end.

Lemma settled_root_chain_wf : wf_nodes settled_root_chain.
Proof.
  intro n. destruct n as [|[|[|n]]]; simpl; split; lia.
Qed.

(** In that chain the walk from 2 stops at 1: its parent 0 is settled. *)
Example settled_root_chain_target :
  walk 3 settled_root_chain 2 = Some 1.
Proof. reflexivity. Qed.

(** ** [from] on what is already wrapped *)

(** C5: [AbortablePromise.from(x, signal?)] on an [AbortablePromise] [x]
    returns [x] itself and leaves the whole store as it was (no promise is
    made, nothing of [x] changes, the signal argument is not looked at), and
    [AbortSignalPlus.from] returns an [AbortSignalPlus] argument itself in an
    unchanged store. *)
Theorem from_is_identity_on_own_class (fuel : nat) (st : State) (x s : nat)
    (signal : option SignalRef) :
  from fuel st (IsAbortablePromise x) signal = Some (st, x) /\
  AbortSignalPlus_from fuel st (SPlus s) = Some (st, s).
Proof. split; reflexivity. Qed.

(** Any other promise is wrapped in a new root. *)
Example from_wraps_other_promise :
  match from 1 init IsPromise None with
  | Some (st', p) => p = 0 /\ next_id st' = 1
  | None => False
  end.
Proof. vm_compute. split; reflexivity. Qed.

(** ** What [abort] does to the promises *)

Lemma abort_nodes (fuel : nat) (st st' : State) (n : nat) (r : value) :
  result_state (abort fuel st n r) = Some st' ->
  (forall m, _isSettled (nodes st' m) = _isSettled (nodes st m)) /\
  (forall m, _parent (nodes st' m) = _parent (nodes st m)) /\
  (forall m, alreadyResolved (nodes st m) = true ->
             nodes st' m = nodes st m).
Proof.
  unfold abort.
  pose proof (default_reason_same st r) as Hs.
  destruct (default_reason st r) as [st1 r1]. simpl in Hs.
  destruct Hs as (Hnodes & _).
  destruct (_doAbort fuel st1 n r1) as [st2|] eqn:E2; [|discriminate].
  apply evolves_doAbort in E2.
  assert (Hgoal : forall st3, evolves st2 st3 ->
    (forall m, _isSettled (nodes st3 m) = _isSettled (nodes st m)) /\
    (forall m, _parent (nodes st3 m) = _parent (nodes st m)) /\
    (forall m, alreadyResolved (nodes st m) = true ->
               nodes st3 m = nodes st m)).
  { intros st3 H3. pose proof (evolves_trans E2 H3) as H.
    rewrite <- Hnodes. repeat split; intro m.
    - apply (ev_isSettled H).
    - apply (ev_parent H).
    - apply (ev_resolved H). }
  destruct (_signal (nodes st2 n)) as [[s | x]|]; simpl.
  - destruct (AbortControllerPlus_abort fuel st2 s r1) as [st3|] eqn:E3;
      simpl; [|discriminate].
    intro H. injection H as <-. apply Hgoal.
    eapply controller_abort_evolves; eassumption.
  - destruct (defineProperty_aborted (natives st2 x) true) as [n1|]; simpl.
    + destruct (defineProperty_reason n1 r1) as [n2|]; simpl.
      * destruct (dispatchEvent fuel (upd_native st2 x n2) x) as [st3|] eqn:E3;
          simpl; [|discriminate].
        intro H. injection H as <-. apply dispatchEvent_evolves in E3.
        destruct (Hgoal st2 (evolves_refl st2)) as (H1 & H2 & H3).
        repeat split; intro m.
        -- rewrite (ev_isSettled E3). apply H1.
        -- rewrite (ev_parent E3). apply H2.
        -- intro Hm. rewrite <- (H3 m Hm). apply (ev_resolved E3).
           simpl. now rewrite (H3 m Hm).
      * intro H. injection H as <-. apply (Hgoal st2 (evolves_refl st2)).
    + intro H. injection H as <-. apply Hgoal, evolves_refl.
  - intro H. injection H as <-. apply Hgoal, evolves_refl.
Qed.

(** C2, the code at a failing input: a new root promise is aborted; its
    underlying promise is rejected, and [_isSettled] is still false. *)
Lemma abort_rejects_but_isSettled_stays_false :
  match constructor 5 init [] None with
  | Some (st1, p) =>
      match abort 5 st1 p (VString "R") with
      | Ok st' =>
          outcome (nodes st' p) = Rejected (VString "R") /\
          _isSettled (nodes st' p) = false
      | _ => False
      end
  | None => False
  end.
Proof. vm_compute. split; reflexivity. Qed.

(** The flag left false misleads a later walk: promise 1 is [0.catch(...)],
    still pending after 0 was aborted; [abort] on 1 walks past it to the
    rejected root and rejects nothing. *)
Example abort_after_abort_misses_pending_child :
  match constructor 5 init [] None with
  | Some (st1, root) =>
      match then_ 5 st1 root with
      | Some (st2, child) =>
          match abort 5 st2 root (VString "R") with
          | Ok st3 =>
              walk 5 st3 child = Some root /\
              match abort 5 st3 child (VString "again") with
              | Ok st4 => outcome (nodes st4 child) = Pending
              | _ => False
              end
          | _ => False
          end
      | None => False
      end
  | None => False
  end.
Proof. vm_compute. split; reflexivity. Qed.

(** ** [abort] and exceptions *)

(** C9, the code at a failing input: a promise bound to a native
    [AbortSignal] is aborted twice with different reasons; the second
    [Object.defineProperty(signal, "reason", ...)] throws a TypeError out of
    [abort].  The same happens with no reason given, each call making its own
    AbortError. *)
Lemma abort_twice_with_native_signal_throws :
  let (st0, x) := new_AbortController init in
  match constructor 9 st0 [] (Some (SNative x)) with
  | Some (st1, p) =>
      match abort 9 st1 p (VString "a") with
      | Ok st2 =>
          match abort 9 st2 p (VString "b") with
          | Throws _ e => e = "TypeError"%string
          | _ => False
          end
      | _ => False
      end /\
      match abort 9 st1 p VUndefined with
      | Ok st2 =>
          match abort 9 st2 p VUndefined with
          | Throws _ e => e = "TypeError"%string
          | _ => False
          end
      | _ => False
      end
  | None => False
  end.
Proof. vm_compute. split; reflexivity. Qed.

(** Without a native signal bound, [abort] returns normally. *)
Lemma abort_returns_without_native_signal (fuel : nat) (st : State)
    (n : nat) (r : value) :
  wf st -> n < fuel ->
  S (S (next_id st)) + List.length (listeners st) < fuel ->
  (forall x, _signal (nodes st n) <> Some (SNative x)) ->
  exists st', abort fuel st n r = Ok st'.
Proof.
  intros Hwf Hn Hf Hsig. unfold abort.
  pose proof (default_reason_same st r) as Hs.
  destruct (default_reason st r) as [st1 r1]. simpl in Hs.
  pose proof (same_but_next_wf Hs Hwf) as Hwf1.
  destruct (doAbort_terminates r1 (proj1 Hwf1) Hn) as [st2 E2]. rewrite E2.
  pose proof (evolves_doAbort _ _ _ _ E2) as Hev.
  rewrite (ev_signal Hev).
  destruct Hs as (Hnodes & _ & _ & Hl & _ & _ & Hi). rewrite Hnodes.
  destruct (_signal (nodes st n)) as [[s | x]|] eqn:Es.
  - destruct (@controller_abort_total fuel st2 s r1) as [st3 E3].
    + eapply wf_evolves; eassumption.
    + unfold _doAbort in E2. destruct (walk fuel st1 n); [|discriminate].
      injection E2 as <-.
      assert (Hid : next_id (invoke_reject st1 n0 r1) = next_id st1).
      { unfold invoke_reject, thisReject, promise_reject. simpl.
        destruct (alreadyResolved _); reflexivity. }
      pose proof (ev_length Hev) as Hlen. rewrite Hl in Hlen. rewrite Hid.
      destruct Hi as [Hi | Hi]; rewrite Hi; lia.
    + rewrite E3. simpl. eauto.
  - exfalso. eapply Hsig. reflexivity.
  - eauto.
Qed.

(** Whatever [abort] does, a promise that was resolved keeps its outcome. *)
Lemma abort_keeps_settled_outcomes (fuel : nat) (st st' : State) (n : nat)
    (r : value) :
  result_state (abort fuel st n r) = Some st' ->
  forall m, alreadyResolved (nodes st m) = true ->
            outcome (nodes st' m) = outcome (nodes st m).
Proof.
  intros H m Hm. destruct (abort_nodes _ _ _ _ H) as (_ & _ & H3).
  now rewrite (H3 m Hm).
Qed.

(** ** Firing a signal *)

(** Fuel for a whole API call: some allocations, then a walk and every
    listener. *)
Definition ample (st : State) (fuel : nat) : Prop :=
  next_id st + List.length (listeners st) + 3 < fuel.

Lemma native_abort_effect (fuel : nat) (st st' : State) (x : nat) (r : value) :
  ns_aborted (natives st x) = false -> r <> VUndefined ->
  native_abort fuel st x r = Some st' ->
  ns_aborted (natives st' x) = true /\ ns_reason (natives st' x) = r.
Proof.
  intros Ha Hr H. destruct fuel as [|fuel]; [discriminate|]. simpl in H.
  rewrite Ha in H.
  assert (Hd : native_default_reason st r = (st, r))
    by (destruct r; try reflexivity; exfalso; now apply Hr).
  rewrite Hd in H.
  apply evolves_fire in H; [|apply native_abort_evolves].
  rewrite (ev_fired H x); simpl; rewrite upd_same; auto.
Qed.

Lemma controller_abort_effect (fuel : nat) (st : State) (s : nat) (r : value) :
  wf st -> S (next_id st) + List.length (listeners st) < fuel ->
  exists st',
    AbortControllerPlus_abort fuel st s r = Some st' /\
    (exists d, calls st' = calls st ++ CallControllerAbort s r :: d) /\
    (ns_aborted (natives st (sp_signal (pluses st s))) = false ->
     nullish r = false ->
     ns_aborted (natives st' (sp_signal (pluses st' s))) = true /\
     ns_reason (natives st' (sp_signal (pluses st' s))) = r).
Proof.
  intros Hwf Hf.
  destruct (controller_abort_total s r Hwf Hf) as [st' E]. exists st'.
  split; [exact E|].
  pose proof (controller_abort_evolves _ _ _ _ E) as Hev.
  unfold AbortControllerPlus_abort, AbortControllerPlus_abort_via in E.
  split.
  - pose proof (default_reason_same (log st (CallControllerAbort s r)) r) as Hd.
    destruct (default_reason (log st (CallControllerAbort s r)) r)
      as [st1 r1]. simpl in Hd.
    apply native_abort_evolves in E. destruct (ev_calls E) as [d [Hc _]].
    exists d. destruct Hd as (_ & _ & _ & _ & _ & Hcs & _).
    rewrite Hc, Hcs. simpl. now rewrite <- app_assoc.
  - intros Ha Hn. unfold default_reason in E. rewrite Hn in E.
    rewrite (ev_sp Hev). simpl in E.
    apply native_abort_effect in E; auto.
    destruct r; simpl in Hn; congruence.
Qed.

(** ** [_listen]: the reason handed on *)



(** The reason [_listen] hands to its controller for the source reason [r],
    when it runs in state [st]. *)
Definition handed_on (st : State) (r : value) : value := snd (translate st r).

Lemma forward_effect (fuel : nat) (st : State) (s : nat) (src : SignalRef) :
  wf st -> ample st fuel ->
  exists st',
    (let (st1, r1) := translate st (reason st src) in
     AbortControllerPlus_abort fuel st1 s r1) = Some st' /\
    (exists d,
        calls st' = calls st
                    ++ CallControllerAbort s (handed_on st (reason st src))
                    :: d) /\
    (ns_aborted (natives st (sp_signal (pluses st s))) = false ->
     nullish (reason st src) = false ->
     ns_aborted (natives st' (sp_signal (pluses st' s))) = true /\
     ns_reason (natives st' (sp_signal (pluses st' s)))
     = handed_on st (reason st src)).
Proof.
  intros Hwf Hf. unfold handed_on, ample in *.
  pose proof (translate_same st (reason st src)) as Hs.
  assert (Hnull : nullish (reason st src) = false ->
                  nullish (snd (translate st (reason st src))) = false).
  { unfold translate. destruct (isTimeoutError (reason st src)); auto. }
  destruct (translate st (reason st src)) as [st1 r1]. simpl in *.
  destruct (@controller_abort_effect fuel st1 s r1) as [st' (E & Hc & Hr)].
  - eapply same_but_next_wf; eassumption.
  - destruct Hs as (_ & _ & _ & Hl & _ & _ & Hi). rewrite Hl.
    destruct Hi as [Hi | Hi]; rewrite Hi; lia.
  - exists st'. split; [exact E|].
    destruct Hs as (_ & Hx & Hp & _ & _ & Hcs & _).
    rewrite Hcs, Hx, Hp in *. split; [exact Hc|]. auto.
Qed.


(** ** [any]: one pass over the sources *)

(** What [_listen] of [s] does with a source that has not fired. *)
Definition register_forward (s : nat) (st : State) (src : SignalRef) : State :=
  addEventListener st src (CForward s src).

(** One forwarding listener per source, in order, numbered from [i]. *)
Fixpoint forward_listeners (st : State) (s i : nat) (srcs : list SignalRef)
  : list Listener :=
  match srcs with
  | [] => []
  | src :: rest =>
      mkListener i (native_of st src) (CForward s src)
      :: forward_listeners st s (S i) rest
  end.

Lemma forward_listeners_length (st : State) (s : nat) (srcs : list SignalRef) :
  forall i, List.length (forward_listeners st s i srcs) = List.length srcs.
Proof.
  induction srcs as [|src rest IH]; intro i; simpl; [reflexivity|].
  now rewrite IH.
Qed.

Lemma forward_listeners_same_pluses (st st' : State) (s : nat)
    (srcs : list SignalRef) :
  pluses st' = pluses st ->
  forall i, forward_listeners st' s i srcs = forward_listeners st s i srcs.
Proof.
  intro Hp. induction srcs as [|src rest IH]; intro i; simpl; [reflexivity|].
  rewrite IH. unfold native_of. now rewrite Hp.
Qed.

Lemma register_all (s : nat) (srcs : list SignalRef) :
  forall st,
    let st' := fold_left (register_forward s) srcs st in
    listeners st' = listeners st ++ forward_listeners st s (next_id st) srcs /\
    next_id st' = next_id st + List.length srcs /\
    nodes st' = nodes st /\ natives st' = natives st /\
    pluses st' = pluses st /\ timers st' = timers st /\
    calls st' = calls st.
Proof.
  induction srcs as [|src rest IH]; intro st; simpl.
  - rewrite app_nil_r, Nat.add_0_r. repeat split.
  - destruct (IH (register_forward s st src))
      as (Hl & Hn & Hnodes & Hx & Hp & Ht & Hc).
    simpl in *. rewrite Hl, Hn, Hnodes, Hx, Hp, Ht, Hc.
    repeat split; [|lia].
    rewrite <- app_assoc. simpl. f_equal. f_equal.
    now apply forward_listeners_same_pluses.
Qed.

Lemma aborted_same (st st' : State) (sg : SignalRef) :
  natives st' = natives st -> pluses st' = pluses st ->
  aborted st' sg = aborted st sg /\ reason st' sg = reason st sg.
Proof.
  intros Hx Hp. unfold aborted, reason, native_of. now rewrite Hx, Hp.
Qed.

Lemma any_registers (fuel : nat) (s : nat) (srcs : list SignalRef) :
  forall st,
    Forall (fun sg => aborted st sg = false) srcs ->
    forall rest,
      any fuel st s (srcs ++ rest)
      = any fuel (fold_left (register_forward s) srcs st) s rest.
Proof.
  induction srcs as [|src srcs IH]; intros st Hall rest; simpl;
    [reflexivity|].
  inversion Hall as [|? ? Hsrc Hrest]; subst.
  unfold _listen. rewrite Hsrc. fold (register_forward s st src).
  apply IH. eapply Forall_impl; [|exact Hrest].
  intros sg Hsg. simpl in Hsg.
  destruct (@aborted_same st (register_forward s st src) sg) as [Ha _];
    try reflexivity.
  now rewrite Ha.
Qed.

Lemma wf_register_all (s : nat) (srcs : list SignalRef) (st : State) :
  wf st -> wf (fold_left (register_forward s) srcs st).
Proof.
  intros [Hn Hb].
  destruct (register_all s srcs st) as (Hl & Hi & Hnodes & _).
  split.
  - intro n. rewrite Hnodes. apply Hn.
  - intros l p sg Hin Hbody. rewrite Hl in Hin. apply in_app_or in Hin.
    destruct Hin as [Hin | Hin].
    + specialize (Hb l p sg Hin Hbody). lia.
    + exfalso. clear - Hin Hbody. revert Hin. generalize (next_id st).
      induction srcs as [|src rest IH]; simpl; intros i Hin; [contradiction|].
      destruct Hin as [<- | Hin]; [discriminate | eauto].
Qed.

(** C4: [any(signals)] on signal [s] goes through the sources once, in order.
    While the sources have not fired, each one visited gets exactly one
    listener (a forwarding listener of [s], appended to the registry in visit
    order) and nothing is called.  At the first source [src] that is aborted,
    the controller of [s] is aborted at once with the reason handed on from
    [src], and [any] returns [s]: every listener in the final registry was
    there before or belongs to a source visited before [src], so none was
    registered on [src] or on a later source. *)
Theorem any_stops_at_first_aborted_source (fuel : nat) (st : State) (s : nat)
    (pre : list SignalRef) :
  wf st ->
  next_id st + List.length (listeners st) + 2 * List.length pre + 3 < fuel ->
  Forall (fun sg => aborted st sg = false) pre ->
  let stp := fold_left (register_forward s) pre st in
  listeners stp = listeners st ++ forward_listeners st s (next_id st) pre /\
  List.length (forward_listeners st s (next_id st) pre) = List.length pre /\
  calls stp = calls st /\
  any fuel st s pre = Some (stp, s) /\
  forall src rest,
    aborted st src = true ->
    exists st',
      any fuel st s (pre ++ src :: rest) = Some (st', s) /\
      (let (st1, r1) := translate stp (reason st src) in
       AbortControllerPlus_abort fuel st1 s r1) = Some st' /\
      (exists d,
          calls st' = calls st
                      ++ CallControllerAbort s (handed_on stp (reason st src))
                      :: d) /\
      forall l, In l (listeners st') ->
                In l (listeners st) \/
                In l (forward_listeners st s (next_id st) pre).
Proof.
  intros Hwf Hf Hall stp.
  destruct (register_all s pre st) as (Hl & Hi & Hnodes & Hx & Hp & Ht & Hc).
  fold stp in Hl, Hi, Hnodes, Hx, Hp, Ht, Hc.
  split; [exact Hl|]. split; [apply forward_listeners_length|].
  split; [exact Hc|]. split.
  { rewrite <- (app_nil_r pre) at 1.
    rewrite (@any_registers fuel s pre st Hall).
    reflexivity. }
  intros src rest Ha.
  destruct (@aborted_same st stp src Hx Hp) as [Ha' Hr'].
  destruct (@forward_effect fuel stp s src) as [st' (E & Hcalls & _)].
  - now apply wf_register_all.
  - unfold ample. rewrite Hi, Hl, length_app, forward_listeners_length. lia.
  - rewrite Hr' in E, Hcalls. exists st'.
    split; [|split; [exact E | split]].
    + rewrite (@any_registers fuel s pre st Hall). fold stp. simpl.
      unfold _listen. rewrite Ha', Hr', Ha.
      destruct (translate stp (reason st src)) as [st1 r1]. now rewrite E.
    + now rewrite <- Hc.
    + intros l Hin.
      assert (Hev : evolves stp st').
      { pose proof (translate_same stp (reason st src)) as Hs.
        destruct (translate stp (reason st src)) as [st1 r1]. simpl in Hs.
        eapply evolves_trans; [apply same_but_next_evolves; exact Hs|].
        eapply controller_abort_evolves; exact E. }
      apply (ev_listeners Hev) in Hin. rewrite Hl in Hin.
      now apply in_app_or.
Qed.

(** ** The constructor and a bound signal *)

Lemma executor_call_frame (st : State) (p : nat) (c : ExecutorCall) :
  let st' := match c with
             | ExecResolve v => executor_resolve st p v
             | ExecReject r => executor_reject st p r
             end in
  listeners st' = listeners st /\ natives st' = natives st /\
  pluses st' = pluses st /\ timers st' = timers st /\
  next_id st' = next_id st /\
  (exists d, calls st' = calls st ++ d) /\
  (forall q, _parent (nodes st' q) = _parent (nodes st q)) /\
  (forall q, _reject (nodes st' q) = _reject (nodes st q)) /\
  (forall q, _signal (nodes st' q) = _signal (nodes st q)) /\
  (forall q, _isSettled (nodes st q) = true ->
             _isSettled (nodes st' q) = true) /\
  (forall q, alreadyResolved (nodes st q) = true ->
             alreadyResolved (nodes st' q) = true /\
             outcome (nodes st' q) = outcome (nodes st q)).
Proof.
  destruct c as [v | r]; simpl;
    unfold executor_resolve, executor_reject, set_isSettled, thisReject,
      promise_resolve, promise_reject; simpl;
    destruct (alreadyResolved (nodes st p)) eqn:E; simpl;
    repeat split; intros;
    try (exists []; now rewrite app_nil_r);
    try (eexists; reflexivity);
    unfold upd; rewrite ?Nat.eqb_refl; simpl;
    try (destruct (Nat.eqb_spec q p); subst; rewrite ?Nat.eqb_refl; simpl);
    auto; congruence.
Qed.

Lemma run_executor_frame (p : nat) (executor : list ExecutorCall) :
  forall st,
    let st' := fold_left (fun s c =>
                            match c with
                            | ExecResolve v => executor_resolve s p v
                            | ExecReject r => executor_reject s p r
                            end) executor st in
    listeners st' = listeners st /\ natives st' = natives st /\
    pluses st' = pluses st /\ timers st' = timers st /\
    next_id st' = next_id st /\
    (exists d, calls st' = calls st ++ d) /\
    (forall q, _parent (nodes st' q) = _parent (nodes st q)) /\
    (forall q, _reject (nodes st' q) = _reject (nodes st q)) /\
    (forall q, _signal (nodes st' q) = _signal (nodes st q)) /\
    (forall q, _isSettled (nodes st q) = true ->
               _isSettled (nodes st' q) = true) /\
    (forall q, alreadyResolved (nodes st q) = true ->
               alreadyResolved (nodes st' q) = true /\
               outcome (nodes st' q) = outcome (nodes st q)).
Proof.
  induction executor as [|c rest IH]; intro st; simpl.
  - repeat split; auto. exists []. now rewrite app_nil_r.
  - pose proof (executor_call_frame st p c) as Hc. simpl in Hc.
    set (st1 := match c with
                | ExecResolve v => executor_resolve st p v
                | ExecReject r => executor_reject st p r
                end) in *.
    destruct Hc as (H1 & H2 & H3 & H4 & H5 & [d1 H6] & H7 & H8 & H9 & H10 & H11).
    destruct (IH st1) as (K1 & K2 & K3 & K4 & K5 & [d2 K6] & K7 & K8 & K9
                          & K10 & K11).
    rewrite K1, K2, K3, K4, K5, H1, H2, H3, H4, H5.
    repeat split; auto.
    + exists (d1 ++ d2). now rewrite K6, H6, app_assoc.
    + intro q. now rewrite K7.
    + intro q. now rewrite K8.
    + intro q. now rewrite K9.
    + apply K11. now apply H11.
    + destruct (H11 q H) as [Ha Ho]. destruct (K11 q Ha) as [_ Ko].
      now rewrite Ko.
Qed.


(** ** Every listener of a firing signal is called *)

Lemma not_registered_evolves (a b : State) (i : nat) :
  evolves a b -> registered a i = false -> registered b i = false.
Proof.
  intros Hev Ha. destruct (registered b i) eqn:Eb; [|reflexivity].
  apply registered_In in Eb. destruct Eb as [l [Hin Hl]].
  apply (ev_listeners Hev) in Hin.
  assert (registered a i = true) by (apply registered_In; eauto).
  congruence.
Qed.

Lemma remove_listener_unregisters (st : State) (i : nat) (c : Call) :
  registered (log (remove_listener st i) c) i = false.
Proof.
  destruct (registered (log (remove_listener st i) c) i) eqn:E;
    [|reflexivity].
  apply registered_In in E. destruct E as [l [Hin Hl]]. simpl in Hin.
  apply filter_In in Hin. destruct Hin as [_ Hne].
  rewrite Hl, Nat.eqb_refl in Hne. discriminate.
Qed.

Lemma fire_unregisters (fuel : nat) (snapshot : list Listener) :
  forall st st',
    fire (run_closure fuel (native_abort fuel)) snapshot st = Some st' ->
    forall l, In l snapshot -> registered st' (lid l) = false.
Proof.
  induction snapshot as [|l0 rest IH]; simpl; intros st st' H l Hin;
    [contradiction|].
  destruct (registered st (lid l0)) eqn:Er.
  - destruct (run_closure fuel (native_abort fuel)
                (log (remove_listener st (lid l0)) (CallListener (lid l0)))
                (body l0)) as [st1|] eqn:E1; [|discriminate].
    destruct Hin as [<- | Hin]; [|eapply IH; eassumption].
    apply evolves_run_closure in E1; [|apply native_abort_evolves].
    apply evolves_fire in H; [|apply native_abort_evolves].
    eapply not_registered_evolves; [exact H|].
    eapply not_registered_evolves; [exact E1|].
    apply remove_listener_unregisters.
  - destruct Hin as [<- | Hin]; [|eapply IH; eassumption].
    apply evolves_fire in H; [|apply native_abort_evolves].
    eapply not_registered_evolves; eassumption.
Qed.

Lemma dispatchEvent_calls_listeners (fuel : nat) (st st' : State) (x : nat) :
  dispatchEvent fuel st x = Some st' ->
  exists d, calls st' = calls st ++ d /\
            forall l, In l (listeners st) -> target l = x ->
                      In (CallListener (lid l)) d /\
                      registered st' (lid l) = false.
Proof.
  intro H. pose proof (dispatchEvent_evolves _ _ _ H) as Hev.
  destruct (ev_calls Hev) as [d [Hc Hlog]]. exists d. split; [exact Hc|].
  intros l Hin Ht.
  assert (Hun : registered st' (lid l) = false).
  { destruct fuel as [|fuel]; [discriminate|]. simpl in H.
    eapply fire_unregisters; [exact H|]. apply listeners_of_In. auto. }
  split; [|exact Hun]. apply Hlog; [|exact Hun].
  apply registered_In. eauto.
Qed.

Lemma native_abort_calls_listeners (fuel : nat) (st st' : State) (x : nat)
    (r : value) :
  ns_aborted (natives st x) = false ->
  native_abort fuel st x r = Some st' ->
  exists d, calls st' = calls st ++ d /\
            forall l, In l (listeners st) -> target l = x ->
                      In (CallListener (lid l)) d /\
                      registered st' (lid l) = false.
Proof.
  intros Ha H. pose proof (native_abort_evolves _ _ _ _ H) as Hev.
  destruct (ev_calls Hev) as [d [Hc Hlog]]. exists d. split; [exact Hc|].
  intros l Hin Ht.
  assert (Hun : registered st' (lid l) = false).
  { destruct fuel as [|fuel]; [discriminate|]. simpl in H. rewrite Ha in H.
    pose proof (native_default_reason_same st r) as Hs.
    destruct (native_default_reason st r) as [st1 r1]. simpl in Hs.
    eapply fire_unregisters; [exact H|]. apply listeners_of_In. simpl.
    destruct Hs as (_ & _ & _ & Hl & _). rewrite Hl. auto. }
  split; [|exact Hun]. apply Hlog; [|exact Hun].
  apply registered_In. eauto.
Qed.

(** ** [abort] and the bound signal *)

(** A signal that has not fired and on which no property was forced. *)
Definition unfired (st : State) (sg : SignalRef) : Prop :=
  let n := natives st (native_of st sg) in
  ns_aborted n = false /\ own_aborted n = None /\ own_reason n = None.

Lemma default_reason_value (st : State) (r : value) :
  nullish (snd (default_reason st r)) = false /\
  (nullish r = false -> snd (default_reason st r) = r).
Proof.
  unfold default_reason. destruct (nullish r) eqn:E; simpl; auto.
  split; [reflexivity | discriminate].
Qed.

(** A promise built on a signal that had fired with reason "A": signal 1 on
    native signal 0, promise 2. *)
Definition promise_on_fired_signal : State :=
  let (st1, s) := new_AbortControllerPlus init in
  match AbortControllerPlus_abort 10 st1 s (VString "A") with
  | Some st2 =>
      match constructor 10 st2 [] (Some (SPlus s)) with
      | Some (st3, _) => st3
      | None => init
      end
  | None => init
  end.

(** C8 as it is stated: after [abort(r)] the bound signal is aborted with
    reason [r]. *)
Definition abort_marks_signal (fuel : nat) (st : State) (n : nat) (r : value)
  : Prop :=
  forall sg st',
    _signal (nodes st n) = Some sg -> abort fuel st n r = Ok st' ->
    aborted st' sg = true /\ reason st' sg = r.

(** C8, counterexample: the bound signal had fired with reason "A";
    [abort("B")] on the promise leaves the signal's reason "A". *)
Lemma abort_marks_signal_fails :
  ~ abort_marks_signal 20 promise_on_fired_signal 2 (VString "B").
Proof.
  intro H.
  assert (E : exists st',
             _signal (nodes promise_on_fired_signal 2) = Some (SPlus 1) /\
             abort 20 promise_on_fired_signal 2 (VString "B") = Ok st' /\
             reason st' (SPlus 1) = VString "A").
  { vm_compute. eexists. repeat split. }
  destruct E as [st' (E1 & E2 & E3)].
  destruct (H _ _ E1 E2) as [_ Hr]. rewrite E3 in Hr. discriminate Hr.
Qed.

Lemma thisReject_frame (st : State) (p : nat) (r : value) :
  listeners (thisReject st p r) = listeners st /\
  natives (thisReject st p r) = natives st /\
  pluses (thisReject st p r) = pluses st /\
  timers (thisReject st p r) = timers st /\
  next_id (thisReject st p r) = next_id st.
Proof.
  unfold thisReject, promise_reject. simpl.
  destruct (alreadyResolved (nodes st p)); repeat split.
Qed.

(** C8, amended: [abort(r)] on [n] rejects the chain-walk target with
    [r1 = r ?? new AbortError()] and then turns to the bound signal.  With an
    [AbortSignalPlus] bound, it calls [abort(r1)] on that signal's
    controller: a signal that had not fired is then aborted with reason
    [r1], one that had fired keeps what it had.  With a native [AbortSignal]
    bound on which no property was forced before, it defines [aborted] as
    true and [reason] as [r1] on the signal, and every abort listener of the
    signal is called.  With no signal bound, the rejection is all that
    happens. *)
Theorem abort_marks_bound_signal (fuel : nat) (st : State) (n : nat)
    (r : value) :
  wf st -> n < fuel -> ample st fuel ->
  forall st1 r1,
    default_reason st r = (st1, r1) ->
    nullish r1 = false /\ (nullish r = false -> r1 = r) /\
    exists t,
      chain_walk st n t /\
      match _signal (nodes st n) with
      | None => abort fuel st n r = Ok (thisReject st1 t r1)
      | Some (SPlus s) =>
          exists st',
            abort fuel st n r = Ok st' /\
            AbortControllerPlus_abort fuel (thisReject st1 t r1) s r1
            = Some st' /\
            (exists d, calls st' = calls st ++ CallReject t r1
                                   :: CallControllerAbort s r1 :: d) /\
            (unfired st (SPlus s) ->
             aborted st' (SPlus s) = true /\ reason st' (SPlus s) = r1) /\
            (ns_aborted (natives st (sp_signal (pluses st s))) = true ->
             natives st' (sp_signal (pluses st s))
             = natives st (sp_signal (pluses st s)))
      | Some (SNative x) =>
          own_aborted (natives st x) = None ->
          own_reason (natives st x) = None ->
          exists st',
            abort fuel st n r = Ok st' /\
            own_aborted (natives st' x) = Some true /\
            own_reason (natives st' x) = Some r1 /\
            aborted st' (SNative x) = true /\
            reason st' (SNative x) = r1 /\
            forall l, In l (listeners st) -> target l = x ->
                      In (CallListener (lid l)) (new_calls st st')
      end.
Proof.
  intros Hwf Hn Hf st1 r1 Hdef.
  pose proof (default_reason_value st r) as [Hnull Hsame].
  pose proof (default_reason_same st r) as Hs.
  rewrite Hdef in Hnull, Hsame, Hs. simpl in Hnull, Hsame, Hs.
  split; [exact Hnull|]. split; [exact Hsame|].
  pose proof (same_but_next_wf Hs Hwf) as Hwf1.
  destruct (doAbort_target r1 (proj1 Hwf1) Hn) as [t (Hw & Hc1 & Hd1)].
  exists t. split; [eapply same_but_next_chain_walk; eassumption|].
  set (st2 := thisReject st1 t r1) in *.
  destruct (thisReject_frame st1 t r1) as (F1 & F2 & F3 & F4 & F5).
  fold st2 in F1, F2, F3, F4, F5.
  pose proof (evolves_thisReject st1 t r1) as Hev2. fold st2 in Hev2.
  pose proof (wf_evolves Hev2 Hwf1) as Hwf2.
  destruct Hs as (Hnodes & Hx & Hp & Hl & Ht & Hcs & Hi).
  assert (Hsig : _signal (nodes st2 n) = _signal (nodes st n)).
  { rewrite (ev_signal Hev2). now rewrite Hnodes. }
  assert (Hcalls2 : calls st2 = calls st ++ [CallReject t r1]).
  { unfold st2. now rewrite calls_thisReject, Hcs. }
  assert (Hfuel2 : S (next_id st2) + List.length (listeners st2) < fuel).
  { unfold ample in Hf. rewrite F5, F1, Hl. destruct Hi as [Hi | Hi];
      rewrite Hi; lia. }
  unfold abort. rewrite Hdef, Hd1, Hsig.
  destruct (_signal (nodes st n)) as [[s | x]|]; [| |reflexivity].
  - (* an AbortSignalPlus *)
    destruct (controller_abort_effect s r1 Hwf2 Hfuel2)
      as [st' (E & [d Hd] & Heff)].
    exists st'. rewrite E. split; [reflexivity|]. split; [reflexivity|].
    pose proof (controller_abort_evolves _ _ _ _ E) as Hev.
    split; [|split].
    + exists d. rewrite Hd, Hcalls2, <- app_assoc. reflexivity.
    + intros (U1 & U2 & U3). simpl in U1, U2, U3.
      rewrite F2, F3, Hx, Hp in Heff. destruct (Heff U1 Hnull) as [A1 A2].
      unfold aborted, reason, native_aborted, native_reason, native_of.
      rewrite (ev_own_aborted Hev), (ev_own_reason Hev), F2, Hx.
      rewrite (ev_sp Hev), F3, Hp in *. rewrite U2, U3. auto.
    + intro Hfired. rewrite (ev_fired Hev); rewrite F2, Hx; auto.
  - (* a native AbortSignal *)
    intros U2 U3.
    unfold defineProperty_aborted. rewrite F2, Hx, U2.
    unfold defineProperty_reason. simpl. rewrite U3.
    set (st3 := upd_native st2 x _).
    assert (Hwf3 : wf st3).
    { destruct Hwf2 as [W1 W2]. split; [exact W1 | exact W2]. }
    destruct (@dispatchEvent_total fuel st3 x Hwf3) as [st' E].
    { unfold enough. simpl. lia. }
    rewrite E. exists st'. split; [reflexivity|].
    pose proof (dispatchEvent_evolves _ _ _ E) as Hev.
    assert (Hown : own_aborted (natives st' x) = Some true /\
                   own_reason (natives st' x) = Some r1).
    { rewrite (ev_own_aborted Hev), (ev_own_reason Hev). simpl.
      rewrite upd_same. auto. }
    destruct Hown as [O1 O2].
    split; [exact O1|]. split; [exact O2|].
    unfold aborted, reason, native_aborted, native_reason. simpl.
    rewrite O1, O2. split; [reflexivity|]. split; [reflexivity|].
    intros l Hin Htarget.
    destruct (@dispatchEvent_calls_listeners fuel st3 st' x E)
      as [d [Hc Hall]].
    destruct (Hall l) as [Hcalled _]; [simpl; now rewrite F1, Hl | exact Htarget|].
    simpl in Hc. rewrite Hcalls2, <- app_assoc in Hc.
    rewrite (@new_calls_app st st' _ Hc). apply in_or_app. now right.
Qed.

(** ** [listen] twice *)

Lemma thisReject_pending (st : State) (p : nat) (r : value) :
  alreadyResolved (nodes st p) = false ->
  outcome (nodes (thisReject st p r) p) = Rejected r.
Proof.
  intro H. unfold thisReject, promise_reject. simpl. rewrite H. simpl.
  now rewrite upd_same.
Qed.




(** The scene of C10 run through: promise 2 is built on signal 1, then told
    to listen to signal 4; the controller of signal 1 aborts with "first":
    the promise is rejected with "first" while its binding is signal 4. *)
Example first_signal_still_rejects :
  let (st1, s1) := new_AbortControllerPlus init in
  match constructor 9 st1 [] (Some (SPlus s1)) with
  | Some (st2, p) =>
      let (st3, s2) := new_AbortControllerPlus st2 in
      match listen 9 st3 p (SPlus s2) with
      | Some st4 =>
          match AbortControllerPlus_abort 9 st4 s1 (VString "first") with
          | Some st5 =>
              _signal (nodes st5 p) = Some (SPlus s2) /\
              outcome (nodes st5 p) = Rejected (VString "first") /\
              aborted st5 (SPlus s2) = false
          | None => False
          end
      | None => False
      end
  | None => False
  end.
Proof. vm_compute. repeat split. Qed.

(** ** Timers: the listener that guards an armed timer *)

(** Listener numbers are not shared. *)
Definition lids_unique (st : State) : Prop :=
  NoDup (map lid (listeners st)).

(** A signal with a timer has, on its own native signal, the listener that
    [timeout] registered to clear it. *)
Definition guarded (st : State) : Prop :=
  forall s, hasTimeout st s = true ->
            exists l, In l (listeners st) /\
                      target l = sp_signal (pluses st s) /\
                      body l = CClearTimer s.

Lemma unique_lid (L : list Listener) (a b : Listener) :
  NoDup (map lid L) -> In a L -> In b L -> lid a = lid b -> a = b.
Proof.
  induction L as [|c L IH]; simpl; intros Hnd Ha Hb Hl; [contradiction|].
  inversion Hnd as [|? ? Hnot Hrest]; subst.
  destruct Ha as [-> | Ha], Hb as [-> | Hb]; auto.
  - exfalso. apply Hnot. rewrite Hl. now apply in_map.
  - exfalso. apply Hnot. rewrite <- Hl. now apply in_map.
Qed.

Lemma remove_listener_keeps (st : State) (l g : Listener) :
  lids_unique st -> In l (listeners st) -> In g (listeners st) -> g <> l ->
  In g (listeners (remove_listener st (lid l))).
Proof.
  intros Hu Hl Hg Hne. simpl. apply filter_In. split; [exact Hg|].
  apply negb_true_iff, Nat.eqb_neq. intro Heq. apply Hne.
  eapply unique_lid; eassumption.
Qed.

(** The snapshot of a dispatch names listeners of the registry: one of its
    numbers that is still registered is registered for that very listener. *)
Definition agrees (snapshot : list Listener) (st : State) : Prop :=
  forall l, In l snapshot -> registered st (lid l) = true ->
            In l (listeners st).

Lemma agrees_evolves (snapshot : list Listener) (st st' : State) :
  lids_unique st -> evolves st st' ->
  agrees snapshot st -> agrees snapshot st'.
Proof.
  intros Hu Hev Hag l Hin Hr.
  apply registered_In in Hr. destruct Hr as [l' [Hin' Hl']].
  pose proof (ev_listeners Hev l' Hin') as Hcur.
  assert (Hl : In l (listeners st)).
  { apply Hag; [exact Hin|]. apply registered_In. eauto. }
  assert (l' = l) by (eapply unique_lid; eassumption).
  now subst l'.
Qed.

Lemma agrees_tail (l : Listener) (rest : list Listener) (st : State) :
  agrees (l :: rest) st -> agrees rest st.
Proof. intros H l' Hin. apply H. now right. Qed.

Lemma agrees_listeners_of (st : State) (x : nat) :
  agrees (listeners_of st x) st.
Proof. intros l Hin _. apply listeners_of_In in Hin. tauto. Qed.

Section Guard.

Variable fuel : nat.
Variable native : State -> nat -> value -> option State.
Hypothesis native_evolves :
  forall st x r st', native st x r = Some st' -> evolves st st'.
Hypothesis native_guarded :
  forall st x r st',
    native st x r = Some st' -> lids_unique st -> guarded st -> guarded st'.

Lemma guarded_same (st st' : State) :
  listeners st' = listeners st -> pluses st' = pluses st ->
  guarded st -> guarded st'.
Proof.
  intros Hl Hp Hg s Hs. unfold hasTimeout in Hs. rewrite Hp in Hs.
  destruct (Hg s Hs) as [l (H1 & H2 & H3)]. exists l.
  rewrite Hl, Hp. auto.
Qed.

Lemma controller_abort_via_guarded (st st' : State) (s : nat) (r : value) :
  AbortControllerPlus_abort_via native st s r = Some st' ->
  lids_unique st -> guarded st -> guarded st'.
Proof.
  unfold AbortControllerPlus_abort_via.
  pose proof (default_reason_same (log st (CallControllerAbort s r)) r) as Hd.
  destruct (default_reason (log st (CallControllerAbort s r)) r)
    as [st1 r1]. simpl in Hd.
  destruct Hd as (_ & _ & Hp & Hl & _).
  intros H Hu Hg. eapply native_guarded; [exact H | |].
  - unfold lids_unique. now rewrite Hl.
  - eapply guarded_same; [exact Hl | exact Hp | exact Hg].
Qed.

(** One round of a dispatch: the listener leaves the registry and runs. *)
Lemma run_step_guarded (st st1 : State) (l : Listener) :
  lids_unique st -> guarded st -> In l (listeners st) ->
  run_closure fuel native
    (log (remove_listener st (lid l)) (CallListener (lid l))) (body l)
  = Some st1 ->
  guarded st1.
Proof.
  intros Hu Hg Hin Hrun.
  set (st0 := log (remove_listener st (lid l)) (CallListener (lid l))) in *.
  assert (Hu0 : lids_unique st0).
  { unfold lids_unique. simpl. now apply NoDup_map_filter. }
  (* every guard but the one just removed is still there *)
  assert (Hg0 : forall s, hasTimeout st0 s = true ->
                          body l <> CClearTimer s ->
                          exists g, In g (listeners st0) /\
                                    target g = sp_signal (pluses st0 s) /\
                                    body g = CClearTimer s).
  { intros s Hs Hb. destruct (Hg s Hs) as [g (G1 & G2 & G3)].
    exists g. split; [|auto].
    apply (@remove_listener_keeps st l g Hu Hin G1). congruence. }
  destruct (body l) as [p sg | s' sg | s'] eqn:Eb; simpl in Hrun.
  - unfold _doAbort in Hrun.
    destruct (walk fuel st0 p) as [t|]; [|discriminate].
    injection Hrun as <-. unfold invoke_reject.
    destruct (thisReject_frame st0 (_reject (nodes st0 t)) (reason st0 sg))
      as (Hl & _ & Hp & _).
    intros s Hs. unfold hasTimeout in Hs. rewrite Hp in Hs.
    destruct (Hg0 s Hs) as [g (G1 & G2 & G3)]; [discriminate|].
    exists g. rewrite Hl, Hp. auto.
  - pose proof (translate_same st0 (reason st0 sg)) as Ht.
    destruct (translate st0 (reason st0 sg)) as [st2 r2]. simpl in Ht.
    destruct Ht as (_ & _ & Hp & Hl & _).
    eapply controller_abort_via_guarded; [exact Hrun | |].
    + unfold lids_unique. now rewrite Hl.
    + intros s Hs. unfold hasTimeout in Hs. rewrite Hp in Hs.
      destruct (Hg0 s Hs) as [g (G1 & G2 & G3)]; [discriminate|].
      exists g. rewrite Hl, Hp. auto.
  - injection Hrun as <-. intros s Hs.
    assert (Hne : s <> s').
    { intro. subst s'. unfold hasTimeout in Hs. simpl in Hs.
      rewrite upd_same in Hs. discriminate. }
    assert (Hs0 : hasTimeout st0 s = true).
    { unfold hasTimeout in *. simpl in Hs.
      rewrite (upd_other _ _ Hne) in Hs.
      destruct (_timer (pluses st s')); exact Hs. }
    destruct (Hg0 s Hs0) as [g (G1 & G2 & G3)]; [congruence|].
    exists g. simpl in G1, G2. simpl.
    rewrite (upd_other _ _ Hne).
    destruct (_timer (pluses st s')); simpl; auto.
Qed.

Lemma fire_guarded (snapshot : list Listener) :
  forall st st',
    agrees snapshot st -> lids_unique st -> guarded st ->
    fire (run_closure fuel native) snapshot st = Some st' ->
    guarded st'.
Proof.
  induction snapshot as [|l rest IH]; simpl; intros st st' Hag Hu Hg H.
  - now injection H as <-.
  - destruct (registered st (lid l)) eqn:Er.
    + destruct (run_closure fuel native
                  (log (remove_listener st (lid l)) (CallListener (lid l)))
                  (body l)) as [st1|] eqn:E1; [|discriminate].
      assert (Hev : evolves st st1).
      { eapply evolves_trans; [apply evolves_remove_log|].
        eapply evolves_run_closure; eassumption. }
      apply (IH st1 st'); [| | |exact H].
      * eapply agrees_evolves; [exact Hu | exact Hev |].
        eapply agrees_tail; eassumption.
      * apply (ev_nodup Hev Hu).
      * eapply run_step_guarded; [exact Hu | exact Hg | | exact E1].
        apply Hag; [now left | exact Er].
    + apply (IH st st'); auto. eapply agrees_tail; eassumption.
Qed.

End Guard.

Lemma native_abort_guarded (fuel : nat) :
  forall st x r st',
    native_abort fuel st x r = Some st' ->
    lids_unique st -> guarded st -> guarded st'.
Proof.
  induction fuel as [|fuel IH]; simpl; intros st x r st' H Hu Hg;
    [discriminate|].
  destruct (ns_aborted (natives st x)) eqn:Ea.
  - now injection H as <-.
  - pose proof (native_default_reason_same st r) as Hd.
    destruct (native_default_reason st r) as [st1 r1]. simpl in Hd.
    destruct Hd as (_ & _ & Hp & Hl & _).
    set (st2 := upd_native st1 x _) in H.
    eapply (@fire_guarded fuel (native_abort fuel)); [| | | | |exact H].
    + apply native_abort_evolves.
    + exact IH.
    + apply agrees_listeners_of.
    + unfold lids_unique. simpl. now rewrite Hl.
    + eapply guarded_same; [| |exact Hg]; simpl; assumption.
Qed.

Lemma dispatchEvent_guarded (fuel : nat) (st st' : State) (x : nat) :
  dispatchEvent fuel st x = Some st' ->
  lids_unique st -> guarded st -> guarded st'.
Proof.
  destruct fuel as [|fuel]; simpl; [discriminate|]. intros H Hu Hg.
  eapply (@fire_guarded fuel (native_abort fuel)); [| | | | |exact H]; auto.
  - apply native_abort_evolves.
  - apply native_abort_guarded.
  - apply agrees_listeners_of.
Qed.

Lemma controller_abort_guarded (fuel : nat) (st st' : State) (s : nat)
    (r : value) :
  AbortControllerPlus_abort fuel st s r = Some st' ->
  lids_unique st -> guarded st -> guarded st'.
Proof.
  apply controller_abort_via_guarded. apply native_abort_guarded.
Qed.

(** ** A signal that fires loses its listeners *)

(** [swept st st']: a native signal that reads as aborted in [st'] and did
    not in [st] has no listener left in [st']. *)
Definition swept (st st' : State) : Prop :=
  forall y,
    native_aborted (natives st y) = false ->
    native_aborted (natives st' y) = true ->
    forall l, In l (listeners st') -> target l <> y.

Lemma swept_same_natives (st st' : State) :
  natives st' = natives st -> swept st st'.
Proof. intros H y H1 H2. rewrite H in H2. congruence. Qed.

Lemma native_aborted_evolves (st st' : State) (y : nat) :
  evolves st st' ->
  native_aborted (natives st y) = true ->
  native_aborted (natives st' y) = true.
Proof.
  intros Hev H. unfold native_aborted in *.
  rewrite (ev_own_aborted Hev).
  destruct (own_aborted (natives st y)); [exact H|].
  now rewrite (ev_fired Hev y H).
Qed.

Lemma swept_trans (a b c : State) :
  evolves b c -> swept a b -> swept b c -> swept a c.
Proof.
  intros Hev Hab Hbc y Ha Hc l Hin.
  destruct (native_aborted (natives b y)) eqn:Eb.
  - apply (Hab y Ha Eb). now apply (ev_listeners Hev).
  - now apply (Hbc y Eb Hc).
Qed.

Section Swept.

Variable fuel : nat.
Variable native : State -> nat -> value -> option State.
Hypothesis native_evolves :
  forall st x r st', native st x r = Some st' -> evolves st st'.
Hypothesis native_swept :
  forall st x r st', native st x r = Some st' -> swept st st'.

Lemma run_closure_swept (st st' : State) (c : Closure) :
  run_closure fuel native st c = Some st' -> swept st st'.
Proof.
  destruct c as [p sg | s sg | s]; simpl.
  - unfold _doAbort. destruct (walk fuel st p) as [t|]; [|discriminate].
    intro H. injection H as <-. apply swept_same_natives.
    unfold invoke_reject.
    now destruct (thisReject_frame st (_reject (nodes st t)) (reason st sg))
      as (_ & Hx & _).
  - pose proof (translate_same st (reason st sg)) as Ht.
    destruct (translate st (reason st sg)) as [st1 r1]. simpl in Ht.
    unfold AbortControllerPlus_abort_via.
    pose proof (default_reason_same (log st1 (CallControllerAbort s r1)) r1)
      as Hd.
    destruct (default_reason (log st1 (CallControllerAbort s r1)) r1)
      as [st2 r2]. simpl in Hd.
    intro H. pose proof (@native_swept _ _ _ _ H) as Hsw.
    intros y H1 H2. apply (Hsw y); [|exact H2].
    destruct Ht as (_ & Hx1 & _), Hd as (_ & Hx2 & _).
    simpl in Hx2. now rewrite Hx2, Hx1.
  - intro H. injection H as <-. apply swept_same_natives. simpl.
    destruct (_timer (pluses st s)); reflexivity.
Qed.

Lemma fire_swept (snapshot : list Listener) :
  forall st st',
    fire (run_closure fuel native) snapshot st = Some st' -> swept st st'.
Proof.
  induction snapshot as [|l rest IH]; simpl; intros st st' H.
  - injection H as <-. now apply swept_same_natives.
  - destruct (registered st (lid l)); [|now apply IH].
    destruct (run_closure fuel native
                (log (remove_listener st (lid l)) (CallListener (lid l)))
                (body l)) as [st1|] eqn:E1; [|discriminate].
    pose proof (@evolves_fire native native_evolves fuel rest st1 st' H)
      as Hev.
    eapply swept_trans; [exact Hev | | now apply IH].
    apply run_closure_swept in E1.
    intros y H1 H2. now apply (E1 y).
Qed.

End Swept.

Lemma in_not_unregistered (st : State) (l : Listener) :
  In l (listeners st) -> registered st (lid l) = false -> False.
Proof.
  intros Hin Hr.
  assert (registered st (lid l) = true) by (apply registered_In; eauto).
  congruence.
Qed.

Lemma native_abort_swept (fuel : nat) :
  forall st x r st', native_abort fuel st x r = Some st' -> swept st st'.
Proof.
  induction fuel as [|fuel IH]; simpl; intros st x r st' H; [discriminate|].
  destruct (ns_aborted (natives st x)) eqn:Ea.
  - injection H as <-. now apply swept_same_natives.
  - pose proof (native_default_reason_same st r) as Hd.
    destruct (native_default_reason st r) as [st1 r1]. simpl in Hd.
    destruct Hd as (_ & Hx & _ & Hl & _).
    set (st2 := upd_native st1 x _) in H.
    pose proof (@evolves_fire _ (native_abort_evolves fuel) fuel _ st2 st' H)
      as Hev.
    intros y H1 H2 l Hin Ht.
    destruct (Nat.eq_dec y x) as [-> | Hne].
    + apply (@in_not_unregistered st' l Hin).
      eapply fire_unregisters; [exact H|].
      apply listeners_of_In. split; [|exact Ht].
      now apply (ev_listeners Hev).
    + refine (@fire_swept fuel (native_abort fuel) (native_abort_evolves fuel)
                IH _ _ _ H y _ H2 l Hin Ht).
      simpl. rewrite (upd_other _ _ Hne), Hx. exact H1.
Qed.

Lemma controller_abort_swept (fuel : nat) (st st' : State) (s : nat)
    (r : value) :
  AbortControllerPlus_abort fuel st s r = Some st' -> swept st st'.
Proof.
  unfold AbortControllerPlus_abort, AbortControllerPlus_abort_via.
  pose proof (default_reason_same (log st (CallControllerAbort s r)) r) as Hd.
  destruct (default_reason (log st (CallControllerAbort s r)) r) as [st1 r1].
  simpl in Hd. destruct Hd as (_ & Hx & _).
  intro H. apply native_abort_swept in H.
  intros y H1 H2. apply (H y); [|exact H2]. now rewrite Hx.
Qed.

(** ** Invariants of the reachable stores *)

Record Inv (st : State) : Prop := mkInv {
  inv_wf : wf st;
  inv_tinv : tinv st;
  inv_owner : forall e, In e (timers st) -> owner e < next_id st;
  inv_tids : forall e, In e (timers st) -> tid e < next_id st;
  inv_unique : lids_unique st;
  inv_lids : forall l, In l (listeners st) -> lid l < next_id st;
  inv_guarded : guarded st;
  inv_own : forall x, own_reason (natives st x) <> None ->
                      own_aborted (natives st x) = Some true
}.

Lemma Inv_init : Inv init.
Proof.
  constructor; simpl; try (intros; contradiction).
  - split; [intro n; simpl; split; auto | intros l p sg H; contradiction].
  - intro s. exact I.
  - constructor.
  - intros s H. discriminate.
Qed.

Lemma Inv_evolves (st st' : State) :
  Inv st -> evolves st st' -> guarded st' -> Inv st'.
Proof.
  intros [] Hev Hg. pose proof (ev_next Hev) as Hn. constructor.
  - eapply wf_evolves; eassumption.
  - now apply (ev_tinv Hev).
  - intros e He. apply (ev_timers Hev) in He. apply inv_owner0 in He. lia.
  - intros e He. apply (ev_timers Hev) in He. apply inv_tids0 in He. lia.
  - now apply (ev_nodup Hev).
  - intros l Hl. apply (ev_listeners Hev) in Hl. apply inv_lids0 in Hl. lia.
  - exact Hg.
  - intros x. rewrite (ev_own_aborted Hev), (ev_own_reason Hev). auto.
Qed.

(** Only the promises differ. *)
Lemma Inv_nodes (st st' : State) :
  Inv st ->
  listeners st' = listeners st -> timers st' = timers st ->
  pluses st' = pluses st -> natives st' = natives st ->
  next_id st <= next_id st' -> wf_nodes st' -> Inv st'.
Proof.
  intros [] Hl Ht Hp Hx Hn Hwf. constructor.
  - split; [exact Hwf|]. intros l p sg Hin Hb. rewrite Hl in Hin.
    destruct inv_wf0 as [_ Hbd]. specialize (Hbd l p sg Hin Hb). lia.
  - unfold tinv, armed_of. rewrite Ht, Hp. exact inv_tinv0.
  - intros e He. rewrite Ht in He. apply inv_owner0 in He. lia.
  - intros e He. rewrite Ht in He. apply inv_tids0 in He. lia.
  - unfold lids_unique. now rewrite Hl.
  - intros l Hin. rewrite Hl in Hin. apply inv_lids0 in Hin. lia.
  - eapply guarded_same; eassumption.
  - intro x. rewrite Hx. auto.
Qed.

Lemma NoDup_snoc_fresh (L : list Listener) (l : Listener) :
  NoDup (map lid L) -> (forall g, In g L -> lid g < lid l) ->
  NoDup (map lid (L ++ [l])).
Proof.
  intros Hnd Hlt. rewrite map_app. simpl.
  apply NoDup_app_remove_l with (l := []) || idtac.
  induction L as [|a L IH]; simpl.
  - constructor; [intros [] | constructor].
  - inversion Hnd as [|? ? Hnot Hrest]; subst. constructor.
    + intro Hin. apply in_app_or in Hin. destruct Hin as [Hin | [Heq | []]].
      * contradiction.
      * specialize (Hlt a (or_introl eq_refl)). lia.
    + apply IH; [exact Hrest|]. intros g Hg. apply Hlt. now right.
Qed.

Lemma Inv_addEventListener (st : State) (sg : SignalRef) (c : Closure) :
  Inv st ->
  (forall p sg', c = CDoAbort p sg' -> p <= next_id st) ->
  Inv (addEventListener st sg c).
Proof.
  intros [] Hc. destruct inv_wf0 as [Hn Hb]. constructor; simpl.
  - split; [exact Hn|]. intros l p sg' Hin Hbody. simpl in Hin.
    apply in_app_or in Hin. destruct Hin as [Hin | [<- | []]].
    + specialize (Hb l p sg' Hin Hbody). simpl. lia.
    + simpl in *. specialize (Hc p sg' Hbody). lia.
  - exact inv_tinv0.
  - intros e He. apply inv_owner0 in He. lia.
  - intros e He. apply inv_tids0 in He. lia.
  - unfold lids_unique. simpl. apply NoDup_snoc_fresh; [exact inv_unique0|].
    intros g Hg. simpl. now apply inv_lids0.
  - intros l Hin. apply in_app_or in Hin. destruct Hin as [Hin | [<- | []]].
    + apply inv_lids0 in Hin. lia.
    + simpl. lia.
  - intros s Hs. destruct (inv_guarded0 s Hs) as [l (H1 & H2 & H3)].
    exists l. simpl. split; [apply in_or_app; now left | auto].
  - exact inv_own0.
Qed.

Lemma Inv_new_AbortController (st : State) :
  Inv st -> Inv (fst (new_AbortController st)).
Proof.
  intros []. destruct inv_wf0 as [Hn Hb]. constructor; simpl.
  - split; [exact Hn|]. intros l p sg Hin Hbody.
    specialize (Hb l p sg Hin Hbody). simpl. lia.
  - exact inv_tinv0.
  - intros e He. apply inv_owner0 in He. lia.
  - intros e He. apply inv_tids0 in He. lia.
  - exact inv_unique0.
  - intros l Hin. apply inv_lids0 in Hin. lia.
  - exact inv_guarded0.
  - intro x. unfold upd. destruct (x =? next_id st); simpl; auto.
    intro H. now exfalso.
Qed.

(** A new [AbortSignalPlus] takes the next slot. *)
Lemma Inv_new_plus (st : State) (x : nat) :
  Inv st -> Inv (bump (upd_plus st (next_id st) (mkPlus x None None))).
Proof.
  intros []. destruct inv_wf0 as [Hn Hb]. constructor; simpl.
  - split; [exact Hn|]. intros l p sg Hin Hbody.
    specialize (Hb l p sg Hin Hbody). simpl. lia.
  - intro s. specialize (inv_tinv0 s). unfold armed_of in *. simpl.
    unfold upd. destruct (Nat.eqb_spec s (next_id st)) as [->|Hne];
      [|exact inv_tinv0].
    assert (Hnil : filter (fun e => owner e =? next_id st) (timers st) = []).
    { clear - inv_owner0. induction (timers st) as [|e l IH]; simpl; auto.
      destruct (Nat.eqb_spec (owner e) (next_id st)) as [Heq|_].
      - specialize (inv_owner0 e (or_introl eq_refl)). lia.
      - apply IH. intros e' He'. apply inv_owner0. now right. }
    now rewrite Hnil.
  - intros e He. apply inv_owner0 in He. lia.
  - intros e He. apply inv_tids0 in He. lia.
  - exact inv_unique0.
  - intros l Hin. apply inv_lids0 in Hin. lia.
  - intros s Hs. unfold hasTimeout in Hs. simpl in Hs. unfold upd in *.
    destruct (Nat.eqb_spec s (next_id st)) as [Heq|Hne];
      [simpl in Hs; discriminate|].
    destruct (inv_guarded0 s Hs) as [l (H1 & H2 & H3)]. exists l.
    simpl. rewrite (upd_other _ _ Hne). auto.
  - exact inv_own0.
Qed.

Lemma Inv_AbortControllerPlus_constructor (st : State) (c : option nat) :
  Inv st -> Inv (fst (AbortControllerPlus_constructor st c)).
Proof.
  intro H. unfold AbortControllerPlus_constructor.
  destruct c as [x|]; simpl.
  - now apply Inv_new_plus.
  - apply (@Inv_new_plus (fst (new_AbortController st)) (next_id st)).
    now apply Inv_new_AbortController.
Qed.

(** ** [timeout] *)

Lemma timeout_shape (st : State) (s : nat) (ms : Z) :
  let st' := fst (timeout st s ms) in
  snd (timeout st s ms) = s /\
  nodes st' = nodes st /\ natives st' = natives st /\ calls st' = calls st /\
  next_id st' = S (S (next_id st)) /\
  listeners st'
  = listeners st
    ++ [mkListener (S (next_id st)) (sp_signal (pluses st s)) (CClearTimer s)] /\
  timers st'
  = timers (clearTimeout st (_timer (pluses st s)))
    ++ [mkTimer (next_id st) s ms] /\
  (forall z, z <> s -> pluses st' z = pluses st z) /\
  pluses st' s = mkPlus (sp_signal (pluses st s)) (Some (next_id st)) (Some ms).
Proof.
  unfold timeout.
  destruct (_timer (pluses st s)) as [t|] eqn:Et; simpl;
    rewrite ?upd_same; simpl; rewrite ?upd_same; simpl;
    repeat split; try reflexivity;
    intros z Hz; now rewrite !(upd_other _ _ Hz).
Qed.

Lemma armed_of_app (st : State) (l1 l2 : list Timer) (z : nat) :
  filter (fun e => owner e =? z) (l1 ++ l2)
  = filter (fun e => owner e =? z) l1 ++ filter (fun e => owner e =? z) l2.
Proof. apply filter_app. Qed.

(** After [clearTimeout(this._timer)] no timer of the signal is armed. *)
Lemma clearTimeout_own (st : State) (s : nat) :
  tinv st ->
  filter (fun e => owner e =? s)
         (timers (clearTimeout st (_timer (pluses st s)))) = [].
Proof.
  intro H. specialize (H s). unfold armed_of in H.
  destruct (_timer (pluses st s)) as [t|] eqn:Et; simpl.
  - rewrite filter_swap.
    destruct (filter (fun e => owner e =? s) (timers st)) as [|e [|e' l]];
      simpl; auto; [|contradiction].
    injection H as ->. now rewrite Nat.eqb_refl.
  - destruct (filter (fun e => owner e =? s) (timers st)) as [|e [|e' l]];
      simpl; auto; [discriminate | contradiction].
Qed.

(** The timers of the other signals stay, or go. *)
Lemma clearTimeout_other (st : State) (t : option nat) (z : nat) :
  tinv st ->
  match filter (fun e => owner e =? z) (timers (clearTimeout st t)) with
  | [] => True
  | [e] => _timer (pluses st z) = Some (tid e)
  | _ => False
  end.
Proof.
  intro H. specialize (H z). unfold armed_of in H.
  destruct t as [t|]; simpl; [|exact H]. rewrite filter_swap.
  destruct (filter (fun e => owner e =? z) (timers st)) as [|e [|e' l]];
    simpl; auto; [|contradiction].
  destruct (negb (tid e =? t)); auto.
Qed.

Lemma clearTimeout_In (st : State) (t : option nat) (e : Timer) :
  In e (timers (clearTimeout st t)) -> In e (timers st).
Proof.
  destruct t as [t|]; simpl; [|auto]. intro H. apply filter_In in H. tauto.
Qed.

Lemma Inv_timeout (st : State) (s : nat) (ms : Z) :
  Inv st -> s < next_id st -> Inv (fst (timeout st s ms)).
Proof.
  intros [] Hs.
  destruct (timeout_shape st s ms)
    as (_ & Hnodes & Hx & Hc & Hi & Hl & Ht & Hpo & Hps).
  set (st' := fst (timeout st s ms)) in *. clearbody st'.
  destruct inv_wf0 as [Hn Hb]. constructor.
  - split; [intro n; rewrite Hnodes; apply Hn|].
    intros l p sg Hin Hbody. rewrite Hl in Hin. apply in_app_or in Hin.
    destruct Hin as [Hin | [<- | []]]; [|discriminate].
    specialize (Hb l p sg Hin Hbody). lia.
  - intro z. unfold armed_of. rewrite Ht, filter_app. simpl.
    destruct (Nat.eqb_spec s z) as [<-|Hne].
    + rewrite (clearTimeout_own s inv_tinv0), Hps. reflexivity.
    + rewrite app_nil_r, (Hpo z (not_eq_sym Hne)).
      now apply clearTimeout_other.
  - intros e He. rewrite Ht in He. apply in_app_or in He.
    destruct He as [He | [<- | []]]; [|simpl; lia].
    apply clearTimeout_In, inv_owner0 in He. lia.
  - intros e He. rewrite Ht in He. apply in_app_or in He.
    destruct He as [He | [<- | []]]; [|simpl; lia].
    apply clearTimeout_In, inv_tids0 in He. lia.
  - unfold lids_unique. rewrite Hl. apply NoDup_snoc_fresh; [exact inv_unique0|].
    intros g Hg. simpl. apply inv_lids0 in Hg. lia.
  - intros l Hin. rewrite Hl in Hin. apply in_app_or in Hin.
    destruct Hin as [Hin | [<- | []]]; [apply inv_lids0 in Hin; lia|].
    simpl. lia.
  - intros z Hz. rewrite Hl. destruct (Nat.eq_dec z s) as [->|Hne].
    + eexists. split; [apply in_or_app; right; now left|].
      simpl. now rewrite Hps.
    + unfold hasTimeout in Hz. rewrite (Hpo z Hne) in Hz.
      destruct (inv_guarded0 z Hz) as [l (H1 & H2 & H3)]. exists l.
      rewrite (Hpo z Hne). split; [apply in_or_app; now left | auto].
  - intro x. rewrite Hx. auto.
Qed.

(** ** A timer elapses *)

Lemma evolves_clearTimeout (st : State) (t : option nat) :
  evolves st (clearTimeout st t).
Proof.
  destruct t as [t|]; [|apply evolves_refl].
  constructor; simpl; intros; auto; try ev_calls_same.
  - apply filter_In in H. tauto.
  - intro z. apply (@clearTimeout_other st (Some t) z H).
Qed.

Lemma filter_nil_incl (A : Type) (f : A -> bool) (l l' : list A) :
  (forall a, In a l' -> In a l) -> filter f l = [] -> filter f l' = [].
Proof.
  intros Hincl Hnil.
  destruct (filter f l') as [|a r] eqn:E; [reflexivity|].
  assert (Ha : In a (filter f l')) by (rewrite E; now left).
  apply filter_In in Ha. destruct Ha as [Ha Hf].
  assert (Hin : In a (filter f l)) by (apply filter_In; auto).
  rewrite Hnil in Hin. contradiction.
Qed.

Lemma Inv_clear_field (st : State) (s : nat) :
  Inv st -> armed_of st s = [] ->
  Inv (upd_plus st s (mkPlus (sp_signal (pluses st s)) None None)).
Proof.
  intros [] Hnil. constructor; simpl; auto.
  - intro z. specialize (inv_tinv0 z). unfold armed_of in *. simpl.
    unfold upd. destruct (Nat.eqb_spec z s) as [->|Hne]; [|exact inv_tinv0].
    now rewrite Hnil.
  - intros z Hz. unfold hasTimeout in Hz. simpl in Hz. unfold upd in *.
    destruct (Nat.eqb_spec z s) as [Heq|Hne]; [simpl in Hz; discriminate|].
    destruct (inv_guarded0 z Hz) as [l (H1 & H2 & H3)]. exists l.
    simpl. rewrite (upd_other _ _ Hne). auto.
Qed.

Lemma find_tid (L : list Timer) (t : nat) (e : Timer) :
  find (fun e' => tid e' =? t) L = Some e -> In e L /\ tid e = t.
Proof.
  intro H. apply find_some in H. destruct H as [Hin Heq].
  split; [exact Hin | now apply Nat.eqb_eq].
Qed.

(** What [fire_timer] goes through when the timer is armed. *)
Lemma fire_timer_shape (fuel : nat) (st st' : State) (t : nat) (e : Timer) :
  find (fun e' => tid e' =? t) (timers st) = Some e ->
  fire_timer fuel st t = Some st' ->
  exists st3,
    AbortControllerPlus_abort fuel (bump (clearTimeout st (Some t)))
      (owner e)
      (VDOMException (next_id st) "TimeoutError" TimeoutError_message)
    = Some st3 /\
    st' = upd_plus st3 (owner e)
            (mkPlus (sp_signal (pluses st3 (owner e))) None None).
Proof.
  intros Hf H. unfold fire_timer in H. rewrite Hf in H. simpl in H.
  destruct (AbortControllerPlus_abort fuel _ (owner e) _) as [st3|] eqn:E;
    [|discriminate].
  injection H as <-. exists st3. split; reflexivity.
Qed.

Lemma Inv_fire_timer (fuel : nat) (st st' : State) (t : nat) :
  Inv st -> fire_timer fuel st t = Some st' -> Inv st'.
Proof.
  intros HI H.
  destruct (find (fun e' => tid e' =? t) (timers st)) as [e|] eqn:Hf.
  - destruct (fire_timer_shape _ _ _ Hf H) as [st3 [E ->]].
    destruct (find_tid _ _ Hf) as [Hin Ht].
    set (st1 := bump (clearTimeout st (Some t))) in *.
    assert (Hev1 : evolves st st1).
    { eapply evolves_trans; [apply evolves_clearTimeout | apply evolves_bump]. }
    assert (HI1 : Inv st1).
    { apply (Inv_evolves HI Hev1).
      eapply guarded_same; [| |apply (inv_guarded HI)]; reflexivity. }
    pose proof (controller_abort_evolves _ _ _ _ E) as Hev3.
    assert (HI3 : Inv st3).
    { apply (Inv_evolves HI1 Hev3).
      eapply controller_abort_guarded;
        [exact E | apply (inv_unique HI1) | apply (inv_guarded HI1)]. }
    apply Inv_clear_field; [exact HI3|].
    unfold armed_of.
    apply filter_nil_incl with (l := timers st1); [apply (ev_timers Hev3)|].
    simpl. rewrite filter_swap.
    pose proof (inv_tinv HI (owner e)) as Htinv. unfold armed_of in Htinv.
    assert (Hine : In e (filter (fun e' => owner e' =? owner e) (timers st))).
    { apply filter_In. split; [exact Hin | apply Nat.eqb_refl]. }
    destruct (filter (fun e' => owner e' =? owner e) (timers st))
      as [|e1 [|e2 l]]; simpl; auto; [|contradiction].
    destruct Hine as [-> | []]. now rewrite Ht, Nat.eqb_refl.
  - unfold fire_timer in H. rewrite Hf in H. now injection H as <-.
Qed.

(** ** Every operation keeps the invariants *)

Lemma swept_prefix (a b c : State) :
  natives b = natives a -> swept b c -> swept a c.
Proof. intros Hx H y H1 H2. apply (H y); [now rewrite Hx | exact H2]. Qed.

Lemma swept_suffix (a b c : State) :
  swept a b -> natives c = natives b -> listeners c = listeners b ->
  swept a c.
Proof.
  intros H Hx Hl y H1 H2 l Hin. rewrite Hx in H2. rewrite Hl in Hin.
  now apply (H y H1 H2).
Qed.

(** What an operation leaves of the signals when it fires none. *)
Definition quiet (st st' : State) : Prop :=
  natives st' = natives st /\
  (forall s, sp_signal (pluses st' s) = sp_signal (pluses st s)) /\
  next_id st <= next_id st'.

(** What every operation guarantees. *)
Definition step_ok (st st' : State) : Prop :=
  Inv st' /\ swept st st' /\
  (forall s, s < next_id st ->
             sp_signal (pluses st' s) = sp_signal (pluses st s)) /\
  next_id st <= next_id st'.

Lemma quiet_ok (st st' : State) : Inv st' -> quiet st st' -> step_ok st st'.
Proof.
  intros HI (Hx & Hsp & Hn). split; [exact HI|].
  split; [now apply swept_same_natives|]. split; [auto | exact Hn].
Qed.

Lemma dispatch_ok (st st' : State) :
  Inv st -> evolves st st' -> guarded st' -> swept st st' -> step_ok st st'.
Proof.
  intros HI Hev Hg Hsw. split; [eapply Inv_evolves; eassumption|].
  split; [exact Hsw|]. split; [intros; apply (ev_sp Hev) | apply (ev_next Hev)].
Qed.

Lemma thisReject_Inv (st : State) (p : nat) (r : value) :
  Inv st -> Inv (thisReject st p r) /\ quiet st (thisReject st p r).
Proof.
  intro HI. destruct (thisReject_frame st p r) as (Hl & Hx & Hp & Ht & Hn).
  split.
  - apply (Inv_evolves HI (evolves_thisReject st p r)).
    eapply guarded_same; [exact Hl | exact Hp | apply (inv_guarded HI)].
  - split; [exact Hx|]. split; [intro s; now rewrite Hp | lia].
Qed.

Lemma doAbort_Inv (fuel : nat) (st st' : State) (p : nat) (r : value) :
  Inv st -> _doAbort fuel st p r = Some st' -> Inv st' /\ quiet st st'.
Proof.
  intros HI H. unfold _doAbort in H.
  destruct (walk fuel st p) as [t|]; [|discriminate].
  injection H as <-. now apply thisReject_Inv.
Qed.

Lemma listen_Inv (fuel : nat) (st st' : State) (p : nat) (sg : SignalRef) :
  Inv st -> p <= next_id st -> listen fuel st p sg = Some st' ->
  Inv st' /\ quiet st st'.
Proof.
  intros HI Hp H. unfold listen in H.
  set (st1 := upd_node st p _) in H.
  assert (HI1 : Inv st1).
  { apply (Inv_nodes HI); try reflexivity; try (simpl; lia).
    intro q. simpl. unfold upd. destruct (Nat.eqb_spec q p); subst; simpl;
      apply (proj1 (inv_wf HI)). }
  destruct (aborted st1 sg).
  - destruct (doAbort_Inv _ _ _ HI1 H) as [HI' (Hx & Hsp & Hn)].
    split; [exact HI'|]. split; [exact Hx|]. split; [exact Hsp | exact Hn].
  - injection H as <-. split.
    + apply Inv_addEventListener; [exact HI1|].
      intros p' sg' Heq. injection Heq as <- _. exact Hp.
    + split; [reflexivity|]. split; [reflexivity | simpl; lia].
Qed.

Lemma run_executor_Inv (st : State) (p : nat) (executor : list ExecutorCall) :
  Inv st ->
  Inv (run_executor st p executor) /\ quiet st (run_executor st p executor).
Proof.
  intro HI. unfold run_executor.
  pose proof (run_executor_frame p executor (log st (CallExecutor p))) as H.
  simpl in H.
  destruct H as (Hl & Hx & Hp & Ht & Hn & _ & Hpar & Hrej & _).
  split.
  - apply (Inv_nodes HI); auto; try lia.
    intro q. rewrite Hpar, Hrej. apply (proj1 (inv_wf HI)).
  - split; [exact Hx|]. split; [intro s; now rewrite Hp | lia].
Qed.

Lemma quiet_trans (a b c : State) : quiet a b -> quiet b c -> quiet a c.
Proof.
  intros (H1 & H2 & H3) (K1 & K2 & K3). split; [now rewrite K1|].
  split; [intro s; now rewrite K2 | lia].
Qed.

Lemma constructor_Inv (fuel : nat) (st st' : State)
    (executor : list ExecutorCall) (signal : option SignalRef) (p : nat) :
  Inv st -> constructor fuel st executor signal = Some (st', p) ->
  Inv st' /\ quiet st st' /\ p = next_id st /\ next_id st < next_id st' /\
  _parent (nodes st' p) = p.
Proof.
  intros HI H. unfold constructor in H.
  set (this := next_id st) in *.
  set (st1 := bump (upd_node st this (mkNode this this false None false Pending)))
    in *.
  assert (HI1 : Inv st1).
  { apply (Inv_nodes HI); try reflexivity; try (simpl; lia).
    intro q. simpl. unfold upd. destruct (Nat.eqb_spec q this); subst; simpl;
      [split; auto | apply (proj1 (inv_wf HI))]. }
  assert (Hq1 : quiet st st1).
  { split; [reflexivity|]. split; [reflexivity | simpl; lia]. }
  assert (Hpar1 : _parent (nodes st1 this) = this)
    by (simpl; now rewrite upd_same).
  assert (Hmid : exists st2,
             match signal with
             | Some sg => listen fuel st1 this sg
             | None => Some st1
             end = Some st2 /\ Inv st2 /\ quiet st1 st2 /\
             _parent (nodes st2 this) = this).
  { destruct signal as [sg|].
    - destruct (listen fuel st1 this sg) as [st2|] eqn:El; [|discriminate].
      exists st2. split; [reflexivity|].
      destruct (@listen_Inv fuel st1 st2 this sg HI1) as [HI2 Hq2];
        [simpl; unfold this; lia | exact El |].
      split; [exact HI2|]. split; [exact Hq2|].
      unfold listen in El. set (st1' := upd_node st1 this _) in El.
      assert (Hp' : _parent (nodes st1' this) = this).
      { simpl. rewrite !upd_same. reflexivity. }
      destruct (aborted st1' sg).
      + apply evolves_doAbort in El. now rewrite (ev_parent El).
      + injection El as <-. exact Hp'.
    - exists st1. split; [reflexivity|]. split; [exact HI1|].
      split; [|exact Hpar1]. split; [reflexivity|].
      split; [reflexivity | lia]. }
  destruct Hmid as [st2 (E2 & HI2 & Hq2 & Hpar2)]. rewrite E2 in H.
  injection H as <- <-.
  destruct (run_executor_Inv this executor HI2) as [HI3 Hq3].
  split; [exact HI3|].
  split; [eapply quiet_trans; [exact Hq1|]; eapply quiet_trans; eassumption|].
  split; [reflexivity|].
  split.
  - destruct Hq2 as (_ & _ & Hn2), Hq3 as (_ & _ & Hn3). simpl in *. lia.
  - unfold run_executor.
    pose proof (run_executor_frame this executor (log st2 (CallExecutor this)))
      as Hf. simpl in Hf.
    destruct Hf as (_ & _ & _ & _ & _ & _ & Hpar & _). now rewrite Hpar.
Qed.

Lemma then_Inv (fuel : nat) (st st' : State) (this p : nat) :
  Inv st -> this < next_id st -> then_ fuel st this = Some (st', p) ->
  Inv st' /\ quiet st st'.
Proof.
  intros HI Hthis H. unfold then_ in H.
  destruct (constructor fuel st [] None) as [[st1 q]|] eqn:E; [|discriminate].
  injection H as <- <-.
  destruct (@constructor_Inv fuel st st1 [] None q HI E)
    as (HI1 & Hq1 & Hq & Hn & _).
  split.
  - apply (Inv_nodes HI1); try reflexivity; try (simpl; lia).
    intro n. simpl. unfold upd.
    destruct (Nat.eqb_spec n q) as [->|Hne]; simpl;
      [|apply (proj1 (inv_wf HI1))].
    split; [lia | apply (proj1 (inv_wf HI1))].
  - destruct Hq1 as (Hx & Hsp & Hn1). split; [exact Hx|].
    split; [exact Hsp | exact Hn1].
Qed.

Lemma executor_call_Inv (st : State) (p : nat) (c : ExecutorCall) :
  Inv st ->
  let st' := match c with
             | ExecResolve v => executor_resolve st p v
             | ExecReject r => executor_reject st p r
             end in
  Inv st' /\ quiet st st'.
Proof.
  intros HI st'. pose proof (executor_call_frame st p c) as H. fold st' in H.
  destruct H as (Hl & Hx & Hp & Ht & Hn & _ & Hpar & Hrej & _).
  split.
  - apply (Inv_nodes HI); auto; try lia.
    intro q. rewrite Hpar, Hrej. apply (proj1 (inv_wf HI)).
  - split; [exact Hx|]. split; [intro s; now rewrite Hp | lia].
Qed.

Lemma controller_abort_ok (fuel : nat) (st st' : State) (s : nat) (r : value) :
  Inv st -> AbortControllerPlus_abort fuel st s r = Some st' ->
  step_ok st st'.
Proof.
  intros HI H. apply dispatch_ok; [exact HI | | |].
  - eapply controller_abort_evolves; exact H.
  - eapply controller_abort_guarded;
      [exact H | apply (inv_unique HI) | apply (inv_guarded HI)].
  - eapply controller_abort_swept; exact H.
Qed.

Lemma native_abort_ok (fuel : nat) (st st' : State) (x : nat) (r : value) :
  Inv st -> native_abort fuel st x r = Some st' -> step_ok st st'.
Proof.
  intros HI H. apply dispatch_ok; [exact HI | | |].
  - eapply native_abort_evolves; exact H.
  - eapply native_abort_guarded;
      [exact H | apply (inv_unique HI) | apply (inv_guarded HI)].
  - eapply native_abort_swept; exact H.
Qed.

Lemma step_ok_prefix (a b c : State) :
  quiet a b -> step_ok b c -> step_ok a c.
Proof.
  intros (Hx & Hsp & Hn) (HI & Hsw & Hsp' & Hn').
  split; [exact HI|]. split; [eapply swept_prefix; eassumption|].
  split; [|lia]. intros s Hs. rewrite Hsp'; [apply Hsp | lia].
Qed.

Lemma same_but_next_quiet (st st1 : State) :
  same_but_next st st1 -> quiet st st1.
Proof.
  intros (_ & Hx & Hp & _ & _ & _ & Hi). split; [exact Hx|].
  split; [intro s; now rewrite Hp | destruct Hi; lia].
Qed.

Lemma same_but_next_Inv (st st1 : State) :
  same_but_next st st1 -> Inv st -> Inv st1.
Proof.
  intros Hs HI. apply (Inv_evolves HI (same_but_next_evolves Hs)).
  destruct Hs as (_ & _ & Hp & Hl & _).
  eapply guarded_same; [exact Hl | exact Hp | apply (inv_guarded HI)].
Qed.

Lemma listen_signal_ok (fuel : nat) (st st' : State) (s : nat)
    (src : SignalRef) (b : bool) :
  Inv st -> _listen fuel st s src = Some (st', b) -> step_ok st st'.
Proof.
  intros HI H. unfold _listen in H. destruct (aborted st src).
  - pose proof (translate_same st (reason st src)) as Hs.
    destruct (translate st (reason st src)) as [st1 r1]. simpl in Hs.
    destruct (AbortControllerPlus_abort fuel st1 s r1) as [st2|] eqn:E;
      [|discriminate].
    injection H as <- <-.
    eapply step_ok_prefix; [apply same_but_next_quiet; exact Hs|].
    eapply controller_abort_ok; [|exact E].
    eapply same_but_next_Inv; eassumption.
  - injection H as <- <-. apply quiet_ok.
    + apply Inv_addEventListener; [exact HI | discriminate].
    + split; [reflexivity|]. split; [reflexivity | simpl; lia].
Qed.

Lemma step_ok_trans_quiet (a b c : State) :
  step_ok a b -> quiet b c -> Inv c -> listeners c = listeners b ->
  step_ok a c.
Proof.
  intros (_ & Hsw & Hsp & Hn) (Hx & Hsp' & Hn') HI Hl.
  split; [exact HI|]. split; [eapply swept_suffix; eassumption|].
  split; [|lia]. intros s Hs. rewrite Hsp'. now apply Hsp.
Qed.

Lemma any_ok (fuel : nat) (s : nat) (signals : list SignalRef) :
  forall st st' this,
    Inv st -> any fuel st s signals = Some (st', this) -> step_ok st st'.
Proof.
  induction signals as [|src rest IH]; simpl; intros st st' this HI H.
  - injection H as <- <-. apply quiet_ok; [exact HI|].
    split; [reflexivity|]. split; [reflexivity | lia].
  - destruct (_listen fuel st s src) as [[st1 b]|] eqn:E; [|discriminate].
    pose proof (listen_signal_ok _ _ _ HI E) as Hok.
    destruct b.
    + now injection H as <- <-.
    + (* the source had not fired: a listener was added, nothing else *)
      unfold _listen in E. destruct (aborted st src) eqn:Ea.
      * destruct (translate st (reason st src)) as [st0 r0].
        destruct (AbortControllerPlus_abort fuel st0 s r0); discriminate.
      * injection E as <-.
        eapply step_ok_prefix; [|apply (IH _ _ _ (proj1 Hok) H)].
        split; [reflexivity|]. split; [reflexivity | simpl; lia].
Qed.

Lemma AbortSignalPlus_from_ok (fuel : nat) (st st' : State)
    (signal : SignalRef) (s : nat) :
  Inv st -> AbortSignalPlus_from fuel st signal = Some (st', s) ->
  step_ok st st'.
Proof.
  intros HI H. destruct signal as [s0 | x]; simpl in H.
  - injection H as <- <-. apply quiet_ok; [exact HI|].
    split; [reflexivity|]. split; [reflexivity | lia].
  - unfold one in H.
    set (st1 := bump (upd_plus _ _ _)) in H.
    destruct (_listen fuel st1 _ (SNative x)) as [[st2 b]|] eqn:E;
      [|discriminate].
    injection H as <- <-.
    assert (HI1 : Inv st1)
      by apply (Inv_AbortControllerPlus_constructor None HI).
    destruct (listen_signal_ok _ _ _ HI1 E) as (HI2 & Hsw & Hsp & Hn).
    split; [exact HI2|]. split; [|split].
    + intros y H1 H2. apply (Hsw y); [|exact H2].
      simpl. unfold upd. destruct (y =? next_id st); [reflexivity | exact H1].
    + intros s Hs. rewrite Hsp; [|simpl; lia]. simpl.
      unfold upd. destruct (Nat.eqb_spec s (S (next_id st))); [lia|reflexivity].
    + simpl in Hn. lia.
Qed.

Lemma fire_timer_ok (fuel : nat) (st st' : State) (t : nat) :
  Inv st -> fire_timer fuel st t = Some st' -> step_ok st st'.
Proof.
  intros HI H. pose proof (Inv_fire_timer _ _ HI H) as HI'.
  destruct (find (fun e' => tid e' =? t) (timers st)) as [e|] eqn:Hf.
  - destruct (fire_timer_shape _ _ _ Hf H) as [st3 [E ->]].
    set (st1 := bump (clearTimeout st (Some t))) in *.
    assert (HI1 : Inv st1).
    { apply (@Inv_evolves st st1 HI).
      - eapply evolves_trans; [apply evolves_clearTimeout | apply evolves_bump].
      - eapply guarded_same; [| |apply (inv_guarded HI)]; reflexivity. }
    pose proof (controller_abort_ok _ _ _ HI1 E) as Hok.
    assert (Hq : quiet st st1).
    { split; [reflexivity|]. split; [reflexivity | simpl; lia]. }
    pose proof (step_ok_prefix Hq Hok) as (_ & Hsw & Hsp & Hn).
    split; [exact HI'|]. split; [|split].
    + eapply swept_suffix; [exact Hsw | reflexivity | reflexivity].
    + intros s Hs. simpl. unfold upd.
      destruct (Nat.eqb_spec s (owner e)) as [->|Hne]; simpl; now apply Hsp.
    + exact Hn.
  - unfold fire_timer in H. rewrite Hf in H. injection H as <-.
    apply quiet_ok; [exact HI|].
    split; [reflexivity|]. split; [reflexivity | lia].
Qed.

Lemma dispatchEvent_swept (fuel : nat) (st st' : State) (x : nat) :
  dispatchEvent fuel st x = Some st' -> swept st st'.
Proof.
  destruct fuel as [|fuel]; simpl; [discriminate|].
  apply (@fire_swept fuel (native_abort fuel)).
  - apply native_abort_evolves.
  - apply native_abort_swept.
Qed.

(** Only the native signals differ. *)
Lemma Inv_natives (st st' : State) :
  Inv st ->
  nodes st' = nodes st -> listeners st' = listeners st ->
  timers st' = timers st -> pluses st' = pluses st ->
  next_id st' = next_id st ->
  (forall x, own_reason (natives st' x) <> None ->
             own_aborted (natives st' x) = Some true) ->
  Inv st'.
Proof.
  intros [] Hn Hl Ht Hp Hi Hown. destruct inv_wf0 as [Hw Hb]. constructor.
  - split; [intro n; rewrite Hn; apply Hw|].
    intros l p sg Hin. rewrite Hl in Hin. rewrite Hi. now apply Hb.
  - unfold tinv, armed_of. rewrite Ht, Hp. exact inv_tinv0.
  - intros e He. rewrite Ht in He. rewrite Hi. auto.
  - intros e He. rewrite Ht in He. rewrite Hi. auto.
  - unfold lids_unique. now rewrite Hl.
  - intros l Hin. rewrite Hl in Hin. rewrite Hi. auto.
  - eapply guarded_same; eassumption.
  - exact Hown.
Qed.

Lemma abort_ok (fuel : nat) (st st' : State) (p : nat) (r : value) :
  Inv st -> result_state (abort fuel st p r) = Some st' -> step_ok st st'.
Proof.
  intros HI H. unfold abort in H.
  pose proof (default_reason_same st r) as Hs.
  destruct (default_reason st r) as [st1 r1]. simpl in Hs.
  pose proof (same_but_next_Inv Hs HI) as HI1.
  apply (step_ok_prefix (same_but_next_quiet Hs)).
  destruct (_doAbort fuel st1 p r1) as [st2|] eqn:E2; [|discriminate].
  destruct (doAbort_Inv _ _ _ HI1 E2) as [HI2 Hq2].
  apply (step_ok_prefix Hq2).
  assert (Hrefl : step_ok st2 st2).
  { apply quiet_ok; [exact HI2|].
    split; [reflexivity|]. split; [reflexivity | lia]. }
  destruct (_signal (nodes st2 p)) as [[s | x]|];
    [| |simpl in H; injection H as <-; exact Hrefl].
  - destruct (AbortControllerPlus_abort fuel st2 s r1) as [st3|] eqn:E3;
      simpl in H; [|discriminate].
    injection H as <-. eapply controller_abort_ok; eassumption.
  - unfold defineProperty_aborted, defineProperty_reason in H.
    pose proof (inv_own HI2 x) as Hown.
    destruct (own_aborted (natives st2 x)) as [b|] eqn:Eoa.
    + (* the property [aborted] was forced before *)
      destruct b; simpl in H; [|injection H as <-; exact Hrefl].
      destruct (own_reason (natives st2 x)) as [v0|] eqn:Eor; simpl in H.
      * destruct (SameValue r1 v0).
        -- (* the same values again: the signal is as it was *)
           destruct (dispatchEvent fuel (upd_native st2 x (natives st2 x)) x)
             as [st3|] eqn:E3; simpl in H; [|discriminate].
           injection H as <-.
           set (st2' := upd_native st2 x (natives st2 x)) in *.
           assert (Hsame : forall y, natives st2' y = natives st2 y).
           { intro y. simpl. unfold upd.
             destruct (Nat.eqb_spec y x); subst; reflexivity. }
           assert (HI2' : Inv st2').
           { apply (@Inv_natives st2 st2' HI2); try reflexivity.
             intro y. rewrite Hsame. apply (inv_own HI2). }
           pose proof (dispatchEvent_evolves _ _ _ E3) as Hev.
           split; [|split; [|split]].
           ++ apply (Inv_evolves HI2' Hev).
              eapply dispatchEvent_guarded;
                [exact E3 | apply (inv_unique HI2') | apply (inv_guarded HI2')].
           ++ intros y H1 H2. apply (@dispatchEvent_swept fuel st2' st3 x E3 y); [|exact H2].
              now rewrite Hsame.
           ++ intros s _. apply (ev_sp Hev).
           ++ apply (ev_next Hev).
        -- injection H as <-.
           set (st2' := upd_native st2 x (natives st2 x)) in *.
           assert (Hsame : forall y, natives st2' y = natives st2 y).
           { intro y. simpl. unfold upd.
             destruct (Nat.eqb_spec y x); subst; reflexivity. }
           split; [|split; [|split]].
           ++ apply (@Inv_natives st2 st2' HI2); try reflexivity.
              intro y. rewrite Hsame. apply (inv_own HI2).
           ++ intros y H1 H2. rewrite Hsame in H2. congruence.
           ++ reflexivity.
           ++ simpl. lia.
      * (* [aborted] was forced, [reason] was not: cannot be *)
        set (n2 := mkNative _ _ _ _) in H.
        destruct (dispatchEvent fuel (upd_native st2 x n2) x) as [st3|] eqn:E3;
          simpl in H; [|discriminate].
        injection H as <-.
        set (st2' := upd_native st2 x n2) in *.
        assert (HI2' : Inv st2').
        { apply (@Inv_natives st2 st2' HI2); try reflexivity.
          intro y. simpl. unfold upd.
          destruct (Nat.eqb_spec y x); subst; [|apply (inv_own HI2)].
          intros _. simpl. exact Eoa. }
        pose proof (dispatchEvent_evolves _ _ _ E3) as Hev.
        split; [|split; [|split]].
        -- apply (Inv_evolves HI2' Hev).
           eapply dispatchEvent_guarded;
             [exact E3 | apply (inv_unique HI2') | apply (inv_guarded HI2')].
        -- intros y H1 H2. apply (@dispatchEvent_swept fuel st2' st3 x E3 y); [|exact H2].
           simpl. unfold upd.
           destruct (Nat.eqb_spec y x); subst; [|exact H1].
           unfold native_aborted in *. simpl. now rewrite Eoa in H1.
        -- intros s _. apply (ev_sp Hev).
        -- apply (ev_next Hev).
    + (* no property was forced on the signal: both are defined now *)
      assert (Eor : own_reason (natives st2 x) = None).
      { destruct (own_reason (natives st2 x)) eqn:Eor; [|reflexivity].
        exfalso.
        assert (Hc : @None bool = Some true) by (apply Hown; discriminate).
        discriminate. }
      simpl in H. rewrite Eor in H.
      set (n2 := mkNative _ _ (Some true) (Some r1)) in H.
      destruct (dispatchEvent fuel (upd_native st2 x n2) x) as [st3|] eqn:E3;
        simpl in H; [|discriminate].
      injection H as <-.
      set (st2' := upd_native st2 x n2) in *.
      assert (HI2' : Inv st2').
      { apply (@Inv_natives st2 st2' HI2); try reflexivity.
        intro y. simpl. unfold upd.
        destruct (Nat.eqb_spec y x); subst; [|apply (inv_own HI2)].
        reflexivity. }
      pose proof (dispatchEvent_evolves _ _ _ E3) as Hev.
      split; [|split; [|split]].
      * apply (Inv_evolves HI2' Hev).
        eapply dispatchEvent_guarded;
          [exact E3 | apply (inv_unique HI2') | apply (inv_guarded HI2')].
      * intros y H1 H2 l Hin Ht.
        destruct (Nat.eq_dec y x) as [->|Hne].
        -- (* the signal itself: its listeners have all been called *)
           destruct (@dispatchEvent_calls_listeners fuel st2' st3 x E3)
             as [d [_ Hall]].
           destruct (Hall l (ev_listeners Hev l Hin) Ht) as [_ Hun].
           exact (in_not_unregistered _ _ Hin Hun).
        -- refine (@dispatchEvent_swept fuel st2' st3 x E3 y _ H2 l Hin Ht).
           simpl. now rewrite (upd_other _ _ Hne).
      * intros s _. apply (ev_sp Hev).
      * apply (ev_next Hev).
Qed.

Lemma option_map_fst (A : Type) (o : option (State * A)) (st' : State) :
  option_map fst o = Some st' -> exists a, o = Some (st', a).
Proof.
  destruct o as [[st a]|]; simpl; [|discriminate].
  intro H. injection H as <-. eauto.
Qed.

Lemma quiet_refl (st : State) : quiet st st.
Proof. split; [reflexivity|]. split; [reflexivity | lia]. Qed.

Theorem step_keeps_invariants (fuel : nat) (st st' : State) (op : Op) :
  Inv st -> valid st op -> step fuel st op = Some st' -> step_ok st st'.
Proof.
  intros HI Hv H. destruct op; cbv beta iota delta [step valid] in H, Hv.
  - (* new AbortController() *)
    injection H as <-. split; [now apply Inv_new_AbortController|].
    split; [|split; [reflexivity | simpl; lia]].
    intros y H1 H2. simpl in H2. unfold upd in H2.
    destruct (y =? next_id st); [discriminate | congruence].
  - (* new AbortControllerPlus(controller?) *)
    injection H as <-.
    split; [now apply Inv_AbortControllerPlus_constructor|].
    unfold AbortControllerPlus_constructor.
    destruct controller as [x|]; simpl.
    + split; [now apply swept_same_natives|].
      split; [|lia]. intros s Hs. unfold upd.
      destruct (Nat.eqb_spec s (next_id st)); [lia | reflexivity].
    + split; [|split; [|lia]].
      * intros y H1 H2. simpl in H2. unfold upd in H2.
        destruct (y =? next_id st); [discriminate | congruence].
      * intros s Hs. unfold upd.
        destruct (Nat.eqb_spec s (S (next_id st))); [lia | reflexivity].
  - eapply controller_abort_ok; eassumption.
  - eapply native_abort_ok; eassumption.
  - (* timeout *)
    assert (E : fst (timeout st s milliseconds) = st') by (now injection H).
    clear H. subst st'.
    destruct (timeout_shape st s milliseconds)
      as (_ & _ & Hx & _ & Hi & _ & _ & Hpo & Hps).
    apply quiet_ok; [now apply Inv_timeout|].
    split; [exact Hx|]. split; [|rewrite Hi; lia].
    intro z. destruct (Nat.eq_dec z s) as [->|Hne];
      [now rewrite Hps | now rewrite (Hpo z Hne)].
  - eapply fire_timer_ok; eassumption.
  - (* one *)
    apply option_map_fst in H. destruct H as [a H]. unfold one in H.
    destruct (_listen fuel st s signal) as [[st1 b]|] eqn:E; [|discriminate].
    injection H as <- _. eapply listen_signal_ok; eassumption.
  - (* any *)
    apply option_map_fst in H. destruct H as [a H].
    eapply any_ok; eassumption.
  - (* AbortSignalPlus.from *)
    apply option_map_fst in H. destruct H as [a H].
    eapply AbortSignalPlus_from_ok; eassumption.
  - (* the constructor *)
    apply option_map_fst in H. destruct H as [a H].
    destruct (@constructor_Inv fuel st st' executor signal a HI H)
      as (HI' & Hq & _).
    now apply quiet_ok.
  - (* AbortablePromise.from *)
    apply option_map_fst in H. destruct H as [a H].
    destruct promise as [p|]; simpl in H.
    + injection H as <- _. apply quiet_ok; [exact HI | apply quiet_refl].
    + destruct (@constructor_Inv fuel st st' [] signal a HI H)
        as (HI' & Hq & _).
      now apply quiet_ok.
  - (* then *)
    apply option_map_fst in H. destruct H as [a H].
    destruct (@then_Inv fuel st st' p a HI Hv H) as [HI' Hq].
    now apply quiet_ok.
  - (* listen *)
    destruct Hv as [Hp _].
    destruct (@listen_Inv fuel st st' p signal HI) as [HI' Hq];
      [lia | exact H | now apply quiet_ok].
  - eapply abort_ok; eassumption.
  - (* resolve, later *)
    injection H as <-.
    destruct (executor_call_Inv p (ExecResolve v) HI) as [HI' Hq].
    now apply quiet_ok.
  - (* reject, later *)
    injection H as <-.
    destruct (executor_call_Inv p (ExecReject r) HI) as [HI' Hq].
    now apply quiet_ok.
Qed.

Theorem reachable_Inv (st : State) : reachable st -> Inv st.
Proof.
  induction 1 as [|st fuel op st' _ IH Hv Hs]; [apply Inv_init|].
  now destruct (@step_keeps_invariants fuel st st' op IH Hv Hs).
Qed.

(** ** One timer per signal *)

Lemma tinv_at_most_one (st : State) (s : nat) :
  tinv st ->
  List.length (armed_of st s) <= 1 /\
  (hasTimeout st s = false -> armed_of st s = []).
Proof.
  intro H. specialize (H s). unfold hasTimeout.
  destruct (armed_of st s) as [|e [|e' l]]; simpl; auto; [|contradiction].
  split; [lia|]. rewrite H. discriminate.
Qed.

Lemma armed_after_timeout (st : State) (s : nat) (ms : Z) :
  tinv st -> armed_of (fst (timeout st s ms)) s = [mkTimer (next_id st) s ms].
Proof.
  intro H. destruct (timeout_shape st s ms) as (_ & _ & _ & _ & _ & _ & Ht & _).
  unfold armed_of. rewrite Ht, filter_app, (clearTimeout_own s H). simpl.
  now rewrite Nat.eqb_refl.
Qed.

Lemma reachable_timeout (st : State) (s : nat) (ms : Z) :
  reachable st -> s < next_id st -> reachable (fst (timeout st s ms)).
Proof.
  intros Hr Hs. apply (@reach_step st 0 (OpTimeout s ms)); auto.
Qed.

Lemma find_none_all (A : Type) (f : A -> bool) (l : list A) :
  (forall a, In a l -> f a = false) -> find f l = None.
Proof.
  induction l as [|a l IH]; simpl; intro H; [reflexivity|].
  rewrite (H a (or_introl eq_refl)). apply IH. intros b Hb. apply H. now right.
Qed.

Lemma find_app_last (A : Type) (f : A -> bool) (l : list A) (a : A) :
  (forall b, In b l -> f b = false) -> f a = true ->
  find f (l ++ [a]) = Some a.
Proof.
  induction l as [|b l IH]; simpl; intros H Ha; [now rewrite Ha|].
  rewrite (H b (or_introl eq_refl)). apply IH; [|exact Ha].
  intros c Hc. apply H. now right.
Qed.

(** The timer [timeout] has just armed elapses on a signal that has not
    fired. *)
Lemma fire_new_timer (fuel : nat) (st : State) (s : nat) (ms : Z) :
  Inv st -> s < next_id st ->
  let stB := fst (timeout st s ms) in
  ample stB fuel -> unfired stB (SPlus s) ->
  exists st',
    fire_timer fuel stB (next_id st) = Some st' /\
    aborted st' (SPlus s) = true /\
    reason st' (SPlus s)
    = VDOMException (next_id stB) "TimeoutError" TimeoutError_message /\
    hasTimeout st' s = false /\ armed_of st' s = [].
Proof.
  intros HI Hs stB.
  pose proof (Inv_timeout ms HI Hs) as HIB. fold stB in HIB.
  pose proof (armed_after_timeout s ms (inv_tinv HI)) as Harmed.
  fold stB in Harmed.
  destruct (timeout_shape st s ms) as (_ & _ & _ & _ & Hi & _ & Ht & _ & Hps).
  fold stB in Hi, Ht, Hps. clearbody stB.
  intros Hf (U1 & U2 & U3). simpl in U1, U2, U3.
  set (T := mkTimer (next_id st) s ms) in *.
  assert (Hfind : find (fun e' => tid e' =? next_id st) (timers stB) = Some T).
  { rewrite Ht. apply find_app_last; [|apply Nat.eqb_refl].
    intros b Hb. apply clearTimeout_In, (inv_tids HI) in Hb.
    apply Nat.eqb_neq. lia. }
  unfold fire_timer. rewrite Hfind. simpl owner.
  set (st1 := set_timers stB _).
  unfold new_TimeoutError.
  set (err := VDOMException (next_id st1) _ _).
  assert (Hev1 : evolves stB (bump st1)).
  { eapply evolves_trans;
      [apply (evolves_clearTimeout stB (Some (next_id st))) | apply evolves_bump]. }
  destruct (@controller_abort_effect fuel (bump st1) s err)
    as [st3 (E & _ & Heff)].
  - apply (wf_evolves Hev1 (inv_wf HIB)).
  - unfold ample in Hf. simpl. lia.
  - rewrite E. eexists. split; [reflexivity|].
    pose proof (controller_abort_evolves _ _ _ _ E) as Hev3.
    destruct (Heff U1 eq_refl) as [A1 A2]. simpl in A1, A2.
    assert (Hsp : sp_signal (pluses st3 s) = sp_signal (pluses stB s))
      by apply (ev_sp Hev3).
    unfold aborted, reason, native_aborted, native_reason, hasTimeout.
    simpl. rewrite !upd_same. simpl.
    rewrite (ev_own_aborted Hev3), (ev_own_reason Hev3). simpl.
    rewrite Hsp, U2, U3. rewrite Hsp in A1, A2.
    split; [exact A1|]. split; [exact A2|]. split; [reflexivity|].
    unfold armed_of. simpl.
    apply filter_nil_incl with (l := timers (bump st1));
      [apply (ev_timers Hev3)|].
    simpl. rewrite filter_swap. unfold armed_of in Harmed. rewrite Harmed.
    simpl. now rewrite Nat.eqb_refl.
Qed.

(** C7: in every store a program can reach, a signal [s] has at most one
    armed timer, the one it remembers in [_timer].  [timeout] returns the
    signal it is called on.  After [s.timeout(m1)] and [s.timeout(m2)] the
    only armed timer of [s] is the second one, with delay [m2]; the first one
    is cancelled and can no longer fire; when the second one elapses on a
    signal that has not fired, the signal aborts with a new TimeoutError and
    has no timer any more.  And whatever operation makes [s] read as aborted,
    [s] comes out of it with no armed timer and [hasTimeout()] false. *)
Theorem one_timer_per_signal (st : State) (s : nat) :
  reachable st -> s < next_id st ->
  List.length (armed_of st s) <= 1 /\
  (hasTimeout st s = false -> armed_of st s = []) /\
  (forall m1 m2,
      let stA := fst (timeout st s m1) in
      let stB := fst (timeout stA s m2) in
      snd (timeout st s m1) = s /\ snd (timeout stA s m2) = s /\
      armed_of stA s = [mkTimer (next_id st) s m1] /\
      armed_of stB s = [mkTimer (next_id stA) s m2] /\
      hasTimeout stB s = true /\
      (forall fuel, fire_timer fuel stB (next_id st) = Some stB) /\
      (forall fuel,
          ample stB fuel -> unfired stB (SPlus s) ->
          exists st',
            fire_timer fuel stB (next_id stA) = Some st' /\
            aborted st' (SPlus s) = true /\
            reason st' (SPlus s)
            = VDOMException (next_id stB) "TimeoutError" TimeoutError_message /\
            isTimeoutError (reason st' (SPlus s)) = true /\
            hasTimeout st' s = false /\ armed_of st' s = [])) /\
  (forall fuel op st',
      valid st op -> step fuel st op = Some st' ->
      aborted st (SPlus s) = false -> aborted st' (SPlus s) = true ->
      hasTimeout st' s = false /\ armed_of st' s = []).
Proof.
  intros Hr Hs. pose proof (reachable_Inv Hr) as HI.
  destruct (tinv_at_most_one s (inv_tinv HI)) as [H1 H2].
  split; [exact H1|]. split; [exact H2|]. split.
  - intros m1 m2 stA stB.
    pose proof (Inv_timeout m1 HI Hs) as HIA. fold stA in HIA.
    destruct (timeout_shape st s m1)
      as (R1 & _ & _ & _ & Hi1 & _ & Ht1 & _ & Hps1).
    fold stA in Hi1, Ht1, Hps1.
    assert (HsA : s < next_id stA) by (rewrite Hi1; lia).
    destruct (timeout_shape stA s m2)
      as (R2 & _ & _ & _ & Hi2 & _ & Ht2 & _ & Hps2).
    fold stB in Hi2, Ht2, Hps2.
    pose proof (armed_after_timeout s m1 (inv_tinv HI)) as HarmA.
    pose proof (armed_after_timeout s m2 (inv_tinv HIA)) as HarmB.
    fold stA in HarmA. fold stB in HarmB.
    pose proof (@fire_new_timer) as Hfire.
    specialize (fun fuel => Hfire fuel stA s m2 HIA HsA). fold stB in Hfire.
    clearbody stB. clearbody stA.
    split; [exact R1|]. split; [exact R2|].
    split; [exact HarmA|]. split; [exact HarmB|].
    split; [unfold hasTimeout; now rewrite Hps2|].
    split.
    + (* the first timer was cleared by the second call *)
      intro fuel. unfold fire_timer.
      rewrite find_none_all; [reflexivity|].
      intros e He. rewrite Ht2 in He. apply in_app_or in He.
      apply Nat.eqb_neq. destruct He as [He | [<- | []]];
        [|simpl; rewrite Hi1; lia].
      rewrite Hps1 in He. simpl in He. apply filter_In in He.
      destruct He as [_ He]. apply negb_true_iff, Nat.eqb_neq in He. exact He.
    + intros fuel Hf Hu.
      destruct (Hfire fuel Hf Hu) as [st' (E & A1 & A2 & A3 & A4)].
      exists st'. rewrite A2. repeat split; auto.
  - intros fuel op st' Hv Hstep Ha Ha'.
    destruct (@step_keeps_invariants fuel st st' op HI Hv Hstep)
      as (HI' & Hsw & Hsp & _).
    assert (Hno : hasTimeout st' s = false).
    { destruct (hasTimeout st' s) eqn:Eh; [exfalso | reflexivity].
      destruct (inv_guarded HI' s Eh) as [l (L1 & L2 & L3)].
      unfold aborted in Ha, Ha'. simpl in Ha, Ha'.
      rewrite (Hsp s Hs) in Ha', L2.
      exact (Hsw _ Ha Ha' l L1 L2). }
    split; [exact Hno|].
    now apply (tinv_at_most_one s (inv_tinv HI')).
Qed.

(** ** The settled flag only goes up *)

(** Promises that exist keep a settled flag that was set. *)
Definition keeps_settled (st st' : State) : Prop :=
  next_id st <= next_id st' /\
  forall p, p < next_id st -> _isSettled (nodes st p) = true ->
            _isSettled (nodes st' p) = true.

Lemma keeps_settled_trans (a b c : State) :
  keeps_settled a b -> keeps_settled b c -> keeps_settled a c.
Proof.
  intros [H1 H2] [H3 H4]. split; [lia|].
  intros p Hp Hs. apply H4; [lia|]. now apply H2.
Qed.

Lemma keeps_settled_evolves (st st' : State) :
  evolves st st' -> keeps_settled st st'.
Proof.
  intro H. split; [apply (ev_next H)|].
  intros p _ Hs. now rewrite (ev_isSettled H).
Qed.

Lemma keeps_settled_same_nodes (st st' : State) :
  nodes st' = nodes st -> next_id st <= next_id st' -> keeps_settled st st'.
Proof. intros Hn Hi. split; [exact Hi|]. intros p _ Hs. now rewrite Hn. Qed.

Lemma listen_keeps_settled (fuel : nat) (st st' : State) (p : nat)
    (sg : SignalRef) :
  listen fuel st p sg = Some st' -> keeps_settled st st'.
Proof.
  unfold listen. set (st1 := upd_node st p _).
  assert (H1 : keeps_settled st st1).
  { split; [simpl; lia|]. intros q _ Hq. simpl. unfold upd.
    destruct (Nat.eqb_spec q p); subst; simpl; auto. }
  destruct (aborted st1 sg); intro H.
  - apply evolves_doAbort in H.
    eapply keeps_settled_trans; [exact H1 | now apply keeps_settled_evolves].
  - injection H as <-. eapply keeps_settled_trans; [exact H1|].
    apply keeps_settled_same_nodes; [reflexivity | simpl; lia].
Qed.

Lemma run_executor_keeps_settled (st : State) (this : nat)
    (executor : list ExecutorCall) :
  keeps_settled st (run_executor st this executor).
Proof.
  pose proof (run_executor_frame this executor (log st (CallExecutor this)))
    as F.
  fold (run_executor st this executor) in F. simpl in F.
  destruct F as (_ & _ & _ & _ & Hn & _ & _ & _ & _ & Hs & _).
  split; [lia|]. intros q _ Hq. now apply Hs.
Qed.

Lemma constructor_keeps_settled (fuel : nat) (st st' : State)
    (executor : list ExecutorCall) (signal : option SignalRef) (p : nat) :
  constructor fuel st executor signal = Some (st', p) -> keeps_settled st st'.
Proof.
  unfold constructor.
  set (st1 := bump (upd_node st (next_id st) _)).
  assert (H1 : keeps_settled st st1).
  { split; [simpl; lia|]. intros q Hq Hs. simpl. unfold upd.
    destruct (Nat.eqb_spec q (next_id st)); [lia | exact Hs]. }
  destruct signal as [sg|].
  - destruct (listen fuel st1 (next_id st) sg) as [st2|] eqn:E; [|discriminate].
    intro H. injection H as <- _.
    eapply keeps_settled_trans; [exact H1|].
    eapply keeps_settled_trans;
      [eapply listen_keeps_settled; exact E | apply run_executor_keeps_settled].
  - intro H. injection H as <- _.
    eapply keeps_settled_trans; [exact H1 | apply run_executor_keeps_settled].
Qed.

Lemma signal_listen_keeps_settled (fuel : nat) (st st' : State) (s : nat)
    (src : SignalRef) (b : bool) :
  _listen fuel st s src = Some (st', b) -> keeps_settled st st'.
Proof.
  unfold _listen. destruct (aborted st src).
  - pose proof (evolves_translate st (reason st src)) as Ht.
    destruct (translate st (reason st src)) as [st1 r1]. simpl in Ht.
    destruct (AbortControllerPlus_abort fuel st1 s r1) as [st2|] eqn:E;
      [|discriminate].
    intro H. injection H as <- _. apply keeps_settled_evolves.
    eapply evolves_trans; [exact Ht | eapply controller_abort_evolves; exact E].
  - intro H. injection H as <- _.
    apply keeps_settled_same_nodes; [reflexivity | simpl; lia].
Qed.

Lemma any_keeps_settled (fuel : nat) (s : nat) (signals : list SignalRef) :
  forall st st' this,
    any fuel st s signals = Some (st', this) -> keeps_settled st st'.
Proof.
  induction signals as [|src rest IH]; simpl; intros st st' this H.
  - injection H as <- _. apply keeps_settled_same_nodes; [reflexivity | lia].
  - destruct (_listen fuel st s src) as [[st1 b]|] eqn:E; [|discriminate].
    apply signal_listen_keeps_settled in E. destruct b.
    + now injection H as <- _.
    + eapply keeps_settled_trans; [exact E | eapply IH; exact H].
Qed.

Lemma abort_keeps_settled (fuel : nat) (st st' : State) (n : nat)
    (r : value) :
  result_state (abort fuel st n r) = Some st' -> keeps_settled st st'.
Proof.
  intro H. destruct (abort_nodes _ _ _ _ H) as (Hs & _).
  split; [|intros p _ Hp; now rewrite Hs].
  unfold abort in H.
  pose proof (default_reason_same st r) as Hd.
  destruct (default_reason st r) as [st1 r1]. simpl in Hd.
  assert (H1 : next_id st <= next_id st1)
    by (destruct Hd as (_ & _ & _ & _ & _ & _ & [Hi | Hi]); lia).
  destruct (_doAbort fuel st1 n r1) as [st2|] eqn:E2; [|discriminate].
  pose proof (ev_next (evolves_doAbort _ _ _ _ E2)) as H2.
  destruct (_signal (nodes st2 n)) as [[s | x]|]; simpl in H.
  - destruct (AbortControllerPlus_abort fuel st2 s r1) as [st3|] eqn:E3;
      simpl in H; [|discriminate].
    injection H as <-.
    pose proof (ev_next (controller_abort_evolves _ _ _ _ E3)). lia.
  - destruct (defineProperty_aborted (natives st2 x) true) as [n1|];
      simpl in H; [|injection H as <-; lia].
    destruct (defineProperty_reason n1 r1) as [n2|];
      simpl in H; [|injection H as <-; simpl; lia].
    destruct (dispatchEvent fuel (upd_native st2 x n2) x) as [st3|] eqn:E3;
      simpl in H; [|discriminate].
    injection H as <-.
    pose proof (ev_next (dispatchEvent_evolves _ _ _ E3)) as H3.
    simpl in H3. lia.
  - injection H as <-. lia.
Qed.

(** Whatever user code or the host does, [_isSettled] of a promise never
    goes from true back to false. *)
Theorem isSettled_never_reset (fuel : nat) (st st' : State) (op : Op) :
  step fuel st op = Some st' ->
  forall p, p < next_id st -> _isSettled (nodes st p) = true ->
            _isSettled (nodes st' p) = true.
Proof.
  intro H. cut (keeps_settled st st'); [intros [_ K]; exact K|].
  destruct op as [|controller|s r|x r|s milliseconds|t|s signal|s signals
                  |signal|executor signal|promise signal|p|p signal|p r|p v
                  |p r];
    cbv beta iota delta [step] in H.
  - injection H as <-.
    apply keeps_settled_same_nodes; [reflexivity | simpl; lia].
  - injection H as <-. unfold AbortControllerPlus_constructor.
    destruct controller as [x|]; simpl;
      (apply keeps_settled_same_nodes; [reflexivity | simpl; lia]).
  - apply keeps_settled_evolves. eapply controller_abort_evolves; exact H.
  - apply keeps_settled_evolves. eapply native_abort_evolves; exact H.
  - assert (E : fst (timeout st s milliseconds) = st') by (now injection H).
    clear H. subst st'.
    destruct (timeout_shape st s milliseconds) as (_ & Hn & _ & _ & Hi & _).
    apply keeps_settled_same_nodes; [exact Hn | rewrite Hi; lia].
  - destruct (find (fun e' => tid e' =? t) (timers st)) as [e|] eqn:Hf.
    + destruct (fire_timer_shape _ _ _ Hf H) as [st3 [E ->]].
      apply controller_abort_evolves in E.
      eapply keeps_settled_trans;
        [|eapply keeps_settled_trans; [apply keeps_settled_evolves; exact E|]].
      * apply keeps_settled_same_nodes; [reflexivity | simpl; lia].
      * apply keeps_settled_same_nodes; [reflexivity | simpl; lia].
    + unfold fire_timer in H. rewrite Hf in H. injection H as <-.
      apply keeps_settled_same_nodes; [reflexivity | lia].
  - apply option_map_fst in H. destruct H as [a H]. unfold one in H.
    destruct (_listen fuel st s signal) as [[st1 b]|] eqn:E; [|discriminate].
    injection H as <- _. eapply signal_listen_keeps_settled; exact E.
  - apply option_map_fst in H. destruct H as [a H].
    eapply any_keeps_settled; exact H.
  - apply option_map_fst in H. destruct H as [a H].
    destruct signal as [s0 | x]; simpl in H.
    + injection H as <- _.
      apply keeps_settled_same_nodes; [reflexivity | lia].
    + unfold one in H.
      set (st1 := bump (upd_plus _ _ _)) in H.
      destruct (_listen fuel st1 _ (SNative x)) as [[st2 b]|] eqn:E;
        [|discriminate].
      injection H as <- _.
      eapply keeps_settled_trans;
        [|eapply signal_listen_keeps_settled; exact E].
      apply keeps_settled_same_nodes; [reflexivity | simpl; lia].
  - apply option_map_fst in H. destruct H as [a H].
    eapply constructor_keeps_settled; exact H.
  - apply option_map_fst in H. destruct H as [a H].
    destruct promise as [q|]; simpl in H.
    + injection H as <- _.
      apply keeps_settled_same_nodes; [reflexivity | lia].
    + eapply constructor_keeps_settled; exact H.
  - apply option_map_fst in H. destruct H as [a H]. unfold then_ in H.
    destruct (constructor fuel st [] None) as [[st1 q]|] eqn:E; [|discriminate].
    injection H as <- _.
    eapply keeps_settled_trans; [eapply constructor_keeps_settled; exact E|].
    split; [simpl; lia|]. intros m _ Hm. simpl. unfold upd.
    destruct (Nat.eqb_spec m q); subst; simpl; auto.
  - eapply listen_keeps_settled; exact H.
  - eapply abort_keeps_settled; exact H.
  - injection H as <-.
    pose proof (executor_call_frame st p (ExecResolve v)) as F.
    cbv beta iota zeta in F.
    destruct F as (_ & _ & _ & _ & Hn & _ & _ & _ & _ & Hs & _).
    split; [lia|]. intros q _ Hq. now apply Hs.
  - injection H as <-.
    pose proof (executor_call_frame st p (ExecReject r)) as F.
    cbv beta iota zeta in F.
    destruct F as (_ & _ & _ & _ & Hn & _ & _ & _ & _ & Hs & _).
    split; [lia|]. intros q _ Hq. now apply Hs.
Qed.

(** Each capability handed to the executor sets the flag. *)
Lemma executor_capabilities_set_isSettled (st : State) (p : nat) (v : value) :
  _isSettled (nodes (executor_resolve st p v) p) = true /\
  _isSettled (nodes (executor_reject st p v) p) = true.
Proof.
  unfold executor_resolve, executor_reject, set_isSettled. simpl.
  rewrite !upd_same. split; reflexivity.
Qed.

(** ** Stores built by programs *)

Lemma reachable_run (fuel : nat) (ops : list Op) :
  forall st, reachable st -> valid_all fuel st ops ->
             reachable (run fuel ops st).
Proof.
  induction ops as [|op rest IH]; simpl; intros st Hr Hv; [exact Hr|].
  destruct Hv as [Hv Hrest]. apply IH; [|exact Hrest].
  destruct (step fuel st op) as [st'|] eqn:E; [|exact Hr].
  eapply reach_step; eassumption.
Qed.

(** A signal that timed out, and two signals that have not fired: signal 1
    (on native signal 0) got a timeout of 10 ms (timer 2, listener 3) that
    elapsed with TimeoutError 4; signals 6 and 8 are new. *)
Definition timed_out_source : State :=
  run 20 [OpNewAbortControllerPlus None; OpTimeout 1 10; OpTimerFires 2;
          OpNewAbortControllerPlus None; OpNewAbortControllerPlus None] init.

Lemma timed_out_source_reachable : reachable timed_out_source.
Proof.
  apply reachable_run; [apply reach_init|]. vm_compute. repeat split; lia.
Qed.

Example timed_out_source_reason :
  reason timed_out_source (SPlus 1)
  = VDOMException 4 "TimeoutError" TimeoutError_message /\
  aborted timed_out_source (SPlus 8) = false /\
  next_id timed_out_source = 9.
Proof. vm_compute. repeat split. Qed.

(** A pending promise 2 bound to signal 1, which has not fired. *)
Definition bound_promise : State :=
  run 20 [OpNewAbortControllerPlus None; OpConstructor [] (Some (SPlus 1))]
      init.

Lemma bound_promise_reachable : reachable bound_promise.
Proof.
  apply reachable_run; [apply reach_init|]. vm_compute. repeat split; lia.
Qed.



(** Signal 1 aborted with "stop". *)
Definition stopped_signal : State :=
  run 20 [OpNewAbortControllerPlus None; OpControllerAbort 1 (VString "stop")]
      init.

Lemma stopped_signal_reachable : reachable stopped_signal.
Proof.
  apply reachable_run; [apply reach_init|]. vm_compute. repeat split; lia.
Qed.

(** ** The theorems at concrete stores *)

Lemma doAbort_rejects_walk_target_witness :
  wf_nodes settled_root_chain /\ 2 < 3 /\
  exists t,
    chain_walk settled_root_chain 2 t /\
    _doAbort 3 settled_root_chain 2 (VString "R")
    = Some (thisReject settled_root_chain t (VString "R")).
Proof.
  assert (Hfuel : 2 < 3) by lia.
  split; [exact settled_root_chain_wf|]. split; [exact Hfuel|].
  destruct (@doAbort_rejects_walk_target 3 settled_root_chain 2 (VString "R")
              settled_root_chain_wf Hfuel) as [t (H1 & _ & H3 & _)].
  exists t. split; assumption.
Defined.


Lemma any_stops_at_first_aborted_source_witness :
  wf timed_out_source /\
  next_id timed_out_source + List.length (listeners timed_out_source)
  + 2 * List.length [SPlus 8] + 3 < 20 /\
  Forall (fun sg => aborted timed_out_source sg = false) [SPlus 8] /\
  exists st',
    any 20 timed_out_source 6 ([SPlus 8] ++ SPlus 1 :: [SPlus 8])
    = Some (st', 6).
Proof.
  assert (Hwf : wf timed_out_source)
    by exact (inv_wf (reachable_Inv timed_out_source_reachable)).
  assert (Hf : next_id timed_out_source
               + List.length (listeners timed_out_source)
               + 2 * List.length [SPlus 8] + 3 < 20)
    by (vm_compute; lia).
  assert (Hall : Forall (fun sg => aborted timed_out_source sg = false)
                        [SPlus 8])
    by (constructor; [vm_compute; reflexivity | constructor]).
  assert (Ha : aborted timed_out_source (SPlus 1) = true)
    by (vm_compute; reflexivity).
  split; [exact Hwf|]. split; [exact Hf|]. split; [exact Hall|].
  destruct (@any_stops_at_first_aborted_source 20 timed_out_source 6
              [SPlus 8] Hwf Hf Hall) as (_ & _ & _ & _ & P).
  destruct (P (SPlus 1) [SPlus 8] Ha) as [st' [E _]]. exists st'. exact E.
Defined.


Lemma one_timer_per_signal_witness :
  reachable bound_promise /\ 1 < next_id bound_promise /\
  List.length (armed_of bound_promise 1) <= 1.
Proof.
  assert (Hs : 1 < next_id bound_promise) by (vm_compute; lia).
  split; [exact bound_promise_reachable|]. split; [exact Hs|].
  exact (proj1 (@one_timer_per_signal bound_promise 1
                  bound_promise_reachable Hs)).
Defined.

Lemma abort_marks_bound_signal_witness :
  wf bound_promise /\ 2 < 20 /\ ample bound_promise 20 /\
  exists t, chain_walk bound_promise 2 t.
Proof.
  assert (Hwf : wf bound_promise)
    by exact (inv_wf (reachable_Inv bound_promise_reachable)).
  assert (Hn : 2 < 20) by lia.
  assert (Hf : ample bound_promise 20) by (unfold ample; vm_compute; lia).
  split; [exact Hwf|]. split; [exact Hn|]. split; [exact Hf|].
  destruct (@abort_marks_bound_signal 20 bound_promise 2 (VString "R")
              Hwf Hn Hf bound_promise (VString "R") eq_refl)
    as (_ & _ & t & Hc & _).
  exists t. exact Hc.
Defined.


(** * The rest of the library *)

Unset Implicit Arguments.

(** ** Static functions, and what else a signal offers *)

(** The optional [controller] argument of the static functions: an
    [AbortControllerPlus], named by its signal, or a native
    [AbortController], named by its signal. *)
Inductive ControllerArg : Type :=
| CtlPlus (s : nat)
| CtlNative (x : nat).

(** [AbortSignalPlus._createController(controller)]; the result names the
    [AbortControllerPlus] by its signal, which is what every caller takes
    from it. *)
Definition _createController (st : State) (controller : option ControllerArg)
  : State * nat :=
  match controller with
  | None => new_AbortControllerPlus st
  | Some (CtlPlus s) => (st, s)
  | Some (CtlNative x) => AbortControllerPlus_constructor st (Some x)
  end.

(** [AbortSignalPlus.timeout(milliseconds, controller)] *)
Definition AbortSignalPlus_timeout (st : State) (milliseconds : Z)
    (controller : option ControllerArg) : State * nat :=
  let (st1, s) := _createController st controller in
  timeout st1 s milliseconds.

(** [AbortSignalPlus.one(signal, controller)] *)
Definition AbortSignalPlus_one (fuel : nat) (st : State) (signal : SignalRef)
    (controller : option ControllerArg) : option (State * nat) :=
  let (st1, s) := _createController st controller in
  one fuel st1 s signal.

(** [AbortSignalPlus.any(signals, controller)] *)
Definition AbortSignalPlus_any (fuel : nat) (st : State)
    (signals : list SignalRef) (controller : option ControllerArg)
  : option (State * nat) :=
  let (st1, s) := _createController st controller in
  any fuel st1 s signals.

(** [throwIfAborted()] hands over to the native signal, whose method looks at
    the internal slots of the signal; the result is what is thrown, if
    anything. *)
Definition throwIfAborted (st : State) (this : nat) : option value :=
  let n := natives st (sp_signal (pluses st this)) in
  if ns_aborted n then Some (ns_reason n) else None.

(** ** More ways to make an AbortablePromise *)

(** [AbortablePromise.newWithSignal(executor, signal)]: the arguments of
    [new AbortablePromise] are evaluated first, so the controller of
    [signal ?? new AbortControllerPlus().signal] is made before the
    promise. *)
Definition newWithSignal (fuel : nat) (st : State)
    (executor : list ExecutorCall) (signal : option SignalRef)
  : option (State * nat) :=
  match signal with
  | Some sg => constructor fuel st executor (Some sg)
  | None =>
      let (st1, s) := new_AbortControllerPlus st in
      constructor fuel st1 executor (Some (SPlus s))
  end.

(** [AbortablePromise.fromWithSignal(promise, signal)] *)
Definition fromWithSignal (fuel : nat) (st : State) (promise : PromiseArg)
    (signal : option SignalRef) : option (State * nat) :=
  match promise with
  | IsAbortablePromise p => Some (st, p)
  | IsPromise => newWithSignal fuel st [] signal
  end.

(** The static functions that hand a promise of the native [Promise] to
    [from]: [all], [allSettled], [any], [race] and [resolve]. *)
Inductive Combinator : Type :=
| All
| AllSettled
| Any
| Race
| Resolve.

(** [AbortablePromise.all(values, signal)] and the like:
    [AbortablePromise.from(Promise.all(values), signal)].  The native function
    is called on the native constructor: it wraps each value, also one that
    is an [AbortablePromise], in a promise of its own and subscribes to it in
    a later job, so nothing of the values changes while this runs, and what
    it returns is not an [AbortablePromise]. *)
Definition combinator (c : Combinator) (fuel : nat) (st : State)
    (values : list PromiseArg) (signal : option SignalRef)
  : option (State * nat) :=
  from fuel st IsPromise signal.

(** [AbortablePromise.allWithSignal(values, signal)] and the like *)
Definition combinatorWithSignal (c : Combinator) (fuel : nat) (st : State)
    (values : list PromiseArg) (signal : option SignalRef)
  : option (State * nat) :=
  fromWithSignal fuel st IsPromise signal.

(** [AbortablePromise.reject(reason)]:
    [AbortablePromise.from(Promise.reject(reason))], no signal. *)
Definition reject_ (fuel : nat) (st : State) (r : value)
  : option (State * nat) :=
  from fuel st IsPromise None.

(** ** Listeners sit on signals that exist *)

(** Every listener is registered on a native signal that has been made,
    every [AbortSignalPlus] that has been made wraps one, and the only value
    ever forced onto the [aborted] property of a native signal is [true]. *)
Definition allocated (st : State) : Prop :=
  (forall l, In l (listeners st) -> target l < next_id st) /\
  (forall s, sp_signal (pluses st s) < next_id st \/
             sp_signal (pluses st s) = s) /\
  (forall x, own_aborted (natives st x) <> Some false).

Lemma allocated_native_of (st : State) (sg : SignalRef) :
  allocated st -> exists_signal st sg -> native_of st sg < next_id st.
Proof.
  intros (_ & Hs & _) He. destruct sg as [s | x]; simpl in *; [|exact He].
  destruct (Hs s); lia.
Qed.

Lemma exists_signal_mono (st st' : State) (sg : SignalRef) :
  next_id st <= next_id st' -> exists_signal st sg -> exists_signal st' sg.
Proof. destruct sg; simpl; lia. Qed.

Lemma allocated_evolves (st st' : State) :
  evolves st st' -> allocated st -> allocated st'.
Proof.
  intros Hev (Hl & Hs & Ho). pose proof (ev_next Hev) as Hn.
  split; [|split].
  - intros l Hin. apply (ev_listeners Hev), Hl in Hin. lia.
  - intro s. rewrite (ev_sp Hev). destruct (Hs s); [left; lia | now right].
  - intro x. rewrite (ev_own_aborted Hev). apply Ho.
Qed.

Lemma allocated_same (st st' : State) :
  listeners st' = listeners st -> pluses st' = pluses st ->
  natives st' = natives st ->
  next_id st <= next_id st' -> allocated st -> allocated st'.
Proof.
  intros El Ep Ex Hn (Hl & Hs & Ho). split; [|split].
  - intros l Hin. rewrite El in Hin. apply Hl in Hin. lia.
  - intro s. rewrite Ep. destruct (Hs s); [left; lia | now right].
  - intro x. rewrite Ex. apply Ho.
Qed.

Ltac same_allocated st H :=
  apply (allocated_same st);
  [reflexivity | reflexivity | reflexivity | simpl; lia | exact H].

Lemma allocated_addEventListener (st : State) (sg : SignalRef) (c : Closure) :
  allocated st -> exists_signal st sg -> allocated (addEventListener st sg c).
Proof.
  intros Ha He. pose proof (allocated_native_of st sg Ha He) as Hx.
  destruct Ha as (Hl & Hs & Ho). split; [|split].
  - intros l Hin. simpl in Hin. apply in_app_or in Hin. simpl.
    destruct Hin as [Hin | [<- | []]]; [apply Hl in Hin; lia | simpl; lia].
  - intro s. simpl. destruct (Hs s); [left; lia | now right].
  - exact Ho.
Qed.

Lemma allocated_new_AbortController (st : State) :
  allocated st -> allocated (fst (new_AbortController st)).
Proof.
  intros (Hl & Hs & Ho). split; [|split]; simpl.
  - intros l Hin. apply Hl in Hin. lia.
  - intro s. destruct (Hs s); [left; lia | now right].
  - intro x. unfold upd. destruct (x =? next_id st); [discriminate | apply Ho].
Qed.

Lemma allocated_plus_constructor (st : State) (controller : option nat) :
  allocated st ->
  match controller with
  | Some x => x < next_id st
  | None => True
  end ->
  allocated (fst (AbortControllerPlus_constructor st controller)).
Proof.
  intros Ha Hc. unfold AbortControllerPlus_constructor.
  destruct controller as [x|].
  - destruct Ha as (Hl & Hs & Ho). split; [|split]; simpl.
    + intros l Hin. apply Hl in Hin. lia.
    + intro s. unfold upd. destruct (Nat.eqb_spec s (next_id st)); simpl;
        [left; lia | destruct (Hs s); [left; lia | now right]].
    + exact Ho.
  - destruct (allocated_new_AbortController st Ha) as (Hl & Hs & Ho).
    simpl in Hl, Hs, Ho. split; [|split]; simpl.
    + intros l Hin. apply Hl in Hin. lia.
    + intro s. unfold upd. destruct (Nat.eqb_spec s (S (next_id st))); simpl;
        [left; lia | destruct (Hs s); [left; lia | now right]].
    + exact Ho.
Qed.

Lemma allocated_listen (fuel : nat) (st st' : State) (p : nat)
    (sg : SignalRef) :
  allocated st -> exists_signal st sg -> listen fuel st p sg = Some st' ->
  allocated st'.
Proof.
  intros Ha He. unfold listen. set (st1 := upd_node st p _).
  assert (Ha1 : allocated st1) by (same_allocated st Ha).
  destruct (aborted st1 sg); intro H.
  - eapply allocated_evolves; [eapply evolves_doAbort; exact H | exact Ha1].
  - injection H as <-. now apply allocated_addEventListener.
Qed.

Lemma allocated_run_executor (st : State) (this : nat)
    (executor : list ExecutorCall) :
  allocated st -> allocated (run_executor st this executor).
Proof.
  pose proof (run_executor_frame this executor (log st (CallExecutor this)))
    as F.
  fold (run_executor st this executor) in F. simpl in F.
  destruct F as (Hl & Hx & Hp & _ & Hn & _).
  apply allocated_same; [exact Hl | exact Hp | exact Hx | lia].
Qed.

Lemma allocated_constructor (fuel : nat) (st st' : State)
    (executor : list ExecutorCall) (signal : option SignalRef) (p : nat) :
  allocated st ->
  match signal with
  | Some sg => exists_signal st sg
  | None => True
  end ->
  constructor fuel st executor signal = Some (st', p) -> allocated st'.
Proof.
  intros Ha He. unfold constructor.
  set (st1 := bump (upd_node st (next_id st) _)).
  assert (Ha1 : allocated st1) by (same_allocated st Ha).
  destruct signal as [sg|].
  - destruct (listen fuel st1 (next_id st) sg) as [st2|] eqn:E; [|discriminate].
    intro H. injection H as <- _. apply allocated_run_executor.
    eapply allocated_listen; [exact Ha1 | | exact E].
    eapply exists_signal_mono; [|exact He]. simpl. lia.
  - intro H. injection H as <- _. now apply allocated_run_executor.
Qed.

Lemma allocated_signal_listen (fuel : nat) (st st' : State) (s : nat)
    (src : SignalRef) (b : bool) :
  allocated st -> exists_signal st src ->
  _listen fuel st s src = Some (st', b) -> allocated st'.
Proof.
  intros Ha He. unfold _listen. destruct (aborted st src).
  - pose proof (evolves_translate st (reason st src)) as Ht.
    destruct (translate st (reason st src)) as [st1 r1]. simpl in Ht.
    destruct (AbortControllerPlus_abort fuel st1 s r1) as [st2|] eqn:E;
      [|discriminate].
    intro H. injection H as <- _.
    eapply allocated_evolves; [eapply controller_abort_evolves; exact E|].
    eapply allocated_evolves; eassumption.
  - intro H. injection H as <- _. now apply allocated_addEventListener.
Qed.

Lemma allocated_any (fuel : nat) (s : nat) (signals : list SignalRef) :
  forall st st' this,
    allocated st -> Forall (exists_signal st) signals ->
    any fuel st s signals = Some (st', this) -> allocated st'.
Proof.
  induction signals as [|src rest IH]; simpl; intros st st' this Ha Hall H.
  - now injection H as <- _.
  - inversion Hall as [|? ? Hsrc Hrest]; subst.
    destruct (_listen fuel st s src) as [[st1 b]|] eqn:E; [|discriminate].
    pose proof (allocated_signal_listen _ _ _ _ _ _ Ha Hsrc E) as Ha1.
    destruct b; [now injection H as <- _|].
    apply (IH st1 st' this Ha1); [|exact H].
    apply signal_listen_keeps_settled in E. destruct E as [Hn _].
    eapply Forall_impl; [|exact Hrest].
    intros sg. now apply exists_signal_mono.
Qed.

Lemma allocated_abort (fuel : nat) (st st' : State) (n : nat) (r : value) :
  allocated st -> result_state (abort fuel st n r) = Some st' -> allocated st'.
Proof.
  intros Ha H. unfold abort in H.
  pose proof (default_reason_same st r) as Hd.
  destruct (default_reason st r) as [st1 r1]. simpl in Hd.
  pose proof (allocated_evolves _ _ (same_but_next_evolves Hd) Ha) as Ha1.
  destruct (_doAbort fuel st1 n r1) as [st2|] eqn:E2; [|discriminate].
  pose proof (allocated_evolves _ _ (evolves_doAbort _ _ _ _ E2) Ha1) as Ha2.
  assert (Hup : forall x m, own_aborted m <> Some false ->
                            allocated (upd_native st2 x m)).
  { intros x m Hm. destruct Ha2 as (Hl & Hs & Ho). split; [|split]; simpl; auto.
    intro y. unfold upd. destruct (y =? x); [exact Hm | apply Ho]. }
  destruct (_signal (nodes st2 n)) as [[s | x]|]; simpl in H.
  - destruct (AbortControllerPlus_abort fuel st2 s r1) as [st3|] eqn:E3;
      simpl in H; [|discriminate].
    injection H as <-.
    eapply allocated_evolves; [eapply controller_abort_evolves; exact E3|].
    exact Ha2.
  - destruct (defineProperty_aborted (natives st2 x) true) as [n1|] eqn:D1;
      simpl in H; [|injection H as <-; exact Ha2].
    assert (Hn1 : own_aborted n1 <> Some false).
    { unfold defineProperty_aborted in D1.
      destruct Ha2 as (_ & _ & Ho). specialize (Ho x).
      destruct (own_aborted (natives st2 x)) as [b|] eqn:Eo.
      - destruct (Bool.eqb b true); [|discriminate].
        injection D1 as <-. now rewrite Eo.
      - injection D1 as <-. simpl. discriminate. }
    destruct (defineProperty_reason n1 r1) as [n2|] eqn:D2; simpl in H.
    + assert (Hn2 : own_aborted n2 <> Some false).
      { unfold defineProperty_reason in D2.
        destruct (own_reason n1); [destruct (SameValue r1 v); [|discriminate]|];
          injection D2 as <-; exact Hn1. }
      destruct (dispatchEvent fuel (upd_native st2 x n2) x) as [st3|] eqn:E3;
        simpl in H; [|discriminate].
      injection H as <-.
      eapply allocated_evolves; [eapply dispatchEvent_evolves; exact E3|].
      now apply Hup.
    + injection H as <-. now apply Hup.
  - injection H as <-. exact Ha2.
Qed.

Lemma allocated_step (fuel : nat) (st st' : State) (op : Op) :
  allocated st -> valid st op -> step fuel st op = Some st' -> allocated st'.
Proof.
  intros Ha Hv H.
  destruct op as [|controller|s r|x r|s milliseconds|t|s signal|s signals
                  |signal|executor signal|promise signal|p|p signal|p r|p v
                  |p r];
    cbv beta iota delta [step valid] in H, Hv.
  - injection H as <-. now apply allocated_new_AbortController.
  - injection H as <-. apply allocated_plus_constructor; [exact Ha|].
    destruct controller; exact Hv.
  - eapply allocated_evolves; [eapply controller_abort_evolves; exact H|].
    exact Ha.
  - eapply allocated_evolves; [eapply native_abort_evolves; exact H | exact Ha].
  - assert (E : fst (timeout st s milliseconds) = st') by (now injection H).
    clear H. subst st'.
    destruct (timeout_shape st s milliseconds)
      as (_ & _ & Hx & _ & Hi & Hl & _ & Hpo & Hps).
    destruct Ha as (Hal & Has & Hao). split; [|split].
    + intros l Hin. rewrite Hl in Hin. rewrite Hi. apply in_app_or in Hin.
      destruct Hin as [Hin | [<- | []]]; [apply Hal in Hin; lia|].
      simpl. destruct (Has s); lia.
    + intro z. rewrite Hi. destruct (Nat.eq_dec z s) as [->|Hne].
      * rewrite Hps. simpl. destruct (Has s); [left; lia | now right].
      * rewrite (Hpo z Hne). destruct (Has z); [left; lia | now right].
    + intro y. rewrite Hx. apply Hao.
  - destruct (find (fun e' => tid e' =? t) (timers st)) as [e|] eqn:Hf.
    + destruct (fire_timer_shape _ _ _ Hf H) as [st3 [E ->]].
      apply controller_abort_evolves in E.
      assert (Ha1 : allocated (bump (clearTimeout st (Some t)))).
      { same_allocated st Ha. }
      pose proof (allocated_evolves _ _ E Ha1) as (Hl3 & Hs3 & Ho3).
      split; [|split].
      * exact Hl3.
      * intro z. simpl. unfold upd.
        destruct (Nat.eqb_spec z (owner e)); subst; simpl; apply Hs3.
      * exact Ho3.
    + unfold fire_timer in H. rewrite Hf in H. now injection H as <-.
  - destruct Hv as [_ Hv].
    apply option_map_fst in H. destruct H as [a H]. unfold one in H.
    destruct (_listen fuel st s signal) as [[st1 b]|] eqn:E; [|discriminate].
    injection H as <- _. eapply allocated_signal_listen; eassumption.
  - destruct Hv as [_ Hv].
    apply option_map_fst in H. destruct H as [a H].
    eapply allocated_any; eassumption.
  - apply option_map_fst in H. destruct H as [a H].
    destruct signal as [s0 | x]; simpl in H; [now injection H as <- _|].
    unfold one in H.
    set (st1 := bump (upd_plus _ _ _)) in H.
    destruct (_listen fuel st1 _ (SNative x)) as [[st2 b]|] eqn:E;
      [|discriminate].
    injection H as <- _.
    eapply allocated_signal_listen; [| |exact E].
    + apply (allocated_plus_constructor st None Ha I).
    + simpl in *. lia.
  - apply option_map_fst in H. destruct H as [a H].
    eapply allocated_constructor; [exact Ha| |exact H].
    destruct signal; exact Hv.
  - apply option_map_fst in H. destruct H as [a H]. destruct Hv as [_ Hv].
    destruct promise as [q|]; simpl in H; [now injection H as <- _|].
    eapply allocated_constructor; [exact Ha| |exact H].
    destruct signal; exact Hv.
  - apply option_map_fst in H. destruct H as [a H]. unfold then_ in H.
    destruct (constructor fuel st [] None) as [[st1 q]|] eqn:E; [|discriminate].
    injection H as <- _.
    pose proof (allocated_constructor _ _ _ _ None _ Ha I E) as Ha1.
    same_allocated st1 Ha1.
  - destruct Hv as [_ Hv]. eapply allocated_listen; eassumption.
  - eapply allocated_abort; eassumption.
  - injection H as <-.
    pose proof (executor_call_frame st p (ExecResolve v)) as F.
    cbv beta iota zeta in F. destruct F as (Hl & Hx & Hp & _ & Hn & _).
    apply (allocated_same st); [exact Hl | exact Hp | exact Hx | lia | exact Ha].
  - injection H as <-.
    pose proof (executor_call_frame st p (ExecReject r)) as F.
    cbv beta iota zeta in F. destruct F as (Hl & Hx & Hp & _ & Hn & _).
    apply (allocated_same st); [exact Hl | exact Hp | exact Hx | lia | exact Ha].
Qed.

Lemma reachable_allocated (st : State) : reachable st -> allocated st.
Proof.
  induction 1 as [|st fuel op st' _ IH Hv Hs].
  - split; [intros l []|]. split; [intro s; now right | discriminate].
  - eapply allocated_step; eassumption.
Qed.

(** ** What a listener has done once it has been called *)

Lemma chain_walk_same_links (st st' : State) (n t : nat) :
  (forall m, _parent (nodes st' m) = _parent (nodes st m)) ->
  (forall m, _isSettled (nodes st' m) = _isSettled (nodes st m)) ->
  chain_walk st n t -> chain_walk st' n t.
Proof.
  intros Hp Hs H. induction H as [m E | m E Es | m t E Es H IH].
  - apply cw_root. now rewrite Hp.
  - apply cw_parent_settled; [now rewrite Hp | now rewrite Hp, Hs].
  - apply cw_up; [now rewrite Hp | now rewrite Hp, Hs | now rewrite Hp].
Qed.

Lemma chain_walk_evolves (st st' : State) (n t : nat) :
  evolves st st' -> (chain_walk st n t <-> chain_walk st' n t).
Proof.
  intro Hev. split; apply chain_walk_same_links; intro m;
    now rewrite ?(ev_parent Hev), ?(ev_isSettled Hev).
Qed.

(** What the body of a listener leaves behind: the promise's chain-walk
    target is settled or locked in; the controller's signal has fired; the
    signal has no timer. *)
Definition effect (st : State) (c : Closure) : Prop :=
  match c with
  | CDoAbort p _ =>
      forall t, chain_walk st p t -> alreadyResolved (nodes st t) = true
  | CForward s _ => ns_aborted (natives st (sp_signal (pluses st s))) = true
  | CClearTimer s => _timer (pluses st s) = None
  end.

Lemma effect_evolves (st st' : State) (c : Closure) :
  evolves st st' -> effect st c -> effect st' c.
Proof.
  intros Hev H. destruct c as [p sg | s sg | s]; simpl in *.
  - intros t Ht. apply (chain_walk_evolves st st' p t Hev) in Ht.
    specialize (H t Ht). now rewrite (ev_resolved Hev t H).
  - rewrite (ev_sp Hev). now rewrite (ev_fired Hev _ H).
  - now apply (ev_timer_none Hev).
Qed.

(** A promise that gets settled on the way is rejected. *)
Definition only_rejects (st st' : State) : Prop :=
  forall n, alreadyResolved (nodes st n) = false ->
            alreadyResolved (nodes st' n) = true ->
            exists r, outcome (nodes st' n) = Rejected r.

(** [took st st']: every listener that left the registry on the way from
    [st] to [st'] has had its effect, and promises were only rejected. *)
Definition took (st st' : State) : Prop :=
  (forall l, In l (listeners st) -> registered st' (lid l) = false ->
             effect st' (body l)) /\
  only_rejects st st'.

Lemma took_same (st st' : State) :
  listeners st' = listeners st -> only_rejects st st' -> took st st'.
Proof.
  intros Hl Ho. split; [|exact Ho]. intros l Hin Hr. exfalso.
  apply (@in_not_unregistered st' l); [now rewrite Hl | exact Hr].
Qed.

Lemma only_rejects_nodes (st st' : State) :
  nodes st' = nodes st -> only_rejects st st'.
Proof. intros Hn n H1 H2. rewrite Hn in H2. congruence. Qed.

Lemma took_trans (a b c : State) :
  lids_unique a -> evolves a b -> evolves b c ->
  took a b -> took b c -> took a c.
Proof.
  intros Hu Hab Hbc [Lab Oab] [Lbc Obc]. split.
  - intros l Hin Hr. destruct (registered b (lid l)) eqn:Eb.
    + apply Lbc; [|exact Hr].
      apply registered_In in Eb. destruct Eb as [l' [Hin' Hl']].
      pose proof (ev_listeners Hab l' Hin') as Ha'.
      assert (l' = l) by (eapply unique_lid; eassumption).
      now subst l'.
    + eapply effect_evolves; [exact Hbc | now apply Lab].
  - intros n Ha Hc. destruct (alreadyResolved (nodes b n)) eqn:Eb.
    + destruct (Oab n Ha Eb) as [r Hr]. exists r.
      now rewrite (ev_resolved Hbc n Eb).
    + now apply Obc.
Qed.

Lemma thisReject_only_rejects (st : State) (p : nat) (r : value) :
  only_rejects st (thisReject st p r) /\
  alreadyResolved (nodes (thisReject st p r) p) = true.
Proof.
  unfold thisReject, promise_reject. simpl.
  destruct (alreadyResolved (nodes st p)) eqn:E; simpl.
  - split; [|exact E]. intros n H1 H2. simpl in H2. congruence.
  - rewrite upd_same. simpl. split; [|reflexivity].
    intros n H1 H2. simpl in *. unfold upd in *.
    destruct (Nat.eqb_spec n p); simpl in *; [eauto | congruence].
Qed.

Section Took.

Variable fuel : nat.
Variable native : State -> nat -> value -> option State.
Hypothesis native_evolves :
  forall st x r st', native st x r = Some st' -> evolves st st'.
Hypothesis native_took :
  forall st x r st',
    lids_unique st -> wf_nodes st -> native st x r = Some st' -> took st st'.
Hypothesis native_fires :
  forall st x r st',
    native st x r = Some st' -> ns_aborted (natives st' x) = true.

Lemma run_closure_took (st st' : State) (c : Closure) :
  lids_unique st -> wf_nodes st ->
  run_closure fuel native st c = Some st' ->
  took st st' /\ effect st' c.
Proof.
  intros Hu Hwf. destruct c as [p sg | s sg | s]; simpl.
  - unfold _doAbort. destruct (walk fuel st p) as [t|] eqn:Ew; [|discriminate].
    intro H. injection H as <-. unfold invoke_reject.
    destruct (Hwf t) as [_ Hr]. rewrite Hr.
    destruct (thisReject_only_rejects st t (reason st sg)) as [Ho Hres].
    destruct (thisReject_frame st t (reason st sg)) as (Hl & _).
    split; [now apply took_same|].
    intros t' Ht'.
    apply (chain_walk_evolves _ _ p t' (evolves_thisReject st t (reason st sg)))
      in Ht'.
    apply walk_chain_walk in Ew.
    now rewrite (chain_walk_functional Ht' Ew).
  - pose proof (translate_same st (reason st sg)) as Ht.
    destruct (translate st (reason st sg)) as [st1 r1]. simpl in Ht.
    unfold AbortControllerPlus_abort_via.
    pose proof (default_reason_same (log st1 (CallControllerAbort s r1)) r1)
      as Hd.
    destruct (default_reason (log st1 (CallControllerAbort s r1)) r1)
      as [st2 r2]. simpl in Hd.
    destruct Ht as (Hn1 & _ & Hp1 & Hl1 & _).
    destruct Hd as (Hn2 & _ & Hp2 & Hl2 & _). simpl in Hn2, Hp2, Hl2.
    intro H.
    assert (Hu2 : lids_unique st2)
      by (unfold lids_unique; now rewrite Hl2, Hl1).
    assert (Hwf2 : wf_nodes st2) by (intro n; rewrite Hn2, Hn1; apply Hwf).
    destruct (native_took _ _ _ _ Hu2 Hwf2 H) as [L O].
    split; [split|].
    + intros l Hin. apply L. now rewrite Hl2, Hl1.
    + intros n Hn. apply O. now rewrite Hn2, Hn1.
    + rewrite (ev_sp (native_evolves _ _ _ _ H)).
      eapply native_fires; exact H.
  - intro H. injection H as <-. split.
    + apply took_same; [simpl; destruct (_timer (pluses st s)); reflexivity|].
      apply only_rejects_nodes. simpl.
      destruct (_timer (pluses st s)); reflexivity.
    + simpl. now rewrite upd_same.
Qed.

Lemma fire_took (snapshot : list Listener) :
  forall st st',
    agrees snapshot st -> lids_unique st -> wf_nodes st ->
    fire (run_closure fuel native) snapshot st = Some st' ->
    took st st'.
Proof.
  induction snapshot as [|l rest IH]; simpl; intros st st' Hag Hu Hwf H.
  - injection H as <-. apply took_same; [reflexivity|].
    now apply only_rejects_nodes.
  - destruct (registered st (lid l)) eqn:Er.
    + set (st0 := log (remove_listener st (lid l)) (CallListener (lid l))) in *.
      destruct (run_closure fuel native st0 (body l)) as [st1|] eqn:E1;
        [|discriminate].
      assert (Hev0 : evolves st st0) by apply evolves_remove_log.
      assert (Hev1 : evolves st0 st1)
        by (eapply evolves_run_closure; eassumption).
      assert (Hev : evolves st st1) by (eapply evolves_trans; eassumption).
      assert (Hev' : evolves st1 st').
      { eapply evolves_fire; [exact native_evolves | exact H]. }
      assert (Hin : In l (listeners st)) by (apply Hag; [now left | exact Er]).
      destruct (run_closure_took st0 st1 (body l)
                  (ev_nodup Hev0 Hu) (wf_nodes_evolves Hev0 Hwf) E1)
        as [T01 Eff].
      assert (T1 : took st1 st').
      { apply (IH st1 st'); [| | |exact H].
        - eapply agrees_evolves; [exact Hu | exact Hev |].
          eapply agrees_tail; eassumption.
        - apply (ev_nodup Hev Hu).
        - apply (wf_nodes_evolves Hev Hwf). }
      assert (T0 : took st st1).
      { destruct T01 as [L O]. split.
        - intros g Hg Hr. destruct (Nat.eq_dec (lid g) (lid l)) as [E|E].
          + assert (g = l) by (eapply unique_lid; eassumption).
            now subst g.
          + apply L; [|exact Hr]. simpl. apply filter_In. split; [exact Hg|].
            now apply negb_true_iff, Nat.eqb_neq.
        - intros n Hn. now apply O. }
      eapply took_trans; eassumption.
    + apply (IH st st'); auto. eapply agrees_tail; eassumption.
Qed.

End Took.

Lemma native_abort_fires (fuel : nat) (st : State) (x : nat) (r : value)
    (st' : State) :
  native_abort fuel st x r = Some st' -> ns_aborted (natives st' x) = true.
Proof.
  destruct fuel as [|fuel]; simpl; [discriminate|].
  destruct (ns_aborted (natives st x)) eqn:Ea.
  - intro H. now injection H as <-.
  - destruct (native_default_reason st r) as [st1 r1].
    intro H. apply evolves_fire in H; [|apply native_abort_evolves].
    rewrite (ev_fired H x); simpl; now rewrite upd_same.
Qed.

Lemma native_abort_took (fuel : nat) :
  forall st x r st',
    lids_unique st -> wf_nodes st -> native_abort fuel st x r = Some st' ->
    took st st'.
Proof.
  induction fuel as [|fuel IH]; simpl; intros st x r st' Hu Hwf H;
    [discriminate|].
  destruct (ns_aborted (natives st x)) eqn:Ea.
  - injection H as <-. apply took_same; [reflexivity|].
    now apply only_rejects_nodes.
  - pose proof (native_default_reason_same st r) as Hd.
    destruct (native_default_reason st r) as [st1 r1]. simpl in Hd.
    destruct Hd as (Hn & _ & _ & Hl & _).
    set (st2 := upd_native st1 x _) in H.
    assert (T : took st2 st').
    { apply (fire_took fuel (native_abort fuel) (native_abort_evolves fuel) IH
               (native_abort_fires fuel) (listeners_of st2 x) st2 st');
        [apply agrees_listeners_of | | |exact H].
      - unfold lids_unique. simpl. now rewrite Hl.
      - intro n. simpl. rewrite Hn. apply Hwf. }
    destruct T as [L O]. split.
    + intros l Hin. apply L. simpl. now rewrite Hl.
    + intros n Hn'. apply O. simpl. now rewrite Hn.
Qed.

Lemma controller_abort_took (fuel : nat) (st st' : State) (s : nat)
    (r : value) :
  lids_unique st -> wf_nodes st ->
  AbortControllerPlus_abort fuel st s r = Some st' ->
  took st st' /\ ns_aborted (natives st' (sp_signal (pluses st s))) = true.
Proof.
  intros Hu Hwf. unfold AbortControllerPlus_abort, AbortControllerPlus_abort_via.
  pose proof (default_reason_same (log st (CallControllerAbort s r)) r) as Hd.
  destruct (default_reason (log st (CallControllerAbort s r)) r) as [st1 r1].
  simpl in Hd. destruct Hd as (Hn & _ & Hp & Hl & _). simpl in Hn, Hp, Hl.
  intro H. split.
  - assert (Hu1 : lids_unique st1) by (unfold lids_unique; now rewrite Hl).
    assert (Hwf1 : wf_nodes st1) by (intro n; rewrite Hn; apply Hwf).
    destruct (native_abort_took fuel st1 _ r1 st' Hu1 Hwf1 H) as [L O].
    split; [intros l Hin; apply L; now rewrite Hl|].
    intros n Hn'. apply O. now rewrite Hn.
  - apply native_abort_fires in H. now rewrite Hp in H.
Qed.

(** ** What the constructors leave *)

Lemma filter_none (A : Type) (f : A -> bool) (l : list A) :
  (forall a, In a l -> f a = false) -> filter f l = [].
Proof.
  induction l as [|a l IH]; simpl; intro H; [reflexivity|].
  rewrite (H a (or_introl eq_refl)). apply IH. intros b Hb. apply H. now right.
Qed.

Lemma listeners_of_fresh (st : State) (x : nat) :
  allocated st -> next_id st <= x -> listeners_of st x = [].
Proof.
  intros (Hl & _) Hx. apply filter_none. intros l Hin.
  apply Hl in Hin. apply Nat.eqb_neq. lia.
Qed.

Lemma executor_call_others (st : State) (this m : nat) (c : ExecutorCall) :
  m <> this ->
  nodes (match c with
         | ExecResolve v => executor_resolve st this v
         | ExecReject r => executor_reject st this r
         end) m = nodes st m.
Proof.
  intro Hne. apply Nat.eqb_neq in Hne.
  destruct c as [v | r];
    unfold executor_resolve, executor_reject, set_isSettled, thisReject,
      promise_resolve, promise_reject; simpl;
    destruct (alreadyResolved (nodes st this)); simpl; unfold upd;
    rewrite ?Hne; reflexivity.
Qed.

Lemma run_executor_others (this m : nat) (executor : list ExecutorCall) :
  m <> this ->
  forall st, nodes (run_executor st this executor) m = nodes st m.
Proof.
  intro Hne. unfold run_executor. intro st.
  change (nodes st m) with (nodes (log st (CallExecutor this)) m).
  generalize (log st (CallExecutor this)).
  induction executor as [|c rest IH]; intro s; simpl; [reflexivity|].
  rewrite IH. now apply executor_call_others.
Qed.

(** The constructor on a signal that has not fired. *)
Lemma constructor_unfired_shape (fuel : nat) (st : State)
    (executor : list ExecutorCall) (sg : SignalRef) :
  aborted st sg = false ->
  exists st',
    constructor fuel st executor (Some sg) = Some (st', next_id st) /\
    listeners st'
    = listeners st
      ++ [mkListener (S (next_id st)) (native_of st sg)
                     (CDoAbort (next_id st) sg)] /\
    natives st' = natives st /\ pluses st' = pluses st /\
    timers st' = timers st /\ next_id st' = S (S (next_id st)) /\
    _parent (nodes st' (next_id st)) = next_id st /\
    _reject (nodes st' (next_id st)) = next_id st /\
    _signal (nodes st' (next_id st)) = Some sg /\
    (forall m, m <> next_id st -> nodes st' m = nodes st m) /\
    (executor = [] ->
     nodes st' (next_id st)
     = mkNode (next_id st) (next_id st) false (Some sg) false Pending).
Proof.
  intro Ha. unfold constructor.
  set (this := next_id st).
  set (st1 := bump (upd_node st this (mkNode this this false None false Pending))).
  unfold listen.
  set (st1' := upd_node st1 this _).
  assert (Hab : aborted st1' sg = aborted st sg)
    by (apply aborted_same; reflexivity).
  rewrite Hab, Ha.
  set (st2 := addEventListener st1' sg (CDoAbort this sg)).
  assert (Hnode : nodes st2 this = mkNode this this false (Some sg) false Pending).
  { unfold st2, st1', st1. simpl. rewrite !upd_same. reflexivity. }
  pose proof (run_executor_frame this executor (log st2 (CallExecutor this)))
    as F.
  fold (run_executor st2 this executor) in F.
  change (nodes (log st2 (CallExecutor this))) with (nodes st2) in F.
  destruct F as (Hl & Hx & Hp & Ht & Hn & _ & Hpar & Hrej & Hsig & _).
  exists (run_executor st2 this executor).
  split; [reflexivity|]. split; [exact Hl|]. split; [exact Hx|].
  split; [exact Hp|]. split; [exact Ht|]. split; [exact Hn|].
  split; [now rewrite Hpar, Hnode|]. split; [now rewrite Hrej, Hnode|].
  split; [now rewrite Hsig, Hnode|]. split.
  - intros m Hm. rewrite (run_executor_others this m executor Hm).
    unfold st2, st1', st1. simpl. now rewrite !(upd_other _ _ Hm).
  - intros ->. exact Hnode.
Qed.

(** A root promise's listener, when it runs. *)
Lemma run_doAbort_root (fuel : nat)
    (native : State -> nat -> value -> option State) (st : State) (p : nat)
    (sg : SignalRef) :
  0 < fuel -> _parent (nodes st p) = p -> _reject (nodes st p) = p ->
  run_closure fuel native st (CDoAbort p sg)
  = Some (thisReject st p (reason st sg)).
Proof.
  intros Hf Hp Hr. destruct fuel as [|fuel]; [lia|]. simpl.
  unfold _doAbort, invoke_reject. simpl.
  now rewrite Hp, Nat.eqb_refl, Hr.
Qed.

(** ** A signal that only promises and timers listen to *)

(** Promises settled on the way are rejected with [r]. *)
Definition rejects_with (r : value) (st st' : State) : Prop :=
  forall n, alreadyResolved (nodes st n) = false ->
            alreadyResolved (nodes st' n) = true ->
            outcome (nodes st' n) = Rejected r.

(** A listener body that hands nothing on to another signal, and, if it
    aborts a promise, does so for the native signal [x]. *)
Definition quiet_body (st : State) (x : nat) (c : Closure) : Prop :=
  match c with
  | CDoAbort _ sg => native_of st sg = x
  | CForward _ _ => False
  | CClearTimer _ => True
  end.

(** No signal made by [one] or [any] depends on the native signal [x]. *)
Definition quiet_listeners (st : State) (x : nat) : Prop :=
  forall l, In l (listeners st) -> target l = x -> quiet_body st x (body l).

Lemma quiet_body_same (st st' : State) (x : nat) (c : Closure) :
  (forall s, sp_signal (pluses st' s) = sp_signal (pluses st s)) ->
  quiet_body st x c -> quiet_body st' x c.
Proof.
  intros Hsp. destruct c as [p sg | s sg | s]; simpl; auto.
  destruct sg as [s | y]; simpl; [now rewrite Hsp | auto].
Qed.

Lemma thisReject_rejects_with (st : State) (q : nat) (r : value) :
  rejects_with r st (thisReject st q r) /\
  (forall n, alreadyResolved (nodes st n) = true ->
             nodes (thisReject st q r) n = nodes st n).
Proof.
  unfold thisReject, promise_reject. simpl.
  destruct (alreadyResolved (nodes st q)) eqn:E; simpl.
  - split; [|reflexivity]. intros n H1 H2. simpl in H2. congruence.
  - split.
    + intros n H1 H2. simpl in *. unfold upd in *.
      destruct (Nat.eqb_spec n q); simpl in *; [reflexivity | congruence].
    + intros n Hn. simpl. unfold upd.
      destruct (Nat.eqb_spec n q); [subst; congruence | reflexivity].
Qed.

(** What a quiet dispatch keeps and does. *)
Definition quiet_run (r : value) (st st' : State) : Prop :=
  natives st' = natives st /\
  (forall s, sp_signal (pluses st' s) = sp_signal (pluses st s)) /\
  rejects_with r st st' /\
  (forall n, alreadyResolved (nodes st n) = true ->
             nodes st' n = nodes st n).

Lemma quiet_run_trans (r : value) (a b c : State) :
  quiet_run r a b -> quiet_run r b c -> quiet_run r a c.
Proof.
  intros (X1 & S1 & R1 & K1) (X2 & S2 & R2 & K2).
  split; [now rewrite X2|]. split; [intro s; now rewrite S2|]. split.
  - intros n Ha Hc. destruct (alreadyResolved (nodes b n)) eqn:Eb.
    + rewrite (K2 n Eb). now apply R1.
    + now apply R2.
  - intros n Hn. rewrite K2; [now apply K1|]. now rewrite K1.
Qed.

Lemma run_closure_quiet (fuel : nat)
    (native : State -> nat -> value -> option State) (st st' : State)
    (x : nat) (c : Closure) :
  quiet_body st x c ->
  run_closure fuel native st c = Some st' ->
  quiet_run (native_reason (natives st x)) st st'.
Proof.
  destruct c as [p sg | s sg | s]; simpl; intros Hq H; [| contradiction |].
  - unfold _doAbort in H. destruct (walk fuel st p) as [t|]; [|discriminate].
    injection H as <-. unfold invoke_reject, reason. rewrite Hq.
    set (q := _reject (nodes st t)). set (r := native_reason (natives st x)).
    destruct (thisReject_frame st q r) as (_ & Hx & Hp & _).
    destruct (thisReject_rejects_with st q r) as [R K].
    split; [exact Hx|]. split; [intro s; now rewrite Hp|]. now split.
  - injection H as <-. split; [|split; [|split]].
    + simpl. destruct (_timer (pluses st s)); reflexivity.
    + intro z. simpl. unfold upd.
      destruct (Nat.eqb_spec z s); subst; simpl;
        destruct (_timer (pluses st s)); reflexivity.
    + intros n H1 H2. simpl in H2.
      destruct (_timer (pluses st s)); simpl in H2; congruence.
    + intros n _. simpl. destruct (_timer (pluses st s)); reflexivity.
Qed.

Lemma fire_quiet (fuel : nat)
    (native : State -> nat -> value -> option State) (x : nat)
    (snapshot : list Listener) :
  forall st st',
    (forall l, In l snapshot -> quiet_body st x (body l)) ->
    fire (run_closure fuel native) snapshot st = Some st' ->
    quiet_run (native_reason (natives st x)) st st'.
Proof.
  induction snapshot as [|l rest IH]; simpl; intros st st' Hq H.
  - injection H as <-. split; [reflexivity|]. split; [reflexivity|].
    split; [intros n H1 H2; congruence | reflexivity].
  - destruct (registered st (lid l)).
    + set (st0 := log (remove_listener st (lid l)) (CallListener (lid l))) in *.
      destruct (run_closure fuel native st0 (body l)) as [st1|] eqn:E1;
        [|discriminate].
      assert (Q0 : quiet_body st0 x (body l))
        by (apply (quiet_body_same st); [reflexivity | apply Hq; now left]).
      pose proof (run_closure_quiet fuel native st0 st1 x (body l) Q0 E1) as Q1.
      change (natives st0) with (natives st) in Q1.
      assert (Q01 : quiet_run (native_reason (natives st x)) st st1).
      { destruct Q1 as (X1 & S1 & R1 & K1). split; [exact X1|].
        split; [exact S1|]. split; [exact R1 | exact K1]. }
      eapply quiet_run_trans; [exact Q01|].
      destruct Q01 as (X1 & S1 & _). rewrite <- X1.
      apply IH; [|exact H].
      intros l' Hl'. apply (quiet_body_same st); [exact S1|].
      apply Hq. now right.
    + apply IH; [|exact H]. intros l' Hl'. apply Hq. now right.
Qed.

Lemma native_abort_quiet (fuel : nat) (st st' : State) (x : nat) (r : value) :
  quiet_listeners st x ->
  ns_aborted (natives st x) = false -> own_reason (natives st x) = None ->
  r <> VUndefined ->
  native_abort fuel st x r = Some st' ->
  rejects_with r st st' /\
  (forall y, y <> x -> natives st' y = natives st y) /\
  natives st' x
  = mkNative true r (own_aborted (natives st x)) None.
Proof.
  intros Hq Ha Ho Hr H. destruct fuel as [|fuel]; [discriminate|].
  simpl in H. rewrite Ha in H.
  assert (Hd : native_default_reason st r = (st, r))
    by (destruct r; try reflexivity; exfalso; now apply Hr).
  rewrite Hd in H.
  set (st2 := upd_native st x _) in H.
  assert (Hq2 : forall l, In l (listeners_of st2 x) ->
                          quiet_body st2 x (body l)).
  { intros l Hin. apply listeners_of_In in Hin. destruct Hin as [Hin Ht].
    apply (quiet_body_same st); [reflexivity|]. now apply Hq. }
  pose proof (fire_quiet fuel (native_abort fuel) x _ st2 st' Hq2 H)
    as (X & _ & R & _).
  assert (Hx2 : natives st2 x = mkNative true r (own_aborted (natives st x)) None).
  { unfold st2. simpl. rewrite upd_same. now rewrite Ho. }
  assert (Hr2 : native_reason (natives st2 x) = r).
  { rewrite Hx2. reflexivity. }
  rewrite Hr2 in R. split; [|split].
  - intros n H1 H2. apply R; [exact H1 | exact H2].
  - intros y Hy. rewrite X. unfold st2. simpl. now rewrite (upd_other _ _ Hy).
  - now rewrite X.
Qed.

Lemma thisReject_others (st : State) (p m : nat) (r : value) :
  m <> p -> nodes (thisReject st p r) m = nodes st m.
Proof.
  intro Hne. unfold thisReject, promise_reject. simpl.
  destruct (alreadyResolved (nodes st p)); simpl; [reflexivity|].
  now apply upd_other.
Qed.

Lemma default_reason_log (st : State) (c : Call) (r : value) :
  snd (default_reason (log st c) r) = snd (default_reason st r).
Proof. unfold default_reason. destruct (nullish r); reflexivity. Qed.

Lemma default_reason_not_undefined (st : State) (r : value) :
  snd (default_reason st r) <> VUndefined.
Proof.
  destruct (default_reason_value st r) as [H _]. intro E. rewrite E in H.
  discriminate.
Qed.

Lemma quiet_listeners_same (st st' : State) (x : nat) :
  listeners st' = listeners st -> pluses st' = pluses st ->
  quiet_listeners st x -> quiet_listeners st' x.
Proof.
  intros Hl Hp Hq l Hin Ht. rewrite Hl in Hin.
  apply (quiet_body_same st); [intro s; now rewrite Hp | now apply Hq].
Qed.

(** [abort] on a signal of the library that only promises and timers listen
    to. *)
Lemma controller_abort_quiet (fuel : nat) (st : State) (s : nat) (r : value) :
  wf st -> lids_unique st ->
  S (next_id st) + List.length (listeners st) < fuel ->
  quiet_listeners st (sp_signal (pluses st s)) ->
  ns_aborted (natives st (sp_signal (pluses st s))) = false ->
  own_reason (natives st (sp_signal (pluses st s))) = None ->
  exists st',
    AbortControllerPlus_abort fuel st s r = Some st' /\
    evolves st st' /\
    natives st' (sp_signal (pluses st s))
    = mkNative true (snd (default_reason st r))
              (own_aborted (natives st (sp_signal (pluses st s)))) None /\
    (forall y, y <> sp_signal (pluses st s) -> natives st' y = natives st y) /\
    (forall l p sg t,
        In l (listeners st) -> target l = sp_signal (pluses st s) ->
        body l = CDoAbort p sg -> chain_walk st p t ->
        alreadyResolved (nodes st t) = false ->
        outcome (nodes st' t) = Rejected (snd (default_reason st r))).
Proof.
  intros Hwf Hu Hf Hq Ha Ho.
  destruct (@controller_abort_total fuel st s r Hwf Hf) as [st' E].
  exists st'. split; [exact E|].
  pose proof (@controller_abort_evolves fuel st st' s r E) as Hev.
  split; [exact Hev|].
  unfold AbortControllerPlus_abort, AbortControllerPlus_abort_via in E.
  pose proof (default_reason_same (log st (CallControllerAbort s r)) r) as Hd.
  pose proof (default_reason_log st (CallControllerAbort s r) r) as Hr1.
  pose proof (default_reason_not_undefined (log st (CallControllerAbort s r)) r)
    as Hnu.
  destruct (default_reason (log st (CallControllerAbort s r)) r) as [st1 r1].
  simpl in Hd, Hr1, Hnu. rewrite <- Hr1.
  destruct Hd as (Hn & Hx & Hp & Hl & _). simpl in Hn, Hx, Hp, Hl.
  rewrite Hp in E. set (x := sp_signal (pluses st s)) in *.
  assert (Hq1 : quiet_listeners st1 x)
    by (now apply (quiet_listeners_same st)).
  assert (Ha1 : ns_aborted (natives st1 x) = false) by (now rewrite Hx).
  assert (Ho1 : own_reason (natives st1 x) = None) by (now rewrite Hx).
  destruct (native_abort_quiet fuel st1 st' x r1 Hq1 Ha1 Ho1 Hnu E)
    as (R & Hy & Hxx).
  rewrite Hx in Hy, Hxx. split; [exact Hxx|]. split; [exact Hy|].
  intros l p sg t Hin Ht Hb Hc Hpend.
  assert (Hu1 : lids_unique st1) by (unfold lids_unique; now rewrite Hl).
  assert (Hwf1 : wf_nodes st1)
    by (intro n; rewrite Hn; apply (proj1 Hwf)).
  destruct (native_abort_took fuel st1 x r1 st' Hu1 Hwf1 E) as [L _].
  destruct (@native_abort_calls_listeners fuel st1 st' x r1 Ha1 E)
    as [d [_ Hall]].
  assert (Hin1 : In l (listeners st1)) by (now rewrite Hl).
  destruct (Hall l Hin1 Ht) as [_ Hun].
  pose proof (L l Hin1 Hun) as Eff. rewrite Hb in Eff. simpl in Eff.
  apply R; [now rewrite Hn|]. apply Eff.
  now apply (chain_walk_evolves st st' p t Hev).
Qed.

Lemma dispatchEvent_quiet (fuel : nat) (st st' : State) (x : nat) :
  quiet_listeners st x -> dispatchEvent fuel st x = Some st' ->
  quiet_run (native_reason (natives st x)) st st'.
Proof.
  intros Hq H. destruct fuel as [|fuel]; [discriminate|]. simpl in H.
  apply (fire_quiet fuel (native_abort fuel) x (listeners_of st x)); [|exact H].
  intros l Hin. apply listeners_of_In in Hin. destruct Hin as [Hin Ht].
  now apply Hq.
Qed.

(** [abort] begins with the rejection of the chain-walk target; what it does
    afterwards leaves settled promises alone. *)
Lemma abort_after_reject (fuel : nat) (st : State) (n : nat) (r : value) :
  wf st -> n < fuel -> ample st fuel ->
  exists t st2 st',
    chain_walk st n t /\
    st2 = thisReject (fst (default_reason st r)) t (snd (default_reason st r)) /\
    result_state (abort fuel st n r) = Some st' /\
    (_signal (nodes st n) = None -> abort fuel st n r = Ok st2) /\
    (forall m, alreadyResolved (nodes st2 m) = true ->
               nodes st' m = nodes st2 m) /\
    (forall m, _parent (nodes st' m) = _parent (nodes st m)) /\
    next_id st <= next_id st'.
Proof.
  intros Hwf Hn Hf.
  pose proof (default_reason_same st r) as Hs.
  unfold abort.
  destruct (default_reason st r) as [st1 r1]. simpl in *.
  pose proof (same_but_next_wf Hs Hwf) as Hwf1.
  destruct (@doAbort_target fuel st1 n r1 (proj1 Hwf1) Hn)
    as [t (Hw & Hc1 & Hd1)].
  exists t, (thisReject st1 t r1).
  set (st2 := thisReject st1 t r1) in *.
  destruct (thisReject_frame st1 t r1) as (F1 & F2 & F3 & F4 & F5).
  fold st2 in F1, F2, F3, F4, F5.
  pose proof (evolves_thisReject st1 t r1) as Hev2. fold st2 in Hev2.
  pose proof (wf_evolves Hev2 Hwf1) as Hwf2.
  destruct Hs as (Hnodes & Hx & Hp & Hl & Ht & Hcs & Hi).
  assert (Hsig : _signal (nodes st2 n) = _signal (nodes st n)).
  { rewrite (ev_signal Hev2). now rewrite Hnodes. }
  assert (Hpar2 : forall m, _parent (nodes st2 m) = _parent (nodes st m)).
  { intro m. rewrite (ev_parent Hev2). now rewrite Hnodes. }
  assert (Hnext2 : next_id st <= next_id st2)
    by (rewrite F5; destruct Hi as [Hi | Hi]; rewrite Hi; lia).
  assert (Hfuel2 : S (next_id st2) + List.length (listeners st2) < fuel).
  { unfold ample in Hf. rewrite F5, F1, Hl. destruct Hi as [Hi | Hi];
      rewrite Hi; lia. }
  assert (Hfin : forall st', evolves st2 st' ->
            (forall m, alreadyResolved (nodes st2 m) = true ->
                       nodes st' m = nodes st2 m) /\
            (forall m, _parent (nodes st' m) = _parent (nodes st m)) /\
            next_id st <= next_id st').
  { intros st' Hev. split; [apply (ev_resolved Hev)|]. split.
    - intro m. now rewrite (ev_parent Hev).
    - pose proof (ev_next Hev). lia. }
  rewrite Hd1, Hsig.
  destruct (_signal (nodes st n)) as [[s | x]|].
  - destruct (@controller_abort_total fuel st2 s r1 Hwf2 Hfuel2) as [st' E].
    exists st'. split; [eapply same_but_next_chain_walk; [|exact Hc1]|].
    { repeat split; auto. }
    split; [reflexivity|]. rewrite E. split; [reflexivity|].
    split; [discriminate|].
    apply Hfin. eapply controller_abort_evolves; exact E.
  - assert (Hc : chain_walk st n t).
    { eapply same_but_next_chain_walk; [|exact Hc1]. repeat split; auto. }
    destruct (defineProperty_aborted (natives st2 x) true) as [n1|].
    + destruct (defineProperty_reason n1 r1) as [n2|].
      * set (st3 := upd_native st2 x n2).
        assert (Hwf3 : wf st3).
        { destruct Hwf2 as [W1 W2]. split; [exact W1 | exact W2]. }
        destruct (@dispatchEvent_total fuel st3 x Hwf3) as [st' E].
        { unfold enough. simpl. lia. }
        exists st'. split; [exact Hc|]. split; [reflexivity|].
        rewrite E. split; [reflexivity|]. split; [discriminate|].
        pose proof (@dispatchEvent_evolves fuel st3 st' x E) as Hev.
        split; [|split].
        -- intros m Hm. apply (ev_resolved Hev). exact Hm.
        -- intro m. rewrite (ev_parent Hev). apply Hpar2.
        -- pose proof (ev_next Hev) as Hle. simpl in Hle. lia.
      * exists (upd_native st2 x n1). split; [exact Hc|].
        split; [reflexivity|]. split; [reflexivity|]. split; [discriminate|].
        split; [reflexivity|]. split; [exact Hpar2 | exact Hnext2].
    + exists st2. split; [exact Hc|]. split; [reflexivity|].
      split; [reflexivity|]. split; [discriminate|].
      split; [reflexivity|]. split; [exact Hpar2 | exact Hnext2].
  - exists st2. split; [eapply same_but_next_chain_walk; [|exact Hc1]|].
    { repeat split; auto. }
    split; [reflexivity|]. split; [reflexivity|]. split; [reflexivity|].
    split; [reflexivity|]. split; [exact Hpar2 | exact Hnext2].
Qed.

Lemma then_shape (fuel : nat) (st : State) (p : nat) :
  exists st',
    then_ fuel st p = Some (st', next_id st) /\
    nodes st' (next_id st) = mkNode p (next_id st) false None false Pending /\
    (forall m, m <> next_id st -> nodes st' m = nodes st m) /\
    listeners st' = listeners st /\ natives st' = natives st /\
    pluses st' = pluses st /\ timers st' = timers st /\
    next_id st' = S (next_id st) /\
    calls st' = calls st ++ [CallExecutor (next_id st)].
Proof.
  unfold then_, constructor, run_executor. simpl. eexists.
  split; [reflexivity|]. simpl. rewrite !upd_same. simpl.
  split; [reflexivity|]. split; [|repeat split].
  intros m Hm. now rewrite !(upd_other _ _ Hm).
Qed.

Lemma chain_walk_below (st st' : State) (n t : nat) :
  wf_nodes st -> (forall m, m <= n -> nodes st' m = nodes st m) ->
  chain_walk st n t -> chain_walk st' n t.
Proof.
  intros Hwf Hsame H. induction H as [m E | m E Es | m t E Es H IH].
  - apply cw_root. now rewrite Hsame.
  - destruct (Hwf m) as [Hle _].
    apply cw_parent_settled; rewrite (Hsame m (le_n m)); [exact E|].
    now rewrite (Hsame _ Hle).
  - destruct (Hwf m) as [Hle _].
    apply cw_up; rewrite (Hsame m (le_n m)); [exact E | |].
    + now rewrite (Hsame _ Hle).
    + apply IH. intros k Hk. apply Hsame. lia.
Qed.

(** ** Promises derived by [then], [catch] and [finally] *)

(** X1: [then], [catch] and [finally] on promise [p] give a new promise, the
    next object made: pending, with no signal of its own, its own reject
    capability, and [p] as its parent; no other promise changes.  The
    chain-walk from the new promise stops at the new promise itself when the
    settled flag of [p] is set, and ends where the walk from [p] ends when it
    is not. *)
Theorem then_links_derived_promise (fuel : nat) (st : State) (p : nat) :
  reachable st -> p < next_id st ->
  exists st',
    then_ fuel st p = Some (st', next_id st) /\
    nodes st' (next_id st) = mkNode p (next_id st) false None false Pending /\
    (forall m, m <> next_id st -> nodes st' m = nodes st m) /\
    (_isSettled (nodes st p) = true ->
     chain_walk st' (next_id st) (next_id st)) /\
    (_isSettled (nodes st p) = false ->
     forall t, chain_walk st p t -> chain_walk st' (next_id st) t).
Proof.
  intros Hr Hp. pose proof (proj1 (inv_wf (reachable_Inv Hr))) as Hwf.
  destruct (then_shape fuel st p) as [st' (E & Hq & Ho & _)].
  exists st'. split; [exact E|]. split; [exact Hq|]. split; [exact Ho|].
  assert (Hpp : nodes st' p = nodes st p) by (apply Ho; lia).
  split.
  - intro Hs. apply cw_parent_settled; rewrite Hq; simpl; [lia|].
    now rewrite Hpp.
  - intros Hs t Ht. apply cw_up; rewrite Hq; simpl; [lia | now rewrite Hpp |].
    apply (chain_walk_below st st' p t Hwf); [|exact Ht].
    intros m Hm. apply Ho. lia.
Qed.

(** X2: a promise derived by [then], [catch] or [finally] has no signal, so
    [abort] on it is the rejection of its chain-walk target and nothing else:
    it returns normally, no signal changes (also not the signal bound to the
    promise it was derived from, even when that promise is the one rejected),
    no listener runs or leaves, no timer changes, and no promise but the
    target changes.  A target that was pending is rejected with
    [reason ?? new AbortError()]. *)
Theorem abort_of_derived_promise_spares_signals (fuel : nat) (st : State)
    (p : nat) (r : value) :
  reachable st -> p < next_id st -> next_id st < fuel ->
  exists st1 st2 t,
    then_ fuel st p = Some (st1, next_id st) /\
    chain_walk st1 (next_id st) t /\
    abort fuel st1 (next_id st) r = Ok st2 /\
    natives st2 = natives st /\ pluses st2 = pluses st /\
    listeners st2 = listeners st /\ timers st2 = timers st /\
    (forall sg, aborted st2 sg = aborted st sg /\
                reason st2 sg = reason st sg) /\
    (forall m, m <> t -> nodes st2 m = nodes st1 m) /\
    (alreadyResolved (nodes st1 t) = false ->
     outcome (nodes st2 t) = Rejected (snd (default_reason st1 r))).
Proof.
  intros Hr Hp Hf. pose proof (proj1 (inv_wf (reachable_Inv Hr))) as Hwf.
  destruct (then_shape fuel st p)
    as [st1 (E & Hq & Ho & Hl & Hx & Hpl & Ht & Hn & _)].
  assert (Hwf1 : wf_nodes st1).
  { intro m. destruct (Nat.eq_dec m (next_id st)) as [->|Hm].
    - rewrite Hq. simpl. split; [lia | reflexivity].
    - rewrite (Ho m Hm). apply Hwf. }
  pose proof (default_reason_same st1 r) as Hs.
  assert (Hwf1' : wf_nodes (fst (default_reason st1 r))).
  { destruct Hs as (Hn' & _). intro m. rewrite Hn'. apply Hwf1. }
  destruct (@doAbort_target fuel (fst (default_reason st1 r)) (next_id st)
              (snd (default_reason st1 r)) Hwf1' Hf) as [t (_ & Hc & Hd)].
  assert (Hab : abort fuel st1 (next_id st) r
                = Ok (thisReject (fst (default_reason st1 r)) t
                        (snd (default_reason st1 r)))).
  { unfold abort. destruct (default_reason st1 r) as [a b]. simpl in *.
    rewrite Hd. destruct Hs as (Hn' & _).
    rewrite (ev_signal (evolves_thisReject a t b)), Hn', Hq. reflexivity. }
  set (st1' := fst (default_reason st1 r)) in *.
  set (r1 := snd (default_reason st1 r)) in *.
  destruct Hs as (Hn' & Hx' & Hp' & Hl' & Ht' & _).
  exists st1, (thisReject st1' t r1), t.
  split; [exact E|]. split.
  { apply (chain_walk_same_links st1' st1); [| |exact Hc];
      intro m; now rewrite Hn'. }
  split; [exact Hab|].
  destruct (thisReject_frame st1' t r1) as (F1 & F2 & F3 & F4 & _).
  split; [now rewrite F2, Hx'|]. split; [now rewrite F3, Hp'|].
  split; [now rewrite F1, Hl'|]. split; [now rewrite F4, Ht'|].
  split.
  { intro sg. apply aborted_same; [now rewrite F2, Hx' | now rewrite F3, Hp']. }
  split.
  - intros m Hm. rewrite (thisReject_others st1' t m r1 Hm). now rewrite Hn'.
  - intro Hpend. apply thisReject_pending. now rewrite Hn'.
Qed.

(** ** What [abort] does to its target *)

(** X3: [abort(reason)] on promise [n] comes back, normally or with the
    TypeError of a second [Object.defineProperty], and either way the
    chain-walk target of [n] has been dealt with first: a target that was
    pending is rejected with [reason ?? new AbortError()] (the reason given
    unless it is [undefined] or [null], else a new AbortError with the
    default message), and a target that was settled or locked in is as it
    was. *)
Theorem abort_rejects_pending_target (fuel : nat) (st : State) (n : nat)
    (r : value) :
  reachable st -> n < fuel -> ample st fuel ->
  exists t st',
    chain_walk st n t /\
    result_state (abort fuel st n r) = Some st' /\
    (alreadyResolved (nodes st t) = false ->
     outcome (nodes st' t) = Rejected (snd (default_reason st r))) /\
    (alreadyResolved (nodes st t) = true -> nodes st' t = nodes st t) /\
    (nullish r = false -> snd (default_reason st r) = r) /\
    (nullish r = true ->
     snd (default_reason st r)
     = VDOMException (next_id st) "AbortError" AbortError_message /\
     isAbortError (snd (default_reason st r)) = true).
Proof.
  intros Hr Hn Hf. pose proof (inv_wf (reachable_Inv Hr)) as Hwf.
  destruct (abort_after_reject fuel st n r Hwf Hn Hf)
    as (t & st2 & st' & Hc & E2 & Eres & _ & Hkeep & _).
  exists t, st'. split; [exact Hc|]. split; [exact Eres|].
  pose proof (default_reason_same st r) as Hs.
  destruct Hs as (Hnodes & _).
  assert (Hres2 : alreadyResolved (nodes st2 t) = true).
  { rewrite E2. apply thisReject_only_rejects. }
  split; [|split; [|split]].
  - intro Hpend. rewrite (Hkeep t Hres2), E2.
    apply thisReject_pending. now rewrite Hnodes.
  - intro Hdone. rewrite (Hkeep t Hres2), E2.
    destruct (thisReject_rejects_with (fst (default_reason st r)) t
                (snd (default_reason st r))) as [_ K].
    rewrite K; now rewrite Hnodes.
  - apply default_reason_value.
  - intro Hnull. unfold default_reason. rewrite Hnull. simpl. now split.
Qed.

(** X4: a pending promise whose executor resolves it with a thenable (another
    promise) stays pending, locked in, with its settled flag set; from then
    on nothing the library does rejects it: not [abort] on any promise, not
    the abort of any controller, not a later call of the executor's
    capabilities. *)
Theorem locked_in_promise_ignores_abort (fuel : nat) (st : State) (p k : nat) :
  alreadyResolved (nodes st p) = false ->
  outcome (nodes st p) = Pending ->
  let st1 := executor_resolve st p (VThenable k) in
  outcome (nodes st1 p) = Pending /\ _isSettled (nodes st1 p) = true /\
  (forall n r st2,
      result_state (abort fuel st1 n r) = Some st2 ->
      nodes st2 p = nodes st1 p) /\
  (forall s r st2,
      AbortControllerPlus_abort fuel st1 s r = Some st2 ->
      nodes st2 p = nodes st1 p) /\
  (forall x r st2,
      native_abort fuel st1 x r = Some st2 -> nodes st2 p = nodes st1 p) /\
  (forall v, nodes (executor_resolve st1 p v) p = nodes st1 p /\
             nodes (executor_reject st1 p v) p = nodes st1 p).
Proof.
  intros Hpend Hout st1.
  assert (Hnode : nodes st1 p
                  = mkNode (_parent (nodes st p)) (_reject (nodes st p)) true
                           (_signal (nodes st p)) true Pending).
  { unfold st1, executor_resolve, set_isSettled, promise_resolve.
    rewrite Hpend. simpl. rewrite !upd_same. reflexivity. }
  assert (Hres : alreadyResolved (nodes st1 p) = true) by (now rewrite Hnode).
  clearbody st1.
  split; [now rewrite Hnode|]. split; [now rewrite Hnode|].
  split; [|split; [|split]].
  - intros n r st2 H. destruct (abort_nodes _ _ _ _ H) as (_ & _ & K).
    now apply K.
  - intros s r st2 H. apply controller_abort_evolves in H.
    now apply (ev_resolved H).
  - intros x r st2 H. apply native_abort_evolves in H.
    now apply (ev_resolved H).
  - intro v. unfold executor_resolve, executor_reject, set_isSettled,
      thisReject, promise_resolve, promise_reject. simpl.
    rewrite Hres. simpl. rewrite !upd_same, Hnode. simpl. split; reflexivity.
Qed.

(** ** Promises of the native [Promise], wrapped *)

(** X5: [all], [allSettled], [any], [race] and [resolve] without a signal,
    and [reject], wrap a promise of the native [Promise] in a new root: it is
    pending when the function returns, whatever the values, and no other
    promise changes.  [abort] on it then rejects it, and only it, with
    [reason ?? new AbortError()]: the promises among the values are not
    aborted, and the outcome of the wrapped promise, when it arrives through
    the executor's capabilities, no longer counts. *)
Theorem abort_beats_wrapped_settlement (c : Combinator) (fuel : nat)
    (st : State) (values : list PromiseArg) (r v : value) :
  0 < fuel ->
  exists st1 st2,
    combinator c fuel st values None = Some (st1, next_id st) /\
    reject_ fuel st v = Some (st1, next_id st) /\
    nodes st1 (next_id st)
    = mkNode (next_id st) (next_id st) false None false Pending /\
    (forall m, m <> next_id st -> nodes st1 m = nodes st m) /\
    abort fuel st1 (next_id st) r = Ok st2 /\
    outcome (nodes st2 (next_id st)) = Rejected (snd (default_reason st1 r)) /\
    (forall m, m <> next_id st -> nodes st2 m = nodes st m) /\
    natives st2 = natives st /\ listeners st2 = listeners st /\
    outcome (nodes (executor_resolve st2 (next_id st) v) (next_id st))
    = Rejected (snd (default_reason st1 r)) /\
    outcome (nodes (executor_reject st2 (next_id st) v) (next_id st))
    = Rejected (snd (default_reason st1 r)).
Proof.
  intro Hf. destruct fuel as [|fuel]; [lia|].
  set (p := next_id st).
  set (st1 := run_executor
                (bump (upd_node st p (mkNode p p false None false Pending)))
                p []).
  assert (Hnode : nodes st1 p = mkNode p p false None false Pending).
  { unfold st1, run_executor. simpl. now rewrite upd_same. }
  assert (Hoth : forall m, m <> p -> nodes st1 m = nodes st m).
  { intros m Hm. unfold st1, run_executor. simpl. now apply upd_other. }
  pose proof (default_reason_same st1 r) as Hs.
  assert (Hab : abort (S fuel) st1 p r
                = Ok (thisReject (fst (default_reason st1 r)) p
                        (snd (default_reason st1 r)))).
  { unfold abort. destruct (default_reason st1 r) as [st1' r1].
    cbn [fst snd] in *. destruct Hs as (Hn' & _).
    unfold _doAbort, invoke_reject. cbn [walk]. rewrite Hn', Hnode.
    cbn [_parent _reject]. rewrite Nat.eqb_refl, Hnode. cbn [_reject].
    rewrite (ev_signal (evolves_thisReject st1' p r1)), Hn', Hnode.
    reflexivity. }
  set (st1' := fst (default_reason st1 r)) in *.
  set (r1 := snd (default_reason st1 r)) in *.
  destruct Hs as (Hn' & Hx' & _ & Hl' & _).
  exists st1, (thisReject st1' p r1).
  split; [reflexivity|]. split; [reflexivity|]. split; [exact Hnode|].
  split; [exact Hoth|]. split; [exact Hab|].
  assert (Hout : outcome (nodes (thisReject st1' p r1) p) = Rejected r1).
  { apply thisReject_pending. now rewrite Hn', Hnode. }
  assert (Hres : alreadyResolved (nodes (thisReject st1' p r1) p) = true)
    by apply thisReject_only_rejects.
  split; [exact Hout|]. split.
  { intros m Hm. rewrite (thisReject_others st1' p m r1 Hm), Hn'.
    now apply Hoth. }
  destruct (thisReject_frame st1' p r1) as (F1 & F2 & _).
  split; [now rewrite F2, Hx'|]. split; [now rewrite F1, Hl'|].
  pose proof (executor_call_frame (thisReject st1' p r1) p (ExecResolve v))
    as G1.
  pose proof (executor_call_frame (thisReject st1' p r1) p (ExecReject v))
    as G2.
  cbv beta iota zeta in G1, G2.
  destruct G1 as (_ & _ & _ & _ & _ & _ & _ & _ & _ & _ & K1).
  destruct G2 as (_ & _ & _ & _ & _ & _ & _ & _ & _ & _ & K2).
  split.
  - rewrite (proj2 (K1 p Hres)). exact Hout.
  - rewrite (proj2 (K2 p Hres)). exact Hout.
Qed.

(** ** A promise and a signal made for it *)

Lemma new_AbortControllerPlus_shape (st : State) :
  snd (new_AbortControllerPlus st) = S (next_id st) /\
  next_id (fst (new_AbortControllerPlus st)) = S (S (next_id st)) /\
  natives (fst (new_AbortControllerPlus st)) (next_id st)
  = mkNative false VUndefined None None /\
  (forall y, y <> next_id st ->
             natives (fst (new_AbortControllerPlus st)) y = natives st y) /\
  pluses (fst (new_AbortControllerPlus st)) (S (next_id st))
  = mkPlus (next_id st) None None /\
  (forall z, z <> S (next_id st) ->
             pluses (fst (new_AbortControllerPlus st)) z = pluses st z) /\
  nodes (fst (new_AbortControllerPlus st)) = nodes st /\
  listeners (fst (new_AbortControllerPlus st)) = listeners st /\
  timers (fst (new_AbortControllerPlus st)) = timers st.
Proof.
  simpl. rewrite !upd_same. repeat split; intros; now apply upd_other.
Qed.

Lemma reachable_new_AbortControllerPlus (st : State) :
  reachable st -> reachable (fst (new_AbortControllerPlus st)).
Proof.
  intro Hr. apply (@reach_step st 0 (OpNewAbortControllerPlus None)); auto.
  exact I.
Qed.

Lemma reachable_constructor (fuel : nat) (st st' : State)
    (executor : list ExecutorCall) (sg : SignalRef) (p : nat) :
  reachable st -> exists_signal st sg ->
  constructor fuel st executor (Some sg) = Some (st', p) -> reachable st'.
Proof.
  intros Hr He E.
  apply (@reach_step st fuel (OpConstructor executor (Some sg))); auto.
  simpl. now rewrite E.
Qed.

Lemma not_aborted_unfired (st : State) (x : nat) :
  allocated st -> native_aborted (natives st x) = false ->
  ns_aborted (natives st x) = false /\ own_aborted (natives st x) = None.
Proof.
  intros (_ & _ & Ho) H. specialize (Ho x). unfold native_aborted in H.
  destruct (own_aborted (natives st x)) as [[|]|]; try discriminate;
    [exfalso; now apply Ho | now split].
Qed.

(** X6: [newWithSignal(executor)] without a signal makes an
    [AbortControllerPlus] first and binds the new promise to its signal: a
    signal of its own, not aborted, with no timer, and with the promise's
    listener as its only listener.  When the controller of that signal
    aborts with [reason], the signal reads as aborted with
    [reason ?? new AbortError()] and the promise, if its executor has left it
    pending, is rejected with that same value. *)
Theorem newWithSignal_makes_own_signal (fuel : nat) (st : State)
    (executor : list ExecutorCall) (r : value) :
  reachable st ->
  next_id st + List.length (listeners st) + 6 < fuel ->
  exists st' st'',
    newWithSignal fuel st executor None = Some (st', S (S (next_id st))) /\
    _signal (nodes st' (S (S (next_id st)))) = Some (SPlus (S (next_id st))) /\
    sp_signal (pluses st' (S (next_id st))) = next_id st /\
    aborted st' (SPlus (S (next_id st))) = false /\
    hasTimeout st' (S (next_id st)) = false /\
    listeners_of st' (next_id st)
    = [mkListener (S (S (S (next_id st)))) (next_id st)
                  (CDoAbort (S (S (next_id st))) (SPlus (S (next_id st))))] /\
    AbortControllerPlus_abort fuel st' (S (next_id st)) r = Some st'' /\
    aborted st'' (SPlus (S (next_id st))) = true /\
    reason st'' (SPlus (S (next_id st))) = snd (default_reason st' r) /\
    (alreadyResolved (nodes st' (S (S (next_id st)))) = false ->
     outcome (nodes st'' (S (S (next_id st))))
     = Rejected (snd (default_reason st' r))).
Proof.
  intros Hr Hf.
  pose proof (reachable_allocated st Hr) as Hal.
  destruct (new_AbortControllerPlus_shape st)
    as (_ & Hcn & Hcx & Hcy & Hcp & Hcz & Hcnodes & Hcl & Hct).
  pose proof (reachable_new_AbortControllerPlus st Hr) as Hrc.
  set (stc := fst (new_AbortControllerPlus st)) in *.
  set (x := next_id st) in *. set (s := S x) in *. set (p := S (S x)) in *.
  assert (Hac : aborted stc (SPlus s) = false).
  { unfold aborted, native_of. rewrite Hcp. cbn [sp_signal]. now rewrite Hcx. }
  destruct (constructor_unfired_shape fuel stc executor (SPlus s) Hac)
    as [st' (E & Hl & Hx & Hp & Ht & Hn & Hpar & Hrej & Hsig & Hoth & _)].
  rewrite Hcn in E, Hl, Hn, Hpar, Hrej, Hsig.
  assert (EN : newWithSignal fuel st executor None = Some (st', p))
    by exact E.
  clearbody stc.
  assert (Hnat : native_of stc (SPlus s) = x)
    by (cbn [native_of]; now rewrite Hcp).
  rewrite Hnat, Hcl in Hl.
  assert (Hr' : reachable st').
  { apply (reachable_constructor fuel stc st' executor (SPlus s) p Hrc);
      [cbn [exists_signal]; rewrite Hcn; unfold s, x; lia | exact E]. }
  pose proof (reachable_Inv Hr') as HI'.
  set (l0 := mkListener (S p) x (CDoAbort p (SPlus s))) in *.
  assert (Hsp : sp_signal (pluses st' s) = x) by (now rewrite Hp, Hcp).
  assert (Hlof : listeners_of st' x = [l0]).
  { unfold listeners_of. rewrite Hl, filter_app.
    fold (listeners_of st x). rewrite (listeners_of_fresh st x Hal (le_n _)).
    simpl. now rewrite Nat.eqb_refl. }
  assert (Hq : quiet_listeners st' (sp_signal (pluses st' s))).
  { rewrite Hsp. intros l Hin Htg.
    assert (Hin' : In l (listeners_of st' x))
      by (apply listeners_of_In; now split).
    rewrite Hlof in Hin'. destruct Hin' as [<- | []]. simpl. exact Hsp. }
  assert (Hna : natives st' x = mkNative false VUndefined None None)
    by (now rewrite Hx, Hcx).
  destruct (controller_abort_quiet fuel st' s r (inv_wf HI') (inv_unique HI'))
    as [st'' (E' & Hev & Hxx & _ & Hrj)].
  { rewrite Hn, Hl, length_app. simpl. unfold p, x. lia. }
  { exact Hq. }
  { now rewrite Hsp, Hna. }
  { now rewrite Hsp, Hna. }
  rewrite Hsp, Hna in Hxx. simpl in Hxx.
  exists st', st''. split; [exact EN|]. split; [exact Hsig|].
  split; [exact Hsp|].
  split; [unfold aborted, native_of; now rewrite Hsp, Hna|].
  split; [unfold hasTimeout; now rewrite Hp, Hcp|].
  split; [exact Hlof|]. split; [exact E'|].
  assert (Hsp' : sp_signal (pluses st'' s) = x)
    by (now rewrite (ev_sp Hev)).
  split; [unfold aborted, native_of; now rewrite Hsp', Hxx|].
  split; [unfold reason, native_of; now rewrite Hsp', Hxx|].
  intro Hpend. apply (Hrj l0 p (SPlus s) p).
  - rewrite Hl. apply in_or_app. right. now left.
  - now rewrite Hsp.
  - reflexivity.
  - now apply cw_root.
  - exact Hpend.
Qed.

(** X7: the promise of a time limit.  [AbortSignalPlus.timeout(ms)] makes a
    signal with a timer; a promise is constructed on it; the timer elapses.
    Then the signal reads as aborted with a new TimeoutError, it has no timer
    any more, and the promise, if its executor has left it pending, is
    rejected with that TimeoutError. *)
Theorem timeout_rejects_bound_promise (fuel : nat) (st : State) (ms : Z)
    (executor : list ExecutorCall) :
  reachable st ->
  next_id st + List.length (listeners st) + 10 < fuel ->
  exists st1 st2 st3,
    AbortSignalPlus_timeout st ms None = (st1, S (next_id st)) /\
    hasTimeout st1 (S (next_id st)) = true /\
    constructor fuel st1 executor (Some (SPlus (S (next_id st))))
    = Some (st2, next_id st1) /\
    fire_timer fuel st2 (S (S (next_id st))) = Some st3 /\
    aborted st3 (SPlus (S (next_id st))) = true /\
    reason st3 (SPlus (S (next_id st)))
    = VDOMException (next_id st2) "TimeoutError" TimeoutError_message /\
    isTimeoutError (reason st3 (SPlus (S (next_id st)))) = true /\
    hasTimeout st3 (S (next_id st)) = false /\
    (alreadyResolved (nodes st2 (next_id st1)) = false ->
     outcome (nodes st3 (next_id st1))
     = Rejected (VDOMException (next_id st2) "TimeoutError"
                               TimeoutError_message)).
Proof.
  intros Hr Hf.
  pose proof (reachable_allocated st Hr) as Hal.
  pose proof (reachable_Inv Hr) as HI.
  destruct (new_AbortControllerPlus_shape st)
    as (_ & Hcn & Hcx & Hcy & Hcp & Hcz & Hcnodes & Hcl & Hct).
  pose proof (reachable_new_AbortControllerPlus st Hr) as Hrc.
  set (stc := fst (new_AbortControllerPlus st)) in *.
  set (x := next_id st) in *. set (s := S x) in *.
  destruct (timeout_shape stc s ms)
    as (_ & H1nodes & H1x & _ & H1n & H1l & H1t & H1po & H1ps).
  assert (Hr1 : reachable (fst (timeout stc s ms))).
  { apply (@reach_step stc 0 (OpTimeout s ms)); auto.
    cbn [valid]. rewrite Hcn. unfold s, x. lia. }
  assert (ET : AbortSignalPlus_timeout st ms None
               = (fst (timeout stc s ms), s)).
  { unfold AbortSignalPlus_timeout, _createController.
    rewrite (surjective_pairing (new_AbortControllerPlus st)).
    fold stc. rewrite (proj1 (new_AbortControllerPlus_shape st)). fold x s.
    rewrite (surjective_pairing (timeout stc s ms)).
    now rewrite (proj1 (timeout_shape stc s ms)). }
  set (st1 := fst (timeout stc s ms)) in *.
  clearbody st1. clearbody stc.
  rewrite Hcp in H1l, H1t, H1ps. simpl in H1l, H1t, H1ps.
  rewrite Hcn in H1l, H1t, H1ps, H1n. rewrite Hcl in H1l. rewrite Hct in H1t.
  fold s in H1l, H1t, H1ps, H1n.
  assert (Ha1 : aborted st1 (SPlus s) = false).
  { unfold aborted, native_of. rewrite H1ps. cbn [sp_signal]. now rewrite H1x, Hcx. }
  destruct (constructor_unfired_shape fuel st1 executor (SPlus s) Ha1)
    as [st2 (E2 & H2l & H2x & H2p & H2t & H2n & Hpar & Hrej & Hsig & _)].
  assert (Hnat : native_of st1 (SPlus s) = x)
    by (cbn [native_of]; now rewrite H1ps).
  rewrite Hnat, H1l in H2l.
  assert (Hr2 : reachable st2).
  { apply (reachable_constructor fuel st1 st2 executor (SPlus s)
             (next_id st1) Hr1);
      [cbn [exists_signal]; rewrite H1n; lia | exact E2]. }
  pose proof (reachable_Inv Hr2) as HI2.
  set (p := next_id st1) in *.
  set (T := mkTimer (S s) s ms) in *.
  set (lc := mkListener (S (S s)) x (CClearTimer s)) in *.
  set (lp := mkListener (S p) x (CDoAbort p (SPlus s))) in *.
  assert (Hfind : find (fun e' => tid e' =? S s) (timers st2) = Some T).
  { rewrite H2t, H1t. apply find_app_last; [|apply Nat.eqb_refl].
    intros b Hb. apply (inv_tids HI) in Hb. apply Nat.eqb_neq.
    unfold s, x. lia. }
  set (stq := bump (clearTimeout st2 (Some (S s)))).
  assert (Hevq : evolves st2 stq).
  { eapply evolves_trans; [apply evolves_clearTimeout | apply evolves_bump]. }
  assert (Hspq : sp_signal (pluses stq s) = x)
    by (unfold stq; simpl; now rewrite H2p, H1ps).
  assert (Hnaq : natives stq x = mkNative false VUndefined None None)
    by (unfold stq; simpl; now rewrite H2x, H1x, Hcx).
  assert (Hq : quiet_listeners stq (sp_signal (pluses stq s))).
  { rewrite Hspq. intros l Hin Htg.
    change (listeners stq) with (listeners st2) in Hin. rewrite H2l in Hin.
    apply (quiet_body_same st2); [reflexivity|].
    apply in_app_or in Hin. destruct Hin as [Hin | [<- | []]].
    - apply in_app_or in Hin. destruct Hin as [Hin | [<- | []]].
      + exfalso. destruct Hal as (Hb & _). apply Hb in Hin.
        unfold x in Htg. lia.
      + exact I.
    - simpl. now rewrite H2p, H1ps. }
  set (err := VDOMException (next_id st2) "TimeoutError" TimeoutError_message).
  destruct (controller_abort_quiet fuel stq s err)
    as [st3' (E3 & Hev3 & Hxx & _ & Hrj)].
  { apply (wf_evolves Hevq (inv_wf HI2)). }
  { exact (ev_nodup Hevq (inv_unique HI2)). }
  { change (listeners stq) with (listeners st2). unfold stq. simpl.
    rewrite H2n, H2l, !length_app. simpl. rewrite H1n.
    unfold s, x in *. lia. }
  { exact Hq. }
  { now rewrite Hspq, Hnaq. }
  { now rewrite Hspq, Hnaq. }
  rewrite Hspq, Hnaq in Hxx. simpl in Hxx. rewrite Hspq in Hrj.
  change (snd (default_reason stq err)) with err in Hrj.
  set (st3 := upd_plus st3' s (mkPlus (sp_signal (pluses st3' s)) None None)).
  assert (Hfire : fire_timer fuel st2 (S s) = Some st3).
  { unfold fire_timer. rewrite Hfind. cbn [owner T].
    change (new_TimeoutError
              (set_timers st2
                 (filter (fun e' => negb (tid e' =? S s)) (timers st2))))
      with (stq, err).
    cbv beta iota. rewrite E3. reflexivity. }
  assert (Hsp3 : sp_signal (pluses st3 s) = x).
  { unfold st3. simpl. rewrite upd_same. simpl. now rewrite (ev_sp Hev3). }
  exists st1, st2, st3.
  split; [exact ET|].
  split; [unfold hasTimeout; now rewrite H1ps|].
  split; [exact E2|]. split; [exact Hfire|].
  assert (Hxx3 : natives st3 x = mkNative true err None None) by exact Hxx.
  split; [unfold aborted, native_of; now rewrite Hsp3, Hxx3|].
  assert (Hre : reason st3 (SPlus s) = err)
    by (unfold reason, native_of; now rewrite Hsp3, Hxx3).
  split; [exact Hre|]. split; [now rewrite Hre|].
  split; [unfold hasTimeout, st3; simpl; now rewrite upd_same|].
  intro Hpend. change (nodes st3) with (nodes st3').
  apply (Hrj lp p (SPlus s) p).
  - change (listeners stq) with (listeners st2). rewrite H2l.
    apply in_or_app. right. now left.
  - reflexivity.
  - reflexivity.
  - apply cw_root. change (nodes stq) with (nodes st2). exact Hpar.
  - exact Hpend.
Qed.

(** ** [abort] on a promise bound to a native signal *)

(** X8: a promise bound to a native [AbortSignal] that has not fired, and that
    only promises and timers listen to, is aborted.  The signal then reads
    as aborted with [reason ?? new AbortError()], but only through the
    properties forced onto it: its native state is untouched, so
    [throwIfAborted()] of an [AbortSignalPlus] wrapping it does not throw
    although that signal reads as aborted too; and when the native
    controller aborts later, the reason read from the signal stays the
    forced one. *)
Theorem forced_abort_is_invisible_to_native (fuel : nat) (st : State)
    (n x : nat) (r : value) :
  reachable st -> n < fuel -> ample st fuel ->
  _signal (nodes st n) = Some (SNative x) ->
  quiet_listeners st x ->
  ns_aborted (natives st x) = false ->
  own_aborted (natives st x) = None -> own_reason (natives st x) = None ->
  exists st',
    abort fuel st n r = Ok st' /\
    aborted st' (SNative x) = true /\
    reason st' (SNative x) = snd (default_reason st r) /\
    ns_aborted (natives st' x) = false /\
    (forall w, sp_signal (pluses st w) = x ->
               aborted st' (SPlus w) = true /\ throwIfAborted st' w = None) /\
    (forall fuel' r' st'',
        native_abort fuel' st' x r' = Some st'' ->
        reason st'' (SNative x) = snd (default_reason st r)).
Proof.
  intros Hr Hn Hf Hsig Hq Ha Hoa Hor.
  pose proof (inv_wf (reachable_Inv Hr)) as Hwf.
  pose proof (default_reason_same st r) as Hs.
  pose proof (same_but_next_wf Hs Hwf) as Hwf1.
  destruct (@doAbort_target fuel (fst (default_reason st r)) n
              (snd (default_reason st r)) (proj1 Hwf1) Hn)
    as [t (_ & _ & Hd)].
  set (st2 := thisReject (fst (default_reason st r)) t
                (snd (default_reason st r))) in *.
  set (st3 := upd_native st2 x
                (mkNative false (ns_reason (natives st x)) (Some true)
                          (Some (snd (default_reason st r))))).
  destruct (thisReject_frame (fst (default_reason st r)) t
              (snd (default_reason st r))) as (F1 & F2 & F3 & _ & F5).
  fold st2 in F1, F2, F3, F5.
  pose proof (evolves_thisReject (fst (default_reason st r)) t
                (snd (default_reason st r))) as Hev2.
  fold st2 in Hev2.
  assert (Hx2 : natives st2 x = natives st x).
  { rewrite F2. destruct Hs as (_ & Hx & _). now rewrite Hx. }
  assert (Hab : abort fuel st n r = lift (dispatchEvent fuel st3 x)).
  { unfold abort. unfold st3, st2 in *. clear st3 st2.
    destruct (default_reason st r) as [a b]. cbn [fst snd] in *.
    rewrite Hd. rewrite (ev_signal Hev2).
    destruct Hs as (Hnodes & _). rewrite Hnodes, Hsig.
    unfold defineProperty_aborted. rewrite Hx2, Hoa.
    unfold defineProperty_reason. cbn [own_reason ns_aborted ns_reason own_aborted].
    rewrite Hor, Ha. reflexivity. }
  destruct Hs as (Hnodes & Hx & Hp & Hl & _ & _ & Hi).
  assert (Hwf3 : wf st3).
  { destruct (wf_evolves Hev2 Hwf1) as [W1 W2]. split; [exact W1 | exact W2]. }
  destruct (@dispatchEvent_total fuel st3 x Hwf3) as [st' E].
  { unfold enough, ample in *. change (next_id st3) with (next_id st2).
    change (listeners st3) with (listeners st2). rewrite F5, F1, Hl.
    destruct Hi as [Hi | Hi]; rewrite Hi; lia. }
  assert (Hq3 : quiet_listeners st3 x).
  { apply (quiet_listeners_same st); [| |exact Hq].
    - change (listeners st3) with (listeners st2). now rewrite F1, Hl.
    - change (pluses st3) with (pluses st2). now rewrite F3, Hp. }
  destruct (dispatchEvent_quiet fuel st3 st' x Hq3 E) as (X & S & _).
  assert (Hx' : natives st' x
                = mkNative false (ns_reason (natives st x)) (Some true)
                           (Some (snd (default_reason st r)))).
  { rewrite X. unfold st3. cbn [natives upd_native set_natives].
    apply upd_same. }
  exists st'. rewrite Hab, E. split; [reflexivity|].
  split; [unfold aborted, native_of; now rewrite Hx'|].
  split; [unfold reason, native_of; now rewrite Hx'|].
  split; [now rewrite Hx'|]. split.
  - intros w Hw.
    assert (Hw' : sp_signal (pluses st' w) = x).
    { rewrite S. change (pluses st3) with (pluses st2). now rewrite F3, Hp. }
    split; [unfold aborted, native_of; now rewrite Hw', Hx'|].
    unfold throwIfAborted. now rewrite Hw', Hx'.
  - intros fuel' r' st'' H. apply native_abort_evolves in H.
    unfold reason, native_of, native_reason.
    now rewrite (ev_own_reason H), Hx'.
Qed.

(** ** The controller's [abort] *)

Lemma controller_abort_on_fired (fuel : nat) (st : State) (s : nat)
    (r : value) :
  0 < fuel ->
  ns_aborted (natives st (sp_signal (pluses st s))) = true ->
  exists st',
    AbortControllerPlus_abort fuel st s r = Some st' /\
    nodes st' = nodes st /\ natives st' = natives st /\
    pluses st' = pluses st /\ listeners st' = listeners st /\
    timers st' = timers st /\
    calls st' = calls st ++ [CallControllerAbort s r] /\
    reason st' (SPlus s) = reason st (SPlus s).
Proof.
  intros Hf Ha. destruct fuel as [|fuel]; [lia|].
  unfold AbortControllerPlus_abort, AbortControllerPlus_abort_via.
  pose proof (default_reason_same (log st (CallControllerAbort s r)) r) as Hd.
  destruct (default_reason (log st (CallControllerAbort s r)) r) as [st1 r1].
  cbn [fst] in Hd. destruct Hd as (Hn & Hx & Hp & Hl & Ht & Hc & _).
  cbn [nodes natives pluses listeners timers calls log] in Hn, Hx, Hp, Hl, Ht, Hc.
  exists st1. cbn [native_abort]. rewrite Hx, Hp, Ha.
  repeat (split; [assumption || reflexivity|]).
  unfold reason, native_of. now rewrite Hx, Hp.
Qed.

(** X9: the controller's [abort] fires once.  On a signal that has fired it
    comes back with nothing changed but the record of the call: no listener
    runs or leaves, no promise, signal or timer changes, whatever the reason
    given, so the signal keeps the reason of the first abort. *)
Theorem controller_abort_is_single_fire (fuel : nat) (st : State) (s : nat)
    (r : value) :
  0 < fuel ->
  ns_aborted (natives st (sp_signal (pluses st s))) = true ->
  exists st',
    AbortControllerPlus_abort fuel st s r = Some st' /\
    nodes st' = nodes st /\ natives st' = natives st /\
    pluses st' = pluses st /\ listeners st' = listeners st /\
    timers st' = timers st /\
    calls st' = calls st ++ [CallControllerAbort s r] /\
    reason st' (SPlus s) = reason st (SPlus s).
Proof. exact (controller_abort_on_fired fuel st s r). Qed.

(** X10: the controller's [abort] with no reason, or with [null], aborts a
    signal that has not fired with a new AbortError carrying the default
    message: [isAbortError] holds of the reason read from the signal
    afterwards, and [isTimeoutError] does not. *)
Theorem controller_abort_defaults_to_AbortError (fuel : nat) (st : State)
    (s : nat) (r : value) :
  reachable st ->
  S (S (next_id st)) + List.length (listeners st) < fuel ->
  nullish r = true -> unfired st (SPlus s) ->
  exists st',
    AbortControllerPlus_abort fuel st s r = Some st' /\
    aborted st' (SPlus s) = true /\
    reason st' (SPlus s)
    = VDOMException (next_id st) "AbortError" AbortError_message /\
    isAbortError (reason st' (SPlus s)) = true /\
    isTimeoutError (reason st' (SPlus s)) = false.
Proof.
  intros Hr Hf Hnull (U1 & U2 & U3). cbn [native_of] in U1, U2, U3.
  pose proof (inv_wf (reachable_Inv Hr)) as Hwf.
  destruct (@controller_abort_total fuel st s r Hwf) as [st' E]; [lia|].
  exists st'. split; [exact E|].
  pose proof (@controller_abort_evolves fuel st st' s r E) as Hev.
  unfold AbortControllerPlus_abort, AbortControllerPlus_abort_via,
    default_reason in E.
  rewrite Hnull in E. cbn [new_AbortError] in E.
  cbn [pluses bump log next_id] in E.
  apply native_abort_effect in E; [|exact U1|discriminate].
  destruct E as [A1 A2].
  assert (Hre : reason st' (SPlus s)
                = VDOMException (next_id st) "AbortError" AbortError_message).
  { unfold reason, native_of, native_reason.
    now rewrite (ev_sp Hev), (ev_own_reason Hev), U3, A2. }
  split.
  - unfold aborted, native_of, native_aborted.
    now rewrite (ev_sp Hev), (ev_own_aborted Hev), U2, A1.
  - rewrite Hre. repeat split.
Qed.

(** ** Signals made from native signals *)

(** X11: [AbortSignalPlus.from(signal)] on a native signal that has not fired
    (which is [AbortSignalPlus.one(signal)]) does not wrap it: the result is
    a signal of a new controller, with a native signal of its own, tied to
    the given one by a listener.  The tie goes one way.  Aborting the result
    leaves the given signal as it was, not aborted; aborting the given
    signal's controller leaves the result aborted. *)
Theorem from_native_signal_links_one_way (fuel : nat) (st : State) (x : nat)
    (r : value) :
  reachable st -> x < next_id st ->
  next_id st + List.length (listeners st) + 5 < fuel ->
  aborted st (SNative x) = false ->
  exists st',
    AbortSignalPlus_from fuel st (SNative x) = Some (st', S (next_id st)) /\
    AbortSignalPlus_one fuel st (SNative x) None
    = Some (st', S (next_id st)) /\
    sp_signal (pluses st' (S (next_id st))) = next_id st /\
    aborted st' (SPlus (S (next_id st))) = false /\
    listeners st'
    = listeners st
      ++ [mkListener (S (S (next_id st))) x
                     (CForward (S (next_id st)) (SNative x))] /\
    (exists st'',
        AbortControllerPlus_abort fuel st' (S (next_id st)) r = Some st'' /\
        aborted st'' (SPlus (S (next_id st))) = true /\
        natives st'' x = natives st x /\
        aborted st'' (SNative x) = false) /\
    (exists st'',
        native_abort fuel st' x r = Some st'' /\
        aborted st'' (SNative x) = true /\
        aborted st'' (SPlus (S (next_id st))) = true).
Proof.
  intros Hr Hx Hf Ha.
  pose proof (reachable_allocated st Hr) as Hal.
  destruct (not_aborted_unfired st x Hal Ha) as [Hns Hown].
  destruct (new_AbortControllerPlus_shape st)
    as (_ & Hcn & Hcx & Hcy & Hcp & Hcz & Hcnodes & Hcl & Hct).
  set (stc := fst (new_AbortControllerPlus st)) in *.
  set (s := S (next_id st)) in *.
  set (st' := addEventListener stc (SNative x) (CForward s (SNative x))).
  assert (Hxc : natives stc x = natives st x) by (apply Hcy; lia).
  assert (Hac : aborted stc (SNative x) = false).
  { unfold aborted, native_of. rewrite Hxc. exact Ha. }
  assert (EF : AbortSignalPlus_from fuel st (SNative x) = Some (st', s)).
  { unfold AbortSignalPlus_from.
    rewrite (surjective_pairing (new_AbortControllerPlus st)). fold stc.
    rewrite (proj1 (new_AbortControllerPlus_shape st)). fold s.
    unfold one, _listen. rewrite Hac. reflexivity. }
  assert (Hr' : reachable st').
  { apply (@reach_step st fuel (OpSignalFrom (SNative x))); auto.
    cbn [step]. rewrite EF. reflexivity. }
  assert (Hl' : listeners st'
                = listeners st ++ [mkListener (S s) x (CForward s (SNative x))]).
  { unfold st'. cbn [listeners addEventListener bump set_listeners native_of].
    now rewrite Hcl, Hcn. }
  assert (Hx' : natives st' = natives stc) by reflexivity.
  assert (Hp' : pluses st' = pluses stc) by reflexivity.
  assert (Hn' : next_id st' = S (S s)).
  { unfold st'. cbn [next_id addEventListener bump set_listeners].
    now rewrite Hcn. }
  clearbody st'. clearbody stc.
  pose proof (reachable_Inv Hr') as HI'.
  pose proof (reachable_allocated st' Hr') as Hal'.
  assert (Hsp : sp_signal (pluses st' s) = next_id st) by (now rewrite Hp', Hcp).
  assert (Hna : natives st' (next_id st) = mkNative false VUndefined None None)
    by (now rewrite Hx', Hcx).
  exists st'. split; [exact EF|]. split; [exact EF|]. split; [exact Hsp|].
  split; [unfold aborted, native_of; now rewrite Hsp, Hna|].
  split; [exact Hl'|]. split.
  - (* aborting the new signal *)
    assert (Hq : quiet_listeners st' (sp_signal (pluses st' s))).
    { rewrite Hsp. intros l Hin Htg. exfalso. rewrite Hl' in Hin.
      apply in_app_or in Hin. destruct Hin as [Hin | [<- | []]].
      - destruct Hal as (Hb & _). apply Hb in Hin. lia.
      - simpl in Htg. lia. }
    destruct (controller_abort_quiet fuel st' s r (inv_wf HI') (inv_unique HI'))
      as [st'' (E' & Hev & Hxx & Hy & _)].
    { rewrite Hn', Hl', length_app. simpl. unfold s. lia. }
    { exact Hq. }
    { now rewrite Hsp, Hna. }
    { now rewrite Hsp, Hna. }
    rewrite Hsp, Hna in Hxx. cbn [own_aborted] in Hxx. rewrite Hsp in Hy.
    exists st''. split; [exact E'|].
    assert (Hxs : natives st'' x = natives st x).
    { rewrite Hy; [|lia]. now rewrite Hx', Hxc. }
    split; [unfold aborted, native_of; now rewrite (ev_sp Hev), Hsp, Hxx|].
    split; [exact Hxs|]. unfold aborted, native_of. now rewrite Hxs.
  - (* aborting the given signal *)
    destruct (@native_abort_total fuel st' x r (inv_wf HI')) as [st'' E'].
    { unfold enough. rewrite Hn', Hl', length_app. simpl. unfold s. lia. }
    exists st''. split; [exact E'|].
    pose proof (native_abort_evolves _ _ _ _ E') as Hev.
    assert (Hns' : ns_aborted (natives st' x) = false)
      by (now rewrite Hx', Hxc).
    split.
    + pose proof (native_abort_fires fuel st' x r st'' E') as Hfx.
      unfold aborted, native_of, native_aborted.
      now rewrite (ev_own_aborted Hev), Hx', Hxc, Hown.
    + destruct (native_abort_took fuel st' x r st''
                  (inv_unique HI') (proj1 (inv_wf HI')) E') as [L _].
      destruct (@native_abort_calls_listeners fuel st' st'' x r Hns' E')
        as [d [_ Hall]].
      set (l0 := mkListener (S s) x (CForward s (SNative x))).
      assert (Hin : In l0 (listeners st'))
        by (rewrite Hl'; apply in_or_app; right; now left).
      destruct (Hall l0 Hin eq_refl) as [_ Hun].
      pose proof (L l0 Hin Hun) as Eff. cbn [body l0 effect] in Eff.
      unfold aborted, native_of, native_aborted.
      rewrite (ev_own_aborted Hev), (ev_sp Hev), Hsp.
      rewrite (ev_sp Hev), Hsp in Eff. now rewrite Hna, Eff.
Qed.

(** ** When a signal fires *)

Lemma controller_abort_calls_listeners (fuel : nat) (st st' : State) (s : nat)
    (r : value) :
  ns_aborted (natives st (sp_signal (pluses st s))) = false ->
  AbortControllerPlus_abort fuel st s r = Some st' ->
  forall l, In l (listeners st) -> target l = sp_signal (pluses st s) ->
            registered st' (lid l) = false /\
            In (CallListener (lid l)) (new_calls st st').
Proof.
  intros Ha E l Hin Ht.
  pose proof (@controller_abort_evolves fuel st st' s r E) as Hev.
  unfold AbortControllerPlus_abort, AbortControllerPlus_abort_via in E.
  pose proof (default_reason_same (log st (CallControllerAbort s r)) r) as Hd.
  destruct (default_reason (log st (CallControllerAbort s r)) r) as [st1 r1].
  cbn [fst] in Hd. destruct Hd as (_ & Hx & Hp & Hl & _).
  cbn [natives pluses listeners log] in Hx, Hp, Hl. rewrite Hp in E.
  assert (Ha1 : ns_aborted (natives st1 (sp_signal (pluses st s))) = false)
    by (now rewrite Hx).
  destruct (@native_abort_calls_listeners fuel st1 st' _ r1 Ha1 E)
    as [d [_ Hall]].
  assert (Hin1 : In l (listeners st1)) by (now rewrite Hl).
  destruct (Hall l Hin1 Ht) as [_ Hun]. split; [exact Hun|].
  destruct (ev_calls Hev) as [d' [Hc Hlog]].
  rewrite (@new_calls_app st st' d' Hc). apply Hlog; [|exact Hun].
  apply registered_In. eauto.
Qed.

(** X12: when the controller of a signal that has not fired aborts, the call
    comes back, and every listener that was registered on the signal has
    been called and has left the registry.  For the listener of a promise,
    the promise's chain-walk target is settled or locked in afterwards, and
    rejected if it was pending; for the listener of a signal made by [one] or
    [any], that signal has fired too, whatever chain of signals lies between;
    for the listener of a timer, the timer's signal has no timer left. *)
Theorem fired_signal_reaches_every_listener (fuel : nat) (st : State)
    (s : nat) (r : value) :
  reachable st ->
  S (next_id st) + List.length (listeners st) < fuel ->
  ns_aborted (natives st (sp_signal (pluses st s))) = false ->
  exists st',
    AbortControllerPlus_abort fuel st s r = Some st' /\
    forall l,
      In l (listeners st) -> target l = sp_signal (pluses st s) ->
      registered st' (lid l) = false /\
      In (CallListener (lid l)) (new_calls st st') /\
      match body l with
      | CDoAbort p _ =>
          forall t, chain_walk st p t ->
                    alreadyResolved (nodes st' t) = true /\
                    (alreadyResolved (nodes st t) = false ->
                     exists r', outcome (nodes st' t) = Rejected r')
      | CForward d _ =>
          ns_aborted (natives st' (sp_signal (pluses st d))) = true /\
          throwIfAborted st' d <> None
      | CClearTimer d => hasTimeout st' d = false
      end.
Proof.
  intros Hr Hf Ha. pose proof (reachable_Inv Hr) as HI.
  destruct (@controller_abort_total fuel st s r (inv_wf HI) Hf) as [st' E].
  exists st'. split; [exact E|]. intros l Hin Ht.
  destruct (controller_abort_calls_listeners fuel st st' s r Ha E l Hin Ht)
    as [Hun Hcalled].
  split; [exact Hun|]. split; [exact Hcalled|].
  pose proof (@controller_abort_evolves fuel st st' s r E) as Hev.
  destruct (controller_abort_took fuel st st' s r (inv_unique HI)
              (proj1 (inv_wf HI)) E) as [[L O] _].
  pose proof (L l Hin Hun) as Eff.
  destruct (body l) as [p sg | d sg | d]; cbn [effect] in Eff.
  - intros t Hc.
    assert (Hres : alreadyResolved (nodes st' t) = true).
    { apply Eff. now apply (chain_walk_evolves st st' p t Hev). }
    split; [exact Hres|]. intro Hpend. now apply O.
  - rewrite (ev_sp Hev) in Eff. split; [exact Eff|].
    unfold throwIfAborted. rewrite (ev_sp Hev), Eff. discriminate.
  - unfold hasTimeout. now rewrite Eff.
Qed.

(** X13: when the controller of a signal aborts with [reason], and the
    signal had not fired and has only promises and timers listening (no
    signal made by [one] or [any] depends on it), the signal reads as aborted
    with [reason ?? new AbortError()], and every promise that listens to it
    and whose chain-walk target was pending has that target rejected with
    exactly that value. *)
Theorem quiet_signal_rejects_with_its_reason (fuel : nat) (st : State)
    (s : nat) (r : value) :
  reachable st ->
  S (next_id st) + List.length (listeners st) < fuel ->
  quiet_listeners st (sp_signal (pluses st s)) ->
  unfired st (SPlus s) ->
  exists st',
    AbortControllerPlus_abort fuel st s r = Some st' /\
    aborted st' (SPlus s) = true /\
    reason st' (SPlus s) = snd (default_reason st r) /\
    forall l p sg t,
      In l (listeners st) -> target l = sp_signal (pluses st s) ->
      body l = CDoAbort p sg -> chain_walk st p t ->
      alreadyResolved (nodes st t) = false ->
      outcome (nodes st' t) = Rejected (snd (default_reason st r)).
Proof.
  intros Hr Hf Hq (U1 & U2 & U3). cbn [native_of] in U1, U2, U3.
  pose proof (reachable_Inv Hr) as HI.
  destruct (controller_abort_quiet fuel st s r (inv_wf HI) (inv_unique HI)
              Hf Hq U1 U3) as [st' (E & Hev & Hxx & _ & Hrj)].
  exists st'. split; [exact E|]. rewrite U2 in Hxx.
  split; [unfold aborted, native_of; now rewrite (ev_sp Hev), Hxx|].
  split; [unfold reason, native_of; now rewrite (ev_sp Hev), Hxx|].
  exact Hrj.
Qed.

(** X16: the controller's [abort] always comes back, however the signals are
    tied to each other by [one] and [any], in a ring too: a listener leaves
    the registry before it runs, so no listener runs twice.  Afterwards the
    signal has fired, and the registry holds only listeners it held before. *)
Theorem abort_of_linked_signals_returns (fuel : nat) (st : State) (s : nat)
    (r : value) :
  reachable st ->
  S (next_id st) + List.length (listeners st) < fuel ->
  exists st',
    AbortControllerPlus_abort fuel st s r = Some st' /\
    ns_aborted (natives st' (sp_signal (pluses st s))) = true /\
    (forall l, In l (listeners st') -> In l (listeners st)) /\
    NoDup (map lid (listeners st')).
Proof.
  intros Hr Hf. pose proof (reachable_Inv Hr) as HI.
  destruct (@controller_abort_total fuel st s r (inv_wf HI) Hf) as [st' E].
  exists st'. split; [exact E|].
  pose proof (@controller_abort_evolves fuel st st' s r E) as Hev.
  split; [|split].
  - now destruct (controller_abort_took fuel st st' s r (inv_unique HI)
                    (proj1 (inv_wf HI)) E).
  - apply (ev_listeners Hev).
  - apply (ev_nodup Hev). exact (inv_unique HI).
Qed.

(** ** A controller on a native controller *)

(** X17: [_createController], behind the static [timeout], [one] and [any]
    and the signal's constructor.  Given a native controller it makes an
    [AbortControllerPlus] on it, whose signal is a view of the native
    controller's signal: it reads as aborted, and with the same reason, when
    that one does, and no listener or native signal is made.  Given that
    [AbortControllerPlus] back, it returns it and makes nothing.  Aborting
    the new controller aborts the native signal itself. *)
Theorem controller_on_native_controller_shares_signal (fuel : nat)
    (st : State) (x : nat) (r : value) :
  reachable st -> x < next_id st ->
  next_id st + List.length (listeners st) + 2 < fuel ->
  exists st',
    _createController st (Some (CtlNative x)) = (st', next_id st) /\
    sp_signal (pluses st' (next_id st)) = x /\
    natives st' = natives st /\ listeners st' = listeners st /\
    aborted st' (SPlus (next_id st)) = aborted st (SNative x) /\
    reason st' (SPlus (next_id st)) = reason st (SNative x) /\
    _createController st' (Some (CtlPlus (next_id st))) = (st', next_id st) /\
    exists st'',
      AbortControllerPlus_abort fuel st' (next_id st) r = Some st'' /\
      ns_aborted (natives st'' x) = true /\
      aborted st'' (SNative x) = true /\
      aborted st'' (SPlus (next_id st)) = true /\
      throwIfAborted st'' (next_id st) <> None.
Proof.
  intros Hr Hx Hf.
  set (st' := fst (AbortControllerPlus_constructor st (Some x))).
  assert (Hr' : reachable st').
  { apply (@reach_step st 0 (OpNewAbortControllerPlus (Some x))); auto. }
  assert (Hsp : sp_signal (pluses st' (next_id st)) = x).
  { unfold st'. cbn. now rewrite upd_same. }
  assert (Hn' : next_id st' = S (next_id st)) by reflexivity.
  assert (Hxs : natives st' = natives st) by reflexivity.
  assert (Hl' : listeners st' = listeners st) by reflexivity.
  assert (EC : _createController st (Some (CtlNative x)) = (st', next_id st))
    by reflexivity.
  clearbody st'.
  pose proof (reachable_Inv Hr') as HI'.
  pose proof (reachable_allocated st' Hr') as (_ & _ & Hown).
  exists st'. split; [exact EC|]. split; [exact Hsp|]. split; [exact Hxs|].
  split; [exact Hl'|].
  split; [unfold aborted, native_of; now rewrite Hsp, Hxs|].
  split; [unfold reason, native_of; now rewrite Hsp, Hxs|].
  split; [reflexivity|].
  destruct (@controller_abort_total fuel st' (next_id st) r (inv_wf HI'))
    as [st'' E].
  { rewrite Hn', Hl'. lia. }
  exists st''. split; [exact E|].
  pose proof (@controller_abort_evolves fuel st' st'' (next_id st) r E) as Hev.
  destruct (controller_abort_took fuel st' st'' (next_id st) r
              (inv_unique HI') (proj1 (inv_wf HI')) E) as [_ Hfired].
  rewrite Hsp in Hfired.
  assert (Hab : native_aborted (natives st'' x) = true).
  { unfold native_aborted. rewrite (ev_own_aborted Hev).
    specialize (Hown x).
    destruct (own_aborted (natives st' x)) as [[|]|];
      [reflexivity | exfalso; now apply Hown | exact Hfired]. }
  split; [exact Hfired|]. split; [exact Hab|].
  split; [unfold aborted, native_of; now rewrite (ev_sp Hev), Hsp|].
  unfold throwIfAborted. rewrite (ev_sp Hev), Hsp, Hfired. discriminate.
Qed.

(** ** A timer on a signal that has fired *)

(** X18: [timeout(ms)] on a signal that has fired still arms a timer, and
    [hasTimeout()] is true.  When that timer elapses, the controller's
    [abort] does nothing: no promise and no signal changes, the signal keeps
    its reason (it does not become a TimeoutError), the timer is gone and
    [hasTimeout()] is false; the listener that [timeout] registered to clear
    the timer has not run and is still registered. *)
Theorem timeout_on_fired_signal_is_harmless (fuel : nat) (st : State)
    (s : nat) (ms : Z) :
  reachable st -> s < next_id st -> 0 < fuel ->
  ns_aborted (natives st (sp_signal (pluses st s))) = true ->
  hasTimeout (fst (timeout st s ms)) s = true /\
  armed_of (fst (timeout st s ms)) s = [mkTimer (next_id st) s ms] /\
  exists st',
    fire_timer fuel (fst (timeout st s ms)) (next_id st) = Some st' /\
    nodes st' = nodes st /\ natives st' = natives st /\
    reason st' (SPlus s) = reason st (SPlus s) /\
    hasTimeout st' s = false /\ armed_of st' s = [] /\
    In (mkListener (S (next_id st)) (sp_signal (pluses st s)) (CClearTimer s))
       (listeners st').
Proof.
  intros Hr Hs Hf Ha. pose proof (reachable_Inv Hr) as HI.
  pose proof (@armed_after_timeout st s ms (inv_tinv HI)) as Harmed.
  destruct (timeout_shape st s ms)
    as (_ & Hnodes & Hx & _ & Hi & Hl & Ht & Hpo & Hps).
  set (stB := fst (timeout st s ms)) in *. clearbody stB.
  split; [unfold hasTimeout; now rewrite Hps|]. split; [exact Harmed|].
  set (T := mkTimer (next_id st) s ms) in *.
  assert (Hfind : find (fun e' => tid e' =? next_id st) (timers stB) = Some T).
  { rewrite Ht. apply find_app_last; [|apply Nat.eqb_refl].
    intros b Hb. apply clearTimeout_In, (inv_tids HI) in Hb.
    apply Nat.eqb_neq. lia. }
  set (stq := bump (clearTimeout stB (Some (next_id st)))).
  set (err := VDOMException (next_id stB) "TimeoutError" TimeoutError_message).
  assert (Haq : ns_aborted (natives stq (sp_signal (pluses stq s))) = true).
  { unfold stq. cbn [natives pluses bump clearTimeout set_timers].
    rewrite Hx, Hps. cbn [sp_signal]. exact Ha. }
  destruct (controller_abort_on_fired fuel stq s err Hf Haq)
    as [st3 (E3 & N3 & X3 & P3 & L3 & T3 & _)].
  set (st' := upd_plus st3 s (mkPlus (sp_signal (pluses st3 s)) None None)).
  assert (Hfire : fire_timer fuel stB (next_id st) = Some st').
  { unfold fire_timer. rewrite Hfind. cbn [owner T].
    change (new_TimeoutError
              (set_timers stB
                 (filter (fun e' => negb (tid e' =? next_id st)) (timers stB))))
      with (stq, err).
    cbv beta iota. rewrite E3. reflexivity. }
  exists st'. split; [exact Hfire|].
  split; [change (nodes st') with (nodes st3); now rewrite N3|].
  assert (Hxs : natives st' = natives st).
  { change (natives st') with (natives st3). rewrite X3. exact Hx. }
  split; [exact Hxs|].
  assert (Hsp' : sp_signal (pluses st' s) = sp_signal (pluses st s)).
  { unfold st'. cbn [pluses upd_plus set_pluses]. rewrite upd_same.
    cbn [sp_signal]. rewrite P3. unfold stq.
    cbn [pluses bump clearTimeout set_timers]. now rewrite Hps. }
  split; [unfold reason, native_of; now rewrite Hsp', Hxs|].
  split.
  { unfold hasTimeout, st'. cbn [pluses upd_plus set_pluses].
    now rewrite upd_same. }
  split.
  - unfold armed_of. change (timers st') with (timers st3). rewrite T3.
    unfold stq. cbn [timers bump clearTimeout set_timers].
    rewrite filter_swap. unfold armed_of in Harmed. rewrite Harmed.
    cbn [filter T tid]. now rewrite Nat.eqb_refl.
  - change (listeners st') with (listeners st3). rewrite L3.
    change (listeners stq) with (listeners stB). rewrite Hl.
    apply in_or_app. right. now left.
Qed.

(** ** Along a whole program *)

(** X14: along any program, a settled flag that is set stays set: no
    operation of the library, and nothing the host does with listeners,
    timers and the executor's capabilities, puts [_isSettled] of a promise
    back to false. *)
Theorem settled_flag_stays_set (fuel : nat) (ops : list Op) :
  forall st p,
    reachable st -> valid_all fuel st ops ->
    p < next_id st -> _isSettled (nodes st p) = true ->
    _isSettled (nodes (run fuel ops st) p) = true.
Proof.
  induction ops as [|op rest IH]; intros st p Hr Hv Hp Hs; [exact Hs|].
  cbn [run fold_left]. cbn [valid_all] in Hv. destruct Hv as [Hv Hrest].
  destruct (step fuel st op) as [st'|] eqn:E.
  - apply IH.
    + eapply reach_step; eassumption.
    + exact Hrest.
    + destruct (@step_keeps_invariants fuel st st' op (reachable_Inv Hr) Hv E)
        as (_ & _ & _ & Hn). lia.
    + exact (@isSettled_never_reset fuel st st' op E p Hp Hs).
  - now apply IH.
Qed.

(** X15: [abort] on a promise with no signal, or with an [AbortSignalPlus]
    bound, comes back normally: it does not throw, and the dispatch it may
    start ends.  (Only a native signal bound to the promise can make it
    throw.) *)
Theorem abort_without_native_signal_returns (fuel : nat) (st : State)
    (n : nat) (r : value) :
  reachable st -> n < fuel ->
  S (S (next_id st)) + List.length (listeners st) < fuel ->
  (forall x, _signal (nodes st n) <> Some (SNative x)) ->
  exists st', abort fuel st n r = Ok st'.
Proof.
  intros Hr Hn Hf Hsig.
  exact (@abort_returns_without_native_signal fuel st n r
           (inv_wf (reachable_Inv Hr)) Hn Hf Hsig).
Qed.

(** ** More stores built by programs *)

(** A pending promise 1 bound to the native signal 0 (listener 2). *)
Definition native_bound_promise : State :=
  run 20 [OpNewAbortController; OpConstructor [] (Some (SNative 0))] init.

Lemma native_bound_promise_reachable : reachable native_bound_promise.
Proof.
  apply reachable_run; [apply reach_init|]. vm_compute. repeat split; lia.
Qed.

(** Two signals tied in a ring: signal 1 (on native signal 0) follows signal
    3 (on native signal 2), and signal 3 follows signal 1. *)
Definition signal_ring : State :=
  run 20 [OpNewAbortControllerPlus None; OpNewAbortControllerPlus None;
          OpOne 1 (SPlus 3); OpOne 3 (SPlus 1)] init.

Lemma signal_ring_reachable : reachable signal_ring.
Proof.
  apply reachable_run; [apply reach_init|]. vm_compute. repeat split; lia.
Qed.

(** Aborting one signal of the ring aborts both, with the same reason, and
    leaves no listener. *)
Example signal_ring_abort :
  match AbortControllerPlus_abort 20 signal_ring 1 (VString "stop") with
  | Some st' =>
      reason st' (SPlus 1) = VString "stop" /\
      reason st' (SPlus 3) = VString "stop" /\ listeners st' = []
  | None => False
  end.
Proof. vm_compute. repeat split. Qed.

(** A promise 0 that its executor has resolved. *)
Definition resolved_promise : State :=
  run 5 [OpConstructor [ExecResolve (VNumber 500)] None] init.

Lemma resolved_promise_reachable : reachable resolved_promise.
Proof.
  apply reachable_run; [apply reach_init|]. vm_compute. repeat split; lia.
Qed.

(** ** The further theorems at concrete stores *)

Lemma then_links_derived_promise_witness :
  reachable bound_promise /\ 2 < next_id bound_promise /\
  exists st', then_ 5 bound_promise 2 = Some (st', next_id bound_promise).
Proof.
  assert (Hp : 2 < next_id bound_promise) by (vm_compute; lia).
  split; [exact bound_promise_reachable|]. split; [exact Hp|].
  destruct (then_links_derived_promise 5 bound_promise 2
              bound_promise_reachable Hp) as [st' (E & _)].
  exists st'. exact E.
Defined.

Lemma abort_of_derived_promise_spares_signals_witness :
  reachable bound_promise /\ 2 < next_id bound_promise /\
  next_id bound_promise < 9 /\
  exists st1 st2,
    then_ 9 bound_promise 2 = Some (st1, next_id bound_promise) /\
    abort 9 st1 (next_id bound_promise) (VString "R") = Ok st2 /\
    natives st2 = natives bound_promise.
Proof.
  assert (Hp : 2 < next_id bound_promise) by (vm_compute; lia).
  assert (Hf : next_id bound_promise < 9) by (vm_compute; lia).
  split; [exact bound_promise_reachable|]. split; [exact Hp|].
  split; [exact Hf|].
  destruct (abort_of_derived_promise_spares_signals 9 bound_promise 2
              (VString "R") bound_promise_reachable Hp Hf)
    as (st1 & st2 & t & E1 & _ & E2 & Hx & _).
  exists st1, st2. repeat split; assumption.
Defined.

Lemma abort_rejects_pending_target_witness :
  reachable bound_promise /\ 2 < 20 /\ ample bound_promise 20 /\
  exists t st',
    chain_walk bound_promise 2 t /\
    result_state (abort 20 bound_promise 2 VUndefined) = Some st'.
Proof.
  assert (Hn : 2 < 20) by lia.
  assert (Hf : ample bound_promise 20) by (unfold ample; vm_compute; lia).
  split; [exact bound_promise_reachable|]. split; [exact Hn|].
  split; [exact Hf|].
  destruct (abort_rejects_pending_target 20 bound_promise 2 VUndefined
              bound_promise_reachable Hn Hf) as (t & st' & Hc & E & _).
  exists t, st'. split; assumption.
Defined.

Lemma locked_in_promise_ignores_abort_witness :
  alreadyResolved (nodes bound_promise 2) = false /\
  outcome (nodes bound_promise 2) = Pending /\
  outcome (nodes (executor_resolve bound_promise 2 (VThenable 7)) 2) = Pending.
Proof.
  assert (H1 : alreadyResolved (nodes bound_promise 2) = false)
    by (vm_compute; reflexivity).
  assert (H2 : outcome (nodes bound_promise 2) = Pending)
    by (vm_compute; reflexivity).
  split; [exact H1|]. split; [exact H2|].
  exact (proj1 (locked_in_promise_ignores_abort 9 bound_promise 2 7 H1 H2)).
Defined.

Lemma abort_beats_wrapped_settlement_witness :
  0 < 1 /\
  exists st1 st2,
    combinator Race 1 init [IsAbortablePromise 0; IsPromise] None
    = Some (st1, next_id init) /\
    abort 1 st1 (next_id init) (VString "late") = Ok st2.
Proof.
  assert (Hf : 0 < 1) by lia.
  split; [exact Hf|].
  destruct (abort_beats_wrapped_settlement Race 1 init
              [IsAbortablePromise 0; IsPromise] (VString "late") (VNumber 1) Hf)
    as (st1 & st2 & E1 & _ & _ & _ & E2 & _).
  exists st1, st2. split; assumption.
Defined.

Lemma newWithSignal_makes_own_signal_witness :
  reachable bound_promise /\
  next_id bound_promise + List.length (listeners bound_promise) + 6 < 20 /\
  exists st',
    newWithSignal 20 bound_promise [] None
    = Some (st', S (S (next_id bound_promise))).
Proof.
  assert (Hf : next_id bound_promise + List.length (listeners bound_promise)
               + 6 < 20) by (vm_compute; lia).
  split; [exact bound_promise_reachable|]. split; [exact Hf|].
  destruct (newWithSignal_makes_own_signal 20 bound_promise [] (VString "R")
              bound_promise_reachable Hf) as (st' & st'' & E & _).
  exists st'. exact E.
Defined.

Lemma timeout_rejects_bound_promise_witness :
  reachable bound_promise /\
  next_id bound_promise + List.length (listeners bound_promise) + 10 < 20 /\
  exists st1,
    AbortSignalPlus_timeout bound_promise 50 None
    = (st1, S (next_id bound_promise)).
Proof.
  assert (Hf : next_id bound_promise + List.length (listeners bound_promise)
               + 10 < 20) by (vm_compute; lia).
  split; [exact bound_promise_reachable|]. split; [exact Hf|].
  destruct (timeout_rejects_bound_promise 20 bound_promise 50 []
              bound_promise_reachable Hf) as (st1 & st2 & st3 & E & _).
  exists st1. exact E.
Defined.

Lemma forced_abort_is_invisible_to_native_witness :
  reachable native_bound_promise /\ 1 < 20 /\ ample native_bound_promise 20 /\
  _signal (nodes native_bound_promise 1) = Some (SNative 0) /\
  quiet_listeners native_bound_promise 0 /\
  ns_aborted (natives native_bound_promise 0) = false /\
  own_aborted (natives native_bound_promise 0) = None /\
  own_reason (natives native_bound_promise 0) = None /\
  exists st',
    abort 20 native_bound_promise 1 (VString "R") = Ok st' /\
    aborted st' (SNative 0) = true /\ ns_aborted (natives st' 0) = false.
Proof.
  assert (Hn : 1 < 20) by lia.
  assert (Hf : ample native_bound_promise 20)
    by (unfold ample; vm_compute; lia).
  assert (Hs : _signal (nodes native_bound_promise 1) = Some (SNative 0))
    by (vm_compute; reflexivity).
  assert (Hq : quiet_listeners native_bound_promise 0).
  { intros l Hin Ht. vm_compute in Hin. destruct Hin as [<- | []].
    vm_compute. reflexivity. }
  assert (H1 : ns_aborted (natives native_bound_promise 0) = false)
    by (vm_compute; reflexivity).
  assert (H2 : own_aborted (natives native_bound_promise 0) = None)
    by (vm_compute; reflexivity).
  assert (H3 : own_reason (natives native_bound_promise 0) = None)
    by (vm_compute; reflexivity).
  split; [exact native_bound_promise_reachable|]. split; [exact Hn|].
  split; [exact Hf|]. split; [exact Hs|]. split; [exact Hq|].
  split; [exact H1|]. split; [exact H2|]. split; [exact H3|].
  destruct (forced_abort_is_invisible_to_native 20 native_bound_promise 1 0
              (VString "R") native_bound_promise_reachable Hn Hf Hs Hq H1 H2 H3)
    as (st' & E & A1 & _ & A2 & _).
  exists st'. repeat split; assumption.
Defined.

Lemma controller_abort_is_single_fire_witness :
  0 < 1 /\
  ns_aborted (natives stopped_signal (sp_signal (pluses stopped_signal 1)))
  = true /\
  exists st',
    AbortControllerPlus_abort 1 stopped_signal 1 (VString "again") = Some st' /\
    reason st' (SPlus 1) = reason stopped_signal (SPlus 1).
Proof.
  assert (Hf : 0 < 1) by lia.
  assert (Ha : ns_aborted
                 (natives stopped_signal (sp_signal (pluses stopped_signal 1)))
               = true) by (vm_compute; reflexivity).
  split; [exact Hf|]. split; [exact Ha|].
  destruct (controller_abort_is_single_fire 1 stopped_signal 1
              (VString "again") Hf Ha) as (st' & E & _ & _ & _ & _ & _ & _ & R).
  exists st'. split; assumption.
Defined.

Lemma controller_abort_defaults_to_AbortError_witness :
  reachable bound_promise /\
  S (S (next_id bound_promise)) + List.length (listeners bound_promise) < 20 /\
  nullish VNull = true /\ unfired bound_promise (SPlus 1) /\
  exists st',
    AbortControllerPlus_abort 20 bound_promise 1 VNull = Some st' /\
    isAbortError (reason st' (SPlus 1)) = true.
Proof.
  assert (Hf : S (S (next_id bound_promise))
               + List.length (listeners bound_promise) < 20)
    by (vm_compute; lia).
  assert (Hn : nullish VNull = true) by reflexivity.
  assert (Hu : unfired bound_promise (SPlus 1)) by (vm_compute; repeat split).
  split; [exact bound_promise_reachable|]. split; [exact Hf|].
  split; [exact Hn|]. split; [exact Hu|].
  destruct (controller_abort_defaults_to_AbortError 20 bound_promise 1 VNull
              bound_promise_reachable Hf Hn Hu) as (st' & E & _ & _ & A & _).
  exists st'. split; assumption.
Defined.

Lemma from_native_signal_links_one_way_witness :
  reachable native_bound_promise /\ 0 < next_id native_bound_promise /\
  next_id native_bound_promise
  + List.length (listeners native_bound_promise) + 5 < 20 /\
  aborted native_bound_promise (SNative 0) = false /\
  exists st',
    AbortSignalPlus_from 20 native_bound_promise (SNative 0)
    = Some (st', S (next_id native_bound_promise)).
Proof.
  assert (Hx : 0 < next_id native_bound_promise) by (vm_compute; lia).
  assert (Hf : next_id native_bound_promise
               + List.length (listeners native_bound_promise) + 5 < 20)
    by (vm_compute; lia).
  assert (Ha : aborted native_bound_promise (SNative 0) = false)
    by (vm_compute; reflexivity).
  split; [exact native_bound_promise_reachable|]. split; [exact Hx|].
  split; [exact Hf|]. split; [exact Ha|].
  destruct (from_native_signal_links_one_way 20 native_bound_promise 0
              (VString "R") native_bound_promise_reachable Hx Hf Ha)
    as (st' & E & _).
  exists st'. exact E.
Defined.

Lemma fired_signal_reaches_every_listener_witness :
  reachable signal_ring /\
  S (next_id signal_ring) + List.length (listeners signal_ring) < 20 /\
  ns_aborted (natives signal_ring (sp_signal (pluses signal_ring 1))) = false /\
  exists st', AbortControllerPlus_abort 20 signal_ring 1 VUndefined = Some st'.
Proof.
  assert (Hf : S (next_id signal_ring) + List.length (listeners signal_ring)
               < 20) by (vm_compute; lia).
  assert (Ha : ns_aborted
                 (natives signal_ring (sp_signal (pluses signal_ring 1)))
               = false) by (vm_compute; reflexivity).
  split; [exact signal_ring_reachable|]. split; [exact Hf|].
  split; [exact Ha|].
  destruct (fired_signal_reaches_every_listener 20 signal_ring 1 VUndefined
              signal_ring_reachable Hf Ha) as (st' & E & _).
  exists st'. exact E.
Defined.

Lemma quiet_signal_rejects_with_its_reason_witness :
  reachable bound_promise /\
  S (next_id bound_promise) + List.length (listeners bound_promise) < 20 /\
  quiet_listeners bound_promise (sp_signal (pluses bound_promise 1)) /\
  unfired bound_promise (SPlus 1) /\
  exists st',
    AbortControllerPlus_abort 20 bound_promise 1 (VString "R") = Some st' /\
    reason st' (SPlus 1) = snd (default_reason bound_promise (VString "R")).
Proof.
  assert (Hf : S (next_id bound_promise)
               + List.length (listeners bound_promise) < 20)
    by (vm_compute; lia).
  assert (Hq : quiet_listeners bound_promise
                 (sp_signal (pluses bound_promise 1))).
  { intros l Hin Ht. vm_compute in Hin. destruct Hin as [<- | []].
    vm_compute. reflexivity. }
  assert (Hu : unfired bound_promise (SPlus 1)) by (vm_compute; repeat split).
  split; [exact bound_promise_reachable|]. split; [exact Hf|].
  split; [exact Hq|]. split; [exact Hu|].
  destruct (quiet_signal_rejects_with_its_reason 20 bound_promise 1
              (VString "R") bound_promise_reachable Hf Hq Hu)
    as (st' & E & _ & R & _).
  exists st'. split; assumption.
Defined.

Lemma settled_flag_stays_set_witness :
  reachable resolved_promise /\
  valid_all 5 resolved_promise [OpThen 0; OpAbort 0 VUndefined] /\
  0 < next_id resolved_promise /\
  _isSettled (nodes resolved_promise 0) = true /\
  _isSettled
    (nodes (run 5 [OpThen 0; OpAbort 0 VUndefined] resolved_promise) 0)
  = true.
Proof.
  assert (Hv : valid_all 5 resolved_promise [OpThen 0; OpAbort 0 VUndefined])
    by (vm_compute; repeat split; lia).
  assert (Hp : 0 < next_id resolved_promise) by (vm_compute; lia).
  assert (Hs : _isSettled (nodes resolved_promise 0) = true)
    by (vm_compute; reflexivity).
  split; [exact resolved_promise_reachable|]. split; [exact Hv|].
  split; [exact Hp|]. split; [exact Hs|].
  exact (settled_flag_stays_set 5 [OpThen 0; OpAbort 0 VUndefined]
           resolved_promise 0 resolved_promise_reachable Hv Hp Hs).
Defined.

Lemma abort_without_native_signal_returns_witness :
  reachable bound_promise /\ 2 < 20 /\
  S (S (next_id bound_promise)) + List.length (listeners bound_promise) < 20 /\
  (forall x, _signal (nodes bound_promise 2) <> Some (SNative x)) /\
  exists st', abort 20 bound_promise 2 (VString "R") = Ok st'.
Proof.
  assert (Hn : 2 < 20) by lia.
  assert (Hf : S (S (next_id bound_promise))
               + List.length (listeners bound_promise) < 20)
    by (vm_compute; lia).
  assert (Hs : forall x, _signal (nodes bound_promise 2) <> Some (SNative x))
    by (intros x H; vm_compute in H; discriminate H).
  split; [exact bound_promise_reachable|]. split; [exact Hn|].
  split; [exact Hf|]. split; [exact Hs|].
  exact (abort_without_native_signal_returns 20 bound_promise 2 (VString "R")
           bound_promise_reachable Hn Hf Hs).
Defined.

Lemma abort_of_linked_signals_returns_witness :
  reachable signal_ring /\
  S (next_id signal_ring) + List.length (listeners signal_ring) < 20 /\
  exists st',
    AbortControllerPlus_abort 20 signal_ring 3 (VString "stop") = Some st'.
Proof.
  assert (Hf : S (next_id signal_ring) + List.length (listeners signal_ring)
               < 20) by (vm_compute; lia).
  split; [exact signal_ring_reachable|]. split; [exact Hf|].
  destruct (abort_of_linked_signals_returns 20 signal_ring 3 (VString "stop")
              signal_ring_reachable Hf) as (st' & E & _).
  exists st'. exact E.
Defined.

Lemma controller_on_native_controller_shares_signal_witness :
  reachable native_bound_promise /\ 0 < next_id native_bound_promise /\
  next_id native_bound_promise
  + List.length (listeners native_bound_promise) + 2 < 20 /\
  exists st',
    _createController native_bound_promise (Some (CtlNative 0))
    = (st', next_id native_bound_promise) /\
    sp_signal (pluses st' (next_id native_bound_promise)) = 0.
Proof.
  assert (Hx : 0 < next_id native_bound_promise) by (vm_compute; lia).
  assert (Hf : next_id native_bound_promise
               + List.length (listeners native_bound_promise) + 2 < 20)
    by (vm_compute; lia).
  split; [exact native_bound_promise_reachable|]. split; [exact Hx|].
  split; [exact Hf|].
  destruct (controller_on_native_controller_shares_signal 20
              native_bound_promise 0 (VString "R")
              native_bound_promise_reachable Hx Hf) as (st' & E & S & _).
  exists st'. split; assumption.
Defined.

Lemma timeout_on_fired_signal_is_harmless_witness :
  reachable stopped_signal /\ 1 < next_id stopped_signal /\ 0 < 1 /\
  ns_aborted (natives stopped_signal (sp_signal (pluses stopped_signal 1)))
  = true /\
  hasTimeout (fst (timeout stopped_signal 1 50)) 1 = true.
Proof.
  assert (Hs : 1 < next_id stopped_signal) by (vm_compute; lia).
  assert (Hf : 0 < 1) by lia.
  assert (Ha : ns_aborted
                 (natives stopped_signal (sp_signal (pluses stopped_signal 1)))
               = true) by (vm_compute; reflexivity).
  split; [exact stopped_signal_reachable|]. split; [exact Hs|].
  split; [exact Hf|]. split; [exact Ha|].
  exact (proj1 (timeout_on_fired_signal_is_harmless 1 stopped_signal 1 50
                  stopped_signal_reachable Hs Hf Ha)).
Defined.
